(** * Monocle: the raid-worker scheduler ([monocle/worker_raider.py])

    A shallow embedding of the class [WorkerRaider]: the job queue and its
    keys ([add_job], [preload]), the worker selector ([best_worker]), one
    visit attempt ([try_point]), the dispatch loop ([launch]), and what
    [__init__] and [required_extra_accounts] add to the methods of
    [Worker]. [get_start_coords] returns a value of another module and is
    left out.

    Conventions of the embedding.
    - Python [int] is [Z]. A Python [float] is read as the rational it
      denotes ([Q]); [float('inf')] is the extra element of [xfloat].
      Comparison and [int()] are exact on these. An arithmetic operation on
      floats is the exact operation followed by the rounding [fl] of
      IEEE 754 binary64 (to nearest, ties to even, subnormals included),
      and a value that is not a double (a decimal setting, an [int]
      operand) is rounded the same way when it enters one. Results beyond
      the range of a double (infinities, NaN, [OverflowError]) are not
      modelled.
    - The class attributes of [WorkerRaider] ([workers], [skipped],
      [visits], [hash_burn], [job_queue], [coroutine_semaphore]) and the run
      flag [overseer.running] are the fields of [State]; every function
      threads it. A worker is referred to by its position in [workers].
    - [job_queue] is the list inside [queue.PriorityQueue], kept by the
      [heappush] and [heappop] of CPython's [_heapq]; a comparison of two
      tuples that reaches two unequal dicts raises [TypeError].
    - What the code does to the outside world (log lines, sleeps, visits,
      queue insertions, semaphore releases) is appended to [trace].
    - What the outside world answers (clock readings, visit results, the
      jitter of [randomize_point], wake-ups) comes from an [Env] record.
    - A coroutine is followed from its start to its end. What other tasks
      do while it sleeps inside [best_worker] is the [t_others] of a [Tick];
      what they do while it awaits a visit is left out: the statements are
      about what the attempt itself does.
    - [Worker.visit] and [Worker.travel_speed] are code of another module:
      a visit is the result it returns or the exception it raises, a travel
      speed is a function of the point. What a visit does inside the worker
      (its position, and with it its later travel speeds) is not modelled.
    - Exceptions are those deriving from [Exception], and [CancelledError];
      [KeyboardInterrupt] and [SystemExit] are not modelled. *)

From Stdlib Require Import ZArith QArith Qround Qpower Lia Lqa ZifyNat String.
From stdpp Require Import base list.

Local Open Scope Z_scope.
Local Arguments Nat.div : simpl never.

(** ** Python values and exceptions *)

(** The results a visit may hand back, as far as [try_point] looks at them:
    it tests [== -1] and truthiness. *)
Inductive pyval :=
| PyNone
| PyBool (b : bool)
| PyInt (n : Z)
| PyObj (nonempty : bool).

Definition truthy (v : pyval) : bool :=
  match v with
  | PyNone => false
  | PyBool b => b
  | PyInt n => negb (n =? 0)
  | PyObj nonempty => nonempty
  end.

(** [v == k] for an integer literal [k]; [True == 1] and [False == 0]. *)
Definition py_eq_int (v : pyval) (k : Z) : bool :=
  match v with
  | PyBool b => (if b then 1 else 0) =? k
  | PyInt n => n =? k
  | PyNone | PyObj _ => false
  end.

Inductive exn :=
| CancelledError
| GymNotFoundError
| NothingSeenAtGymSpotError
| UnboundLocalError
| TypeError
| OtherException (what : string).

Definition is_cancelled (e : exn) : bool :=
  match e with CancelledError => true | _ => false end.

Definition is_visit_error (e : exn) : bool :=
  match e with
  | GymNotFoundError | NothingSeenAtGymSpotError => true
  | _ => false
  end.

(** ** Numbers *)

Definition Qltb (a b : Q) : bool := negb (Qle_bool b a).

(** [int(x)] of a float: truncation towards zero. *)
Definition py_int (x : Q) : Z := Z.quot (Qnum x) (Z.pos (Qden x)).

(** *** Float arithmetic *)

Definition pow2 (k : Z) : Q := (2 ^ k)%Q.

(** The nearest integer, the even one of two equally near. *)
Definition round_half_even (x : Q) : Z :=
  let f := Qfloor x in
  match (x - inject_Z f ?= 1 # 2)%Q with
  | Lt => f
  | Gt => f + 1
  | Eq => if Z.even f then f else f + 1
  end.

(** The exponent [e] with [2^e <= a < 2^(e+1)], for a positive [a]. *)
Definition binade (a : Q) : Z :=
  let e := Z.log2 (Qnum a) - Z.log2 (Z.pos (Qden a)) in
  if Qle_bool (pow2 e) a then e else e - 1.

(** The double nearest to a positive [a]: a multiple of the unit in the
    last of the 53 binary places of [a], or of [2^-1074] where [a] is too
    small for that. *)
Definition fl_pos (a : Q) : Q :=
  let s := Z.max (binade a - 52) (-1074) in
  Qred (inject_Z (round_half_even (a / pow2 s)) * pow2 s).

(** The double nearest to [x]: what a float literal, [float(n)] and every
    float operation round to. *)
Definition fl (x : Q) : Q :=
  match (x ?= 0)%Q with
  | Eq => 0
  | Gt => fl_pos x
  | Lt => - fl_pos (- x)
  end.

(** [x + y], [x - y], [x * y] and [x / y] where an operand is a float. *)
Definition fadd (x y : Q) : Q := fl (fl x + fl y).
Definition fsub (x y : Q) : Q := fl (fl x - fl y).
Definition fmul (x y : Q) : Q := fl (fl x * fl y).
Definition fdiv (x y : Q) : Q := fl (fl x / fl y).

(** Rounding is computed on numbers, never unfolded on a variable. *)
Arguments fl : simpl never.
Arguments fadd : simpl never.
Arguments fsub : simpl never.
Arguments fmul : simpl never.
Arguments fdiv : simpl never.
Opaque fl.

Inductive xfloat :=
| Fin (q : Q)
| Inf.

(** [speed < lowest_speed], [speed] a travel speed, [lowest_speed] possibly
    [float('inf')]. *)
Definition speed_lt (speed : Q) (lowest_speed : xfloat) : bool :=
  match lowest_speed with
  | Fin l => Qltb speed l
  | Inf => true
  end.

(** ** Jobs, workers, configuration *)

Definition Point : Type := Q * Q.

(** A gym dict as [preload] builds it. The two freshness keys are options:
    [None] is a dict without the key, which is what [dict.get]'s default is
    about. *)
Record Job := {
  gym_id : Z;
  external_id : string;
  lat : Q;
  lon : Q;
  gym_name : string;
  url : string;
  last_modified : option Z;
  updated : option Z
}.

Definition set_updated (now : Z) (job : Job) : Job :=
  {| gym_id := gym_id job; external_id := external_id job;
     lat := lat job; lon := lon job; gym_name := gym_name job;
     url := url job; last_modified := last_modified job;
     updated := Some now |}.

(** [gym.get('updated', gym.get('last_modified', 0))] *)
Definition freshness (gym : Job) : Z :=
  match updated gym with
  | Some u => u
  | None => match last_modified gym with
            | Some m => m
            | None => 0
            end
  end.

Definition option_Z_eqb (a b : option Z) : bool :=
  match a, b with
  | Some x, Some y => x =? y
  | None, None => true
  | _, _ => false
  end.

(** [dict == dict] *)
Definition job_eqb (a b : Job) : bool :=
  (gym_id a =? gym_id b) && String.eqb (external_id a) (external_id b)
  && Qeq_bool (lat a) (lat b) && Qeq_bool (lon a) (lon b)
  && String.eqb (gym_name a) (gym_name b) && String.eqb (url a) (url b)
  && option_Z_eqb (last_modified a) (last_modified b)
  && option_Z_eqb (updated a) (updated b).

(** A [Worker] as the scheduler sees it: the [busy] lock, the travel-speed
    estimate, and the two attributes it writes. *)
Record Worker := {
  worker_no : nat;
  busy : bool;
  travel_speed : Point -> Q;
  speed : xfloat;
  scan_delayed : Z
}.

Definition set_busy (b : bool) (w : Worker) : Worker :=
  {| worker_no := worker_no w; busy := b; travel_speed := travel_speed w;
     speed := speed w; scan_delayed := scan_delayed w |}.

Definition set_speed (s : xfloat) (w : Worker) : Worker :=
  {| worker_no := worker_no w; busy := busy w; travel_speed := travel_speed w;
     speed := s; scan_delayed := scan_delayed w |}.

Definition set_scan_delayed (d : Z) (w : Worker) : Worker :=
  {| worker_no := worker_no w; busy := busy w; travel_speed := travel_speed w;
     speed := speed w; scan_delayed := d |}.

(** Instances of [Worker] define neither [__bool__] nor [__len__]: the test
    [if worker:] on a bound name succeeds. *)
Definition worker_truthy (w : Worker) : bool := true.

(** The settings of [sanitized] the scheduler reads. *)
Record Conf := {
  SEARCH_SLEEP : Q;
  SPEED_LIMIT : Q;
  RAIDER_PERCENT_OF_WORKERS : Q;
  GRID : Z * Z
}.

(** ** The job queue: [queue.PriorityQueue] over [heapq] *)

(** A queue item is the tuple [(freshness, time(), gym)]. *)
Definition Entry : Type := Z * Q * Job.

(** [a < b] on two such tuples: the first position where they differ (by
    [==]) decides by [<]; two dicts have no [<], so reaching the third
    position with unequal dicts raises [TypeError] ([None] here). *)
Definition tuple_lt (a b : Entry) : option bool :=
  let '(pa, ta, ga) := a in
  let '(pb, tb, gb) := b in
  if negb (pa =? pb) then Some (pa <? pb)
  else if negb (Qeq_bool ta tb) then Some (Qltb ta tb)
  else if job_eqb ga gb then Some false
  else None.

Definition swap (heap : list Entry) (i j : nat) : list Entry :=
  match heap !! i, heap !! j with
  | Some x, Some y => <[i := y]> (<[j := x]> heap)
  | _, _ => heap
  end.

(** [_heapq]'s [siftdown(heap, startpos, pos)]: the item at [pos] climbs
    while it is smaller than its parent. The second component is the
    exception of a failed comparison, the list being left as it was then.
    [fuel] bounds the number of rounds; [pos] rounds always suffice. *)
Fixpoint siftdown_loop (fuel : nat) (heap : list Entry) (startpos pos : nat)
  : list Entry * option exn :=
  match fuel with
  | O => (heap, None)
  | S fuel' =>
    if (startpos <? pos)%nat then
      let parentpos := Nat.shiftr (pos - 1) 1 in
      match heap !! pos, heap !! parentpos with
      | Some newitem, Some parent =>
        match tuple_lt newitem parent with
        | None => (heap, Some TypeError)
        | Some false => (heap, None)
        | Some true => siftdown_loop fuel' (swap heap parentpos pos) startpos parentpos
        end
      | _, _ => (heap, None)
      end
    else (heap, None)
  end.

Definition siftdown (heap : list Entry) (startpos pos : nat) :=
  siftdown_loop pos heap startpos pos.

(** [_heapq]'s [siftup(heap, pos)]: the smaller child is moved up until a
    leaf is reached, then the item is sifted down from there. *)
Fixpoint siftup_loop (fuel : nat) (heap : list Entry) (startpos pos : nat)
  : list Entry * option exn :=
  let endpos := length heap in
  let limit := Nat.shiftr endpos 1 in
  match fuel with
  | O => siftdown heap startpos pos
  | S fuel' =>
    if (pos <? limit)%nat then
      let childpos := (2 * pos + 1)%nat in
      let pick :=
        if (childpos + 1 <? endpos)%nat then
          match heap !! childpos, heap !! (childpos + 1)%nat with
          | Some a, Some b =>
            match tuple_lt a b with
            | None => None
            | Some true => Some childpos
            | Some false => Some (childpos + 1)%nat
            end
          | _, _ => Some childpos
          end
        else Some childpos in
      match pick with
      | None => (heap, Some TypeError)
      | Some c => siftup_loop fuel' (swap heap c pos) startpos c
      end
    else siftdown heap startpos pos
  end.

Definition siftup (heap : list Entry) (pos : nat) :=
  siftup_loop (length heap) heap pos pos.

(** [heappush]: append, then sift the new item down from the end. *)
Definition heappush (heap : list Entry) (item : Entry) :=
  siftdown (heap ++ [item]) 0 (length heap).

(** [heappop]: [None] on an empty list. Otherwise the list left behind and
    either the item returned or the exception raised while restoring the
    heap (the item taken out is dropped then). *)
Definition heappop (heap : list Entry)
  : option (list Entry * (Entry + exn)) :=
  match last heap with
  | None => None
  | Some lastelt =>
    let heap1 := removelast heap in
    match heap1 with
    | [] => Some ([], inl lastelt)
    | returnitem :: _ =>
      match siftup (<[0%nat := lastelt]> heap1) 0 with
      | (heap2, None) => Some (heap2, inl returnitem)
      | (heap2, Some e) => Some (heap2, inr e)
      end
    end
  end.

Definition put_nowait := heappush.
Definition qsize (q : list Entry) : nat := length q.
Definition empty (q : list Entry) : bool := (qsize q =? 0)%nat.

(** *** What the queue is expected to satisfy *)

(** Order of two items by their first two components. *)
Definition key_lt (a b : Entry) : bool :=
  (a.1.1 <? b.1.1) || ((a.1.1 =? b.1.1) && Qltb a.1.2 b.1.2).

(** The heap invariant of [heapq]: no item is smaller than its parent. *)
Definition heap_ordered (heap : list Entry) : Prop :=
  forall i x p, (0 < i)%nat ->
    heap !! i = Some x -> heap !! ((i - 1) / 2)%nat = Some p ->
    key_lt x p = false.

(** Any two items of the list can be compared. *)
Definition comparable (heap : list Entry) : Prop :=
  forall a b, a ∈ heap -> b ∈ heap -> is_Some (tuple_lt a b).

(** A queue in working order: the heap invariant holds and no comparison
    can fail. *)
Definition queue_ok (q : list Entry) : Prop :=
  heap_ordered q /\ comparable q.

(** A queued item whose first component is its gym's [updated]. *)
Definition keyed_by_updated (item : Entry) : Prop :=
  updated item.2 = Some item.1.1.

(** While an item climbs from [pos]: every edge not below [pos] is in
    order, and the items below [pos] are in order with the item above it. *)
Definition sift_inv (l : list Entry) (pos : nat) : Prop :=
  (forall i x p, (0 < i)%nat -> i <> pos ->
     l !! i = Some x -> l !! ((i - 1) / 2)%nat = Some p ->
     key_lt x p = false)
  /\ (forall c x g, (0 < pos)%nat -> (0 < c)%nat -> ((c - 1) / 2)%nat = pos ->
        l !! c = Some x -> l !! ((pos - 1) / 2)%nat = Some g ->
        key_lt x g = false).

(** While an item sinks from [pos]: every edge that does not touch [pos]
    is in order, and the items below [pos] are in order with the item
    above it. *)
Definition bubble_inv (l : list Entry) (pos : nat) : Prop :=
  (forall i x p, (0 < i)%nat -> i <> pos -> ((i - 1) / 2)%nat <> pos ->
     l !! i = Some x -> l !! ((i - 1) / 2)%nat = Some p ->
     key_lt x p = false)
  /\ (forall c x g, (0 < pos)%nat -> (0 < c)%nat -> ((c - 1) / 2)%nat = pos ->
        l !! c = Some x -> l !! ((pos - 1) / 2)%nat = Some g ->
        key_lt x g = false).

(** ** The shared state and the outside world *)

Inductive Event :=
| LogSpeedLimit (ext_id : string) (time_diff : Z) (speed_limit : Q) (my_speed : xfloat)
| LogGymVisitError (e : exn)
| LogException (e : exn)
| LogLauncherError (e : exn)
| Slept (seconds : Q)
| Visit (worker : nat) (point : Point) (gym : Job)
| Put (item : Entry)
| Released.

Record State := {
  workers : list Worker;
  gym_scans : Z;
  skipped : Z;
  visits : Z;
  hash_burn : Z;
  job_queue : list Entry;
  coroutine_semaphore : Z;
  running : bool;
  trace : list Event
}.

Definition with_workers (ws : list Worker) (st : State) : State :=
  {| workers := ws; gym_scans := gym_scans st; skipped := skipped st;
     visits := visits st; hash_burn := hash_burn st;
     job_queue := job_queue st;
     coroutine_semaphore := coroutine_semaphore st;
     running := running st; trace := trace st |}.

Definition with_skipped (n : Z) (st : State) : State :=
  {| workers := workers st; gym_scans := gym_scans st; skipped := n;
     visits := visits st; hash_burn := hash_burn st;
     job_queue := job_queue st;
     coroutine_semaphore := coroutine_semaphore st;
     running := running st; trace := trace st |}.

Definition with_visits (n : Z) (st : State) : State :=
  {| workers := workers st; gym_scans := gym_scans st; skipped := skipped st;
     visits := n; hash_burn := hash_burn st;
     job_queue := job_queue st;
     coroutine_semaphore := coroutine_semaphore st;
     running := running st; trace := trace st |}.

Definition with_hash_burn (n : Z) (st : State) : State :=
  {| workers := workers st; gym_scans := gym_scans st; skipped := skipped st;
     visits := visits st; hash_burn := n;
     job_queue := job_queue st;
     coroutine_semaphore := coroutine_semaphore st;
     running := running st; trace := trace st |}.

Definition with_job_queue (q : list Entry) (st : State) : State :=
  {| workers := workers st; gym_scans := gym_scans st; skipped := skipped st;
     visits := visits st; hash_burn := hash_burn st;
     job_queue := q;
     coroutine_semaphore := coroutine_semaphore st;
     running := running st; trace := trace st |}.

Definition with_semaphore (n : Z) (st : State) : State :=
  {| workers := workers st; gym_scans := gym_scans st; skipped := skipped st;
     visits := visits st; hash_burn := hash_burn st;
     job_queue := job_queue st;
     coroutine_semaphore := n;
     running := running st; trace := trace st |}.

Definition emit (ev : Event) (st : State) : State :=
  {| workers := workers st; gym_scans := gym_scans st; skipped := skipped st;
     visits := visits st; hash_burn := hash_burn st;
     job_queue := job_queue st;
     coroutine_semaphore := coroutine_semaphore st;
     running := running st; trace := trace st ++ [ev] |}.

(** One round of [best_worker]'s loop as the world answers it: the two
    clock readings of the round and, should the round end in [sleep], how
    the sleep ends ([t_cancelled]) and what the other tasks did meanwhile. *)
Record Tick := {
  t_time : Q;
  t_mono : Q;
  t_cancelled : bool;
  t_others : State -> State
}.

Inductive visit_outcome :=
| Returns (v : pyval)
| Raises (e : exn).

(** The answers one run of [try_point] gets. *)
Record Env := {
  randomize_point : Point -> Q -> Point;
  mono_start : Q;
  first_tick : Tick;
  more_ticks : list Tick;
  visit1 : visit_outcome;
  visit2 : visit_outcome;
  time_done : Q;
  time_requeue : Q
}.

(** ** [add_job] *)

Definition add_job (now : Q) (gym : Job) (st : State) : State * option exn :=
  let item := (freshness gym, now, gym) in
  let '(q, err) := put_nowait (job_queue st) item in
  (emit (Put item) (with_job_queue q st), err).

(** A run of [add_job] calls, each with the clock reading it takes, up to
    the first one that raises. *)
Fixpoint add_jobs (jobs : list (Job * Q)) (st : State) : State * option exn :=
  match jobs with
  | [] => (st, None)
  | (gym, now) :: jobs' =>
    match add_job now gym st with
    | (st, Some e) => (st, Some e)
    | (st, None) => add_jobs jobs' st
    end
  end.

(** The item [add_job] builds for a gym at a clock reading. *)
Definition item_of (job : Job * Q) : Entry := (freshness job.1, job.2, job.1).

(** The clock readings grow from each call of the run to the next. *)
Fixpoint clock_advances (jobs : list (Job * Q)) : bool :=
  match jobs with
  | (_, now) :: jobs' =>
    match jobs' with
    | (_, next) :: _ => Qltb now next && clock_advances jobs'
    | [] => true
    end
  | [] => true
  end.

(** ** [best_worker] *)

(** The generator [(w for w in self.workers if not w.busy.locked())]; a
    worker is referred to by its position in [workers]. *)
Definition idle_workers (ws : list Worker) : list (nat * Worker) :=
  filter (fun iw => busy (snd iw) = false) (imap pair ws).

(** The [for w in gen] loop. *)
Fixpoint scan_rest (gen : list (nat * Worker)) (point : Point)
    (worker : nat) (lowest_speed : xfloat) : nat * xfloat :=
  match gen with
  | [] => (worker, lowest_speed)
  | (i, w) :: gen' =>
    let speed := travel_speed w point in
    if speed_lt speed lowest_speed
    then scan_rest gen' point i (Fin speed)
    else scan_rest gen' point worker lowest_speed
  end.

(** The [try: next(gen) ... except StopIteration] and the loop after it.
    [worker] is the local name of [best_worker]: [None] while unbound. *)
Definition scan (ws : list Worker) (point : Point) (worker : option nat)
  : option nat * xfloat :=
  match idle_workers ws with
  | [] => (worker, Inf)
  | (i, w) :: gen =>
    let '(j, l) := scan_rest gen point i (Fin (travel_speed w point)) in
    (Some j, l)
  end.

Inductive bw_result :=
| BWReturn (worker : option nat)
| BWRaise (e : exn)
| BWPending.

Section Scheduler.

Context (conf : Conf).

Definition speed_limit_of (now : Q) (updated : Z) : Z * Q :=
  let tolerable_time_diff := 300 in
  let time_diff := py_int (fsub now (inject_Z updated)) in
  let min_time_diff := Z.max (Z.min time_diff (tolerable_time_diff * 5)) 0 in
  (time_diff,
   fmul (SPEED_LIMIT conf)
     (fadd 1 (fdiv (inject_Z min_time_diff) (inject_Z tolerable_time_diff)))).

(** The [while self.overseer.running] loop, entered with the answers [tk]
    of the current round and [rest] of the later ones. [BWPending]: the
    coroutine sleeps and the answers have run out. *)
Fixpoint best_worker_loop (rest : list Tick) (tk : Tick) (st : State)
    (worker : option nat) (point : Point) (job : Job) (updated : Z)
    (skip_time : Q) {struct rest} : State * bw_result :=
  if negb (running st) then (st, BWReturn None)
  else
    let '(worker, lowest_speed) := scan (workers st) point worker in
    let '(time_diff, speed_limit) := speed_limit_of (t_time tk) updated in
    let st := emit (LogSpeedLimit (external_id job) time_diff speed_limit
                      lowest_speed) st in
    match worker with
    | None => (st, BWRaise UnboundLocalError)
    | Some i =>
      if from_option worker_truthy true (workers st !! i) then
        (with_workers (alter (set_speed lowest_speed) i (workers st)) st,
         BWReturn (Some i))
      else if negb (Qeq_bool skip_time 0) && Qltb skip_time (t_mono tk) then
        (st, BWReturn None)
      else
        let st := emit (Slept (SEARCH_SLEEP conf)) st in
        if t_cancelled tk then (st, BWRaise CancelledError)
        else
          match rest with
          | [] => (st, BWPending)
          | tk' :: rest' =>
            best_worker_loop rest' tk' (t_others tk st) worker point job
              updated skip_time
          end
    end.

Definition best_worker (env : Env) (st : State) (point : Point) (job : Job)
    (updated : Z) (skip_time : Q) : State * bw_result :=
  best_worker_loop (more_ticks env) (first_tick env) st None point job
    updated skip_time.

(** ** [try_point] *)

(** How the [try] block ends. *)
Inductive body_end :=
| BodyReturn
| BodyDone
| BodyRaise (e : exn)
| BodyPending.

(** The part of the [try] block under [async with worker.busy], the lock
    taken before and given back after, whatever happens in between. *)
Definition visit_block (env : Env) (st : State) (job : Job) (i : nat)
    (point : Point) (updated : Z) : State * Job * body_end :=
  let st := emit (Visit i point job) st in
  match visit1 env with
  | Raises e => (st, job, BodyRaise e)
  | Returns visit_result =>
    let '(st, second) :=
      if py_eq_int visit_result (-1) then
        let st := with_hash_burn (hash_burn st + 1) st in
        let point := randomize_point env point 0.00001%Q in
        (emit (Visit i point job) st, visit2 env)
      else (st, Returns visit_result) in
    match second with
    | Raises e => (st, job, BodyRaise e)
    | Returns visit_result =>
      if truthy visit_result then
        if py_eq_int visit_result (-1) then
          (st, job, BodyRaise GymNotFoundError)
        else
          let now := py_int (time_done env) in
          let st := with_workers
                      (alter (set_scan_delayed (now - updated)) i (workers st))
                      st in
          let job := set_updated now job in
          (with_visits (visits st + 1) st, job, BodyDone)
      else (st, job, BodyRaise NothingSeenAtGymSpotError)
    end
  end.

Definition try_body (env : Env) (st : State) (job : Job)
  : State * Job * body_end :=
  let point := (lat job, lon job) in
  let updated := freshness job in
  let point := randomize_point env point 0.00003%Q in
  let skip_time := fadd (mono_start env) (fmul (SEARCH_SLEEP conf) 2) in
  match best_worker env st point job updated skip_time with
  | (st, BWPending) => (st, job, BodyPending)
  | (st, BWRaise e) => (st, job, BodyRaise e)
  | (st, BWReturn None) => (st, job, BodyReturn)
  | (st, BWReturn (Some i)) =>
    if negb (from_option worker_truthy true (workers st !! i)) then
      (st, job, BodyReturn)
    else
      let st := with_workers (alter (set_busy true) i (workers st)) st in
      let '(st, job, r) := visit_block env st job i point updated in
      (with_workers (alter (set_busy false) i (workers st)) st, job, r)
  end.

Definition release (st : State) : State :=
  emit Released (with_semaphore (coroutine_semaphore st + 1) st).

(** The [finally] block; the exception is the one [add_job] raised, in
    which case [release] is not reached. *)
Definition cleanup (now : Q) (job : Job) (st : State) : State * option exn :=
  match add_job now job st with
  | (st, Some e) => (st, Some e)
  | (st, None) => (release st, None)
  end.

(** The branch an attempt took. *)
Inductive ending :=
| NoWorker
| Visited
| Skipped (e : exn)
| Failed (e : exn)
| Cancelled
| Suspended.

Record Attempt := {
  final : State;
  job_after : Job;
  how : ending;
  raised : option exn
}.

Definition finish (env : Env) (st : State) (job : Job) (h : ending)
    (pending : option exn) : Attempt :=
  let '(st, err) := cleanup (time_requeue env) job st in
  {| final := st; job_after := job; how := h;
     raised := match err with Some e => Some e | None => pending end |}.

Definition try_point (env : Env) (st : State) (job : Job) : Attempt :=
  match try_body env st job with
  | (st, job, BodyPending) =>
    {| final := st; job_after := job; how := Suspended; raised := None |}
  | (st, job, BodyReturn) => finish env st job NoWorker None
  | (st, job, BodyDone) => finish env st job Visited None
  | (st, job, BodyRaise e) =>
    if is_cancelled e then finish env st job Cancelled (Some CancelledError)
    else if is_visit_error e then
      let st := with_skipped (skipped st + 1) st in
      finish env (emit (LogGymVisitError e) st) job (Skipped e) None
    else
      let st := with_skipped (skipped st + 1) st in
      finish env (emit (LogException e) st) job (Failed e) None
  end.

(** *** Names for what the statements below mention *)

(** The log line of [best_worker]'s first round. *)
Definition speed_log (env : Env) (job : Job) (updated : Z) (my : xfloat)
  : Event :=
  let '(time_diff, speed_limit) :=
    speed_limit_of (t_time (first_tick env)) updated in
  LogSpeedLimit (external_id job) time_diff speed_limit my.

(** The point of the first visit, and the deadline handed to
    [best_worker]. *)
Definition first_point (env : Env) (job : Job) : Point :=
  randomize_point env (lat job, lon job) 0.00003%Q.

Definition deadline (env : Env) : Q :=
  fadd (mono_start env) (fmul (SEARCH_SLEEP conf) 2).

(** The state in which the visit starts: the speed written, the lock
    taken. *)
Definition engaged (env : Env) (st : State) (job : Job) (i : nat)
    (l : xfloat) : State :=
  with_workers
    (alter (set_busy true) i (alter (set_speed l) i (workers st)))
    (emit (speed_log env job (freshness job) l) st).

End Scheduler.

(** ** [preload] *)

Record Sighting := {
  sighting_last_modified : Z;
  sighting_updated : Z
}.

Record Fort := {
  fort_id : Z;
  fort_external_id : string;
  fort_lat : Q;
  fort_lon : Q;
  fort_name : string;
  fort_url : string;
  sightings : list Sighting
}.

(** The dict [obj] built for one fort. *)
Definition gym_of_fort (fort : Fort) : Job :=
  match sightings fort with
  | [] =>
    {| gym_id := fort_id fort; external_id := fort_external_id fort;
       lat := fort_lat fort; lon := fort_lon fort;
       gym_name := fort_name fort; url := fort_url fort;
       last_modified := Some 0; updated := Some 0 |}
  | sighting :: _ =>
    {| gym_id := fort_id fort; external_id := fort_external_id fort;
       lat := fort_lat fort; lon := fort_lon fort;
       gym_name := fort_name fort; url := fort_url fort;
       last_modified := Some (sighting_last_modified sighting);
       updated := Some (sighting_updated sighting) |}
  end.

(** The [for fort in forts] loop; every fort comes with the clock reading
    its [add_job] would take. The loop stops at the first exception. *)
Fixpoint preload_loop (in_bounds : Point -> bool) (forts : list (Fort * Q))
    (st : State) : State * option exn :=
  match forts with
  | [] => (st, None)
  | (fort, now) :: forts' =>
    if negb (in_bounds (fort_lat fort, fort_lon fort))
    then preload_loop in_bounds forts' st
    else
      match add_job now (gym_of_fort fort) st with
      | (st, Some e) => (st, Some e)
      | (st, None) => preload_loop in_bounds forts' st
      end
  end.

Definition preload (in_bounds : Point -> bool) (forts : list (Fort * Q))
    (st : State) : State :=
  match preload_loop in_bounds forts st with
  | (st, Some e) => emit (LogException e) st
  | (st, None) => st
  end.

(** ** [launch] *)

(** [queue.PriorityQueue.get]: [None] stands for a call that blocks. *)
Definition get (q : list Entry) := heappop q.

(** Where the launcher coroutine rests: in [acquire()] with the job it has
    popped, in [sleep(1)], or returned. *)
Inductive launcher :=
| Acquiring (job : Job)
| Sleeping
| Stopped.

Record System := {
  shared : State;
  loop : launcher;
  tasks : list Job
}.

(** What the event loop does next: resume the launcher, cancel it, make
    the code it runs next fail with [e], or run the [k]-th pending attempt
    to its end with the answers [env]. *)
Inductive input :=
| Wake
| Cancel
| Fault (e : exn)
| Finish (k : nat) (env : Env).

Section Launcher.

Context (conf : Conf).

(** Whether [CancelledError] derives from [Exception] (it does before
    Python 3.8). *)
Context (cancelled_is_exception : bool).

Definition workers_needed : Z :=
  Qceiling (fmul (fmul (RAIDER_PERCENT_OF_WORKERS conf)
                    (inject_Z (fst (GRID conf))))
              (inject_Z (snd (GRID conf)))).

(** The class attributes as the class body sets them. *)
Definition initial_state (is_running : bool) : State :=
  {| workers := []; gym_scans := 0; skipped := 0; visits := 0;
     hash_burn := 0; job_queue := [];
     coroutine_semaphore := workers_needed;
     running := is_running; trace := [] |}.

(** The [for x in range(self.workers_needed)] loop, given what each
    constructor call yields. *)
Fixpoint init_workers (made : list (Worker + exn)) (st : State) : State :=
  match made with
  | [] => st
  | inl w :: made' =>
    init_workers made' (with_workers (workers st ++ [w]) st)
  | inr e :: made' => init_workers made' (emit (LogException e) st)
  end.

Definition caught_as_exception (e : exn) : bool :=
  negb (is_cancelled e) || cancelled_is_exception.

(** An exception raised inside the inner [try] of the [while True] loop. *)
Definition body_raises (e : exn) (st : State) : State * launcher :=
  if caught_as_exception e
  then (emit (Slept 1) (emit (LogLauncherError e) st), Sleeping)
  else (st, Stopped).

(** The inner [while not self.job_queue.empty()] loop, up to the next
    point where the launcher rests. *)
Fixpoint drain (fuel : nat) (st : State) (ts : list Job)
  : State * launcher * list Job :=
  match fuel with
  | O => (st, Sleeping, ts)
  | S fuel' =>
    if empty (job_queue st) then (emit (Slept 1) st, Sleeping, ts)
    else
      match get (job_queue st) with
      | None => (st, Sleeping, ts)
      | Some (q, inr e) =>
        let '(st, l) := body_raises e (with_job_queue q st) in (st, l, ts)
      | Some (q, inl item) =>
        let job := snd item in
        let st := with_job_queue q st in
        if 0 <? coroutine_semaphore st then
          drain fuel'
            (with_semaphore (coroutine_semaphore st - 1) st) (ts ++ [job])
        else (st, Acquiring job, ts)
      end
  end.

Definition run_drain (st : State) (ts : list Job) :=
  drain (S (length (job_queue st))) st ts.

Definition step (inp : input) (sys : System) : System :=
  match inp, loop sys with
  | Wake, Sleeping =>
    let '(st, l, ts) := run_drain (shared sys) (tasks sys) in
    {| shared := st; loop := l; tasks := ts |}
  | Wake, Acquiring job =>
    let st := shared sys in
    if 0 <? coroutine_semaphore st then
      let '(st, l, ts) :=
        run_drain (with_semaphore (coroutine_semaphore st - 1) st)
          (tasks sys ++ [job]) in
      {| shared := st; loop := l; tasks := ts |}
    else sys
  | Cancel, Sleeping =>
    {| shared := shared sys; loop := Stopped; tasks := tasks sys |}
  | Cancel, Acquiring _ =>
    let '(st, l) := body_raises CancelledError (shared sys) in
    {| shared := st; loop := l; tasks := tasks sys |}
  | Fault e, (Sleeping | Acquiring _) =>
    let '(st, l) := body_raises e (shared sys) in
    {| shared := st; loop := l; tasks := tasks sys |}
  | Finish k env, l =>
    match tasks sys !! k with
    | None => sys
    | Some job =>
      let a := try_point conf env (shared sys) job in
      {| shared := final a; loop := l;
         tasks := match how a with
                  | Suspended => tasks sys
                  | _ => delete k (tasks sys)
                  end |}
    end
  | _, Stopped => sys
  end.

(** [launch] from the end of its [sleep(5)] up to the first time the
    launcher rests inside its loop; [made x] is what the constructor call
    for worker number [x] yields. *)
Definition launch (in_bounds : Point -> bool) (forts : list (Fort * Q))
    (made : nat -> Worker + exn) (is_running : bool) : System :=
  let st := preload in_bounds forts (initial_state is_running) in
  let st := init_workers (map made (seq 0 (Z.to_nat workers_needed))) st in
  let '(st, l, ts) := run_drain st [] in
  {| shared := st; loop := l; tasks := ts |}.

Definition run (inputs : list input) (sys : System) : System :=
  fold_left (fun s i => step i s) inputs sys.

End Launcher.

(** The inputs that cancel the launcher. *)
Definition cancels (inp : input) : bool :=
  match inp with
  | Cancel | Fault CancelledError => true
  | _ => false
  end.

(** ** Reading the trace *)

(** The visits made, in order: which worker, at which point. *)
Definition visit_calls (tr : list Event) : list (nat * Point) :=
  omap (fun ev => match ev with Visit i p _ => Some (i, p) | _ => None end) tr.

(** The items handed to [put_nowait], in order. *)
Definition put_calls (tr : list Event) : list Entry :=
  omap (fun ev => match ev with Put item => Some item | _ => None end) tr.

(** The sleeps taken, in order. *)
Definition sleeps (tr : list Event) : list Q :=
  omap (fun ev => match ev with Slept d => Some d | _ => None end) tr.

(** How often the limiter was released. *)
Definition releases (tr : list Event) : nat :=
  length
    (omap (fun ev => match ev with Released => Some tt | _ => None end) tr).

(** The visit result [try_point] classifies: the first one, or the one of
    the retry after a first [-1]. *)
Definition settled_visit (env : Env) : visit_outcome :=
  match visit1 env with
  | Returns v => if py_eq_int v (-1) then visit2 env else Returns v
  | Raises e => Raises e
  end.

(** The attempts' requeues that no release followed. *)
Definition unreleased (before after : State) : Z :=
  Z.of_nat (length (put_calls (trace after)))
  - Z.of_nat (length (put_calls (trace before)))
  - Z.of_nat (releases (trace after)).

(** What the limiter, the pending attempts and the trace add up to. *)
Definition balance (sys : System) : Z :=
  coroutine_semaphore (shared sys) + Z.of_nat (length (tasks sys))
  + Z.of_nat (length (put_calls (trace (shared sys))))
  - Z.of_nat (releases (trace (shared sys))).

(** ** [__init__] and [required_extra_accounts] *)

(** The call [WorkerRaider(worker_no=x, ...)]: [built x] is what
    [Worker.__init__] leaves for that number, or the exception it raises;
    [__init__] then sets [scan_delayed]. *)
Definition new_worker (built : nat -> Worker + exn) (x : nat)
  : Worker + exn :=
  match built x with
  | inl w => inl (set_scan_delayed 0 w)
  | inr e => inr e
  end.

(** [base] is what [Worker.required_extra_accounts] returns. *)
Definition required_extra_accounts (conf : Conf) (base : Z) : Z :=
  base + workers_needed conf.

(** ** More names for the statements *)

(** The workers the constructor calls of [launch] returned. *)
Definition made_workers (made : nat -> Worker + exn) (n : nat)
  : list Worker :=
  omap (fun x => match made x with inl w => Some w | inr _ => None end)
    (seq 0 n).

(** The exceptions the constructor calls of [launch] raised, in the order
    of the calls. *)
Definition failed_calls (made : nat -> Worker + exn) (n : nat) : list exn :=
  omap (fun x => match made x with inl _ => None | inr e => Some e end)
    (seq 0 n).

(** The exceptions logged by [preload] and by the constructor loop. *)
Definition logged_exceptions (tr : list Event) : list exn :=
  omap (fun ev => match ev with LogException e => Some e | _ => None end) tr.

(** The gyms [preload] hands to [add_job], each with the clock reading of
    its call: those of the forts that lie within the bounds. *)
Definition in_bounds_gyms (in_bounds : Point -> bool)
    (forts : list (Fort * Q)) : list (Job * Q) :=
  (fun fq : Fort * Q => (gym_of_fort fq.1, fq.2))
    <$> filter (fun fq : Fort * Q =>
                  in_bounds (fort_lat fq.1, fort_lon fq.1) = true) forts.

(** The job the launcher holds while it waits in [acquire()]. *)
Definition held (l : launcher) : list Job :=
  match l with
  | Acquiring job => [job]
  | Sleeping | Stopped => []
  end.

(** The jobs of the system: queued, handed to an attempt that has not
    ended, or held by the launcher. *)
Definition jobs_of (sys : System) : list Job :=
  (snd <$> job_queue (shared sys)) ++ tasks sys ++ held (loop sys).

(** A gym dict without its ['updated']. *)
Definition fixed_fields (job : Job)
  : Z * string * Q * Q * string * string * option Z :=
  (gym_id job, external_id job, lat job, lon job, gym_name job, url job,
   last_modified job).

(** The failures the launcher has logged from inside its loop. *)
Definition launcher_errors (tr : list Event) : list exn :=
  omap (fun ev => match ev with LogLauncherError e => Some e | _ => None end)
    tr.

(** The clock reading the cleanup of an attempt takes is later than every
    reading in the queue. *)
Definition reading_is_new (env : Env) (st : State) : bool :=
  forallb (fun item : Entry => Qltb item.1.2 (time_requeue env))
    (job_queue st).

(** The same for every attempt that ends along a run. *)
Fixpoint readings_are_new (conf : Conf) (cancelled_is_exception : bool)
    (inputs : list input) (sys : System) : bool :=
  match inputs with
  | [] => true
  | inp :: inputs' =>
    match inp with
    | Finish k env =>
      match tasks sys !! k with
      | Some _ => reading_is_new env (shared sys)
      | None => true
      end
    | Wake | Cancel | Fault _ => true
    end
    && readings_are_new conf cancelled_is_exception inputs'
         (step conf cancelled_is_exception inp sys)
  end.

(** ** Sample data

    A gym, two idle workers whose travel speeds to any point are 5.0 and
    2.0, a busy one, and answers of the outside world. *)

Definition sample_gym (n : Z) (u : option Z) (m : option Z) : Job :=
  {| gym_id := n; external_id := "gym"; lat := 1.35; lon := 103.82;
     gym_name := "Merlion"; url := "http://example.invalid/gym";
     last_modified := m; updated := u |}.

Definition sample_worker (n : nat) (locked : bool) (cost : Q) : Worker :=
  {| worker_no := n; busy := locked; travel_speed := fun _ => cost;
     speed := Fin 0; scan_delayed := 0 |}.

Definition sample_conf : Conf :=
  {| SEARCH_SLEEP := 2.5; SPEED_LIMIT := 19.5;
     RAIDER_PERCENT_OF_WORKERS := 0.5; GRID := (2, 2) |}.

Definition sample_state (ws : list Worker) (q : list Entry)
    (is_running : bool) : State :=
  {| workers := ws; gym_scans := 0; skipped := 0; visits := 0;
     hash_burn := 0; job_queue := q; coroutine_semaphore := 0;
     running := is_running; trace := [] |}.

Definition sample_tick : Tick :=
  {| t_time := 1000.5; t_mono := 50; t_cancelled := false;
     t_others := fun st => st |}.

Definition sample_env (v1 v2 : visit_outcome) : Env :=
  {| randomize_point := fun p amount => (fst p + amount, snd p - amount)%Q;
     mono_start := 49.5; first_tick := sample_tick; more_ticks := [];
     visit1 := v1; visit2 := v2;
     time_done := 1001.75; time_requeue := 1002.25 |}.

Definition two_idle : list Worker :=
  [sample_worker 0 false 5.0; sample_worker 1 false 2.0].

Definition all_busy : list Worker :=
  [sample_worker 0 true 5.0; sample_worker 1 true 2.0].

Definition sample_fort (n : Z) : Fort :=
  {| fort_id := n; fort_external_id := "fort"; fort_lat := 1.35;
     fort_lon := 103.82; fort_name := "Merlion"; fort_url := "";
     sightings := [] |}.

(** Two forts without sightings, two workers, a limiter of two units. *)
Definition sample_launch : System :=
  launch sample_conf false (fun _ => true)
    [(sample_fort 1, 1%Q); (sample_fort 2, 2%Q)]
    (fun x => inl (sample_worker x false (if (x =? 0)%nat then 5.0 else 2.0)))
    true.

(** The answers to an attempt whose first visit ends as [v] and whose
    cleanup reads the clock at [requeue]. *)
Definition sample_env_at (requeue : Q) (v : visit_outcome) : Env :=
  {| randomize_point := fun p amount => (fst p + amount, snd p - amount)%Q;
     mono_start := 49.5; first_tick := sample_tick; more_ticks := [];
     visit1 := v; visit2 := Returns PyNone;
     time_done := requeue - 0.5; time_requeue := requeue |}.

(** A configuration that gives the raids no share of the workers. *)
Definition no_raiders : Conf :=
  {| SEARCH_SLEEP := 2.5; SPEED_LIMIT := 19.5;
     RAIDER_PERCENT_OF_WORKERS := 0; GRID := (2, 2) |}.

(** Two idle workers equally fast, a slower one before them. *)
Definition three_idle : list Worker :=
  [sample_worker 0 false 5.0; sample_worker 1 false 2.0;
   sample_worker 2 false 2.0].

(** * Properties *)

(** ** Numbers *)

Lemma Qltb_lt (a b : Q) : Qltb a b = true <-> (a < b)%Q.
Proof.
  unfold Qltb. rewrite negb_true_iff, <- not_true_iff_false, Qle_bool_iff.
  split; [apply Qnot_le_lt | apply Qlt_not_le].
Qed.

Lemma Qltb_ge (a b : Q) : Qltb a b = false <-> (b <= a)%Q.
Proof.
  unfold Qltb. rewrite negb_false_iff. apply Qle_bool_iff.
Qed.

(** ** The queue keeps what is put into it *)

Lemma swap_perm (heap : list Entry) (i j : nat) : swap heap i j ≡ₚ heap.
Proof.
  unfold swap.
  destruct (heap !! i) as [x|] eqn:Hi; [|done].
  destruct (heap !! j) as [y|] eqn:Hj; [|done].
  by apply Permutation_insert_swap.
Qed.

Lemma siftdown_loop_perm (fuel : nat) :
  forall heap startpos pos,
    (siftdown_loop fuel heap startpos pos).1 ≡ₚ heap.
Proof.
  induction fuel as [|fuel IH]; intros heap startpos pos; simpl; [done|].
  destruct (startpos <? pos)%nat; [|done].
  destruct (heap !! pos) as [newitem|]; [|done].
  destruct (heap !! _) as [parent|]; [|done].
  destruct (tuple_lt newitem parent) as [[]|]; [|done..].
  rewrite IH. apply swap_perm.
Qed.

Lemma heappush_perm (heap : list Entry) (item : Entry) :
  (heappush heap item).1 ≡ₚ heap ++ [item].
Proof. apply siftdown_loop_perm. Qed.

(** ** [add_job] and [cleanup], field by field *)

Section Frame.

Context (conf : Conf).

Lemma add_job_queue now gym st :
  job_queue (add_job now gym st).1
  = (put_nowait (job_queue st) (freshness gym, now, gym)).1.
Proof. unfold add_job. by destruct (put_nowait _ _). Qed.

Lemma add_job_raised now gym st :
  (add_job now gym st).2
  = (put_nowait (job_queue st) (freshness gym, now, gym)).2.
Proof. unfold add_job. by destruct (put_nowait _ _). Qed.

Lemma add_job_trace now gym st :
  trace (add_job now gym st).1
  = trace st ++ [Put (freshness gym, now, gym)].
Proof. unfold add_job. by destruct (put_nowait _ _). Qed.

Lemma add_job_frame now gym st :
  let st' := (add_job now gym st).1 in
  workers st' = workers st /\ skipped st' = skipped st
  /\ visits st' = visits st /\ hash_burn st' = hash_burn st
  /\ coroutine_semaphore st' = coroutine_semaphore st
  /\ running st' = running st.
Proof. unfold add_job. by destruct (put_nowait _ _). Qed.

Lemma cleanup_queue now job st :
  job_queue (cleanup now job st).1
  = (put_nowait (job_queue st) (freshness job, now, job)).1.
Proof.
  unfold cleanup. pose proof (add_job_queue now job st) as H.
  destruct (add_job now job st) as [st' [e|]]; exact H.
Qed.

Lemma cleanup_frame now job st :
  let st' := (cleanup now job st).1 in
  workers st' = workers st /\ skipped st' = skipped st
  /\ visits st' = visits st /\ hash_burn st' = hash_burn st
  /\ running st' = running st.
Proof.
  unfold cleanup. pose proof (add_job_frame now job st) as H.
  destruct (add_job now job st) as [st' [e|]]; simpl in *; tauto.
Qed.

Lemma cleanup_workers now job st :
  workers (cleanup now job st).1 = workers st.
Proof. apply cleanup_frame. Qed.

Lemma cleanup_skipped now job st :
  skipped (cleanup now job st).1 = skipped st.
Proof. apply cleanup_frame. Qed.

Lemma cleanup_visits now job st :
  visits (cleanup now job st).1 = visits st.
Proof. apply cleanup_frame. Qed.

Lemma cleanup_hash_burn now job st :
  hash_burn (cleanup now job st).1 = hash_burn st.
Proof. apply cleanup_frame. Qed.

(** The limiter gets its unit back exactly when [add_job] returned. *)
Lemma cleanup_semaphore now job st :
  coroutine_semaphore (cleanup now job st).1
  = match (cleanup now job st).2 with
    | None => coroutine_semaphore st + 1
    | Some _ => coroutine_semaphore st
    end.
Proof.
  unfold cleanup. pose proof (add_job_frame now job st) as H.
  destruct (add_job now job st) as [st' [e|]]; simpl in *;
    destruct H as (_ & _ & _ & _ & -> & _); done.
Qed.

Lemma cleanup_trace now job st :
  trace (cleanup now job st).1
  = trace st ++ Put (freshness job, now, job)
      :: match (cleanup now job st).2 with
         | None => [Released]
         | Some _ => []
         end.
Proof.
  unfold cleanup. pose proof (add_job_trace now job st) as H.
  destruct (add_job now job st) as [st' [e|]]; simpl in *; rewrite H;
    [done|]. by rewrite <- app_assoc.
Qed.

(** ** [best_worker]: the three ways out of its first round *)

Lemma best_worker_stopped env st point job updated skip_time :
  running st = false ->
  best_worker conf env st point job updated skip_time = (st, BWReturn None).
Proof.
  intros Hrun. unfold best_worker.
  destruct (more_ticks env); simpl; by rewrite Hrun.
Qed.

Lemma best_worker_unbound env st point job updated skip_time :
  running st = true ->
  idle_workers (workers st) = [] ->
  best_worker conf env st point job updated skip_time
  = (emit (speed_log conf env job updated Inf) st, BWRaise UnboundLocalError).
Proof.
  intros Hrun Hidle. unfold best_worker, speed_log.
  destruct (more_ticks env); simpl; rewrite Hrun; simpl;
    unfold scan; rewrite Hidle; reflexivity.
Qed.

Lemma best_worker_picks env st point job updated skip_time i l :
  running st = true ->
  scan (workers st) point None = (Some i, l) ->
  best_worker conf env st point job updated skip_time
  = (with_workers (alter (set_speed l) i (workers st))
       (emit (speed_log conf env job updated l) st),
     BWReturn (Some i)).
Proof.
  intros Hrun Hscan. unfold best_worker, speed_log.
  destruct (more_ticks env); simpl; rewrite Hrun; simpl;
    rewrite Hscan; simpl; by destruct (workers st !! i).
Qed.

End Frame.

(** ** The scan of [best_worker] *)

Lemma idle_workers_spec (ws : list Worker) (i : nat) (w : Worker) :
  (i, w) ∈ idle_workers ws <-> ws !! i = Some w /\ busy w = false.
Proof.
  unfold idle_workers. rewrite list_elem_of_filter, elem_of_lookup_imap.
  simpl. split.
  - intros (Hb & j & y & Heq & Hj). by inversion Heq; subst.
  - intros (Hi & Hb). split; [done|]. by exists i, w.
Qed.

Lemma scan_rest_spec (point : Point) (gen : list (nat * Worker)) :
  forall i wi, exists j wj,
    scan_rest gen point i (Fin (travel_speed wi point))
    = (j, Fin (travel_speed wj point))
    /\ ((j, wj) = (i, wi) \/ (j, wj) ∈ gen)
    /\ (travel_speed wj point <= travel_speed wi point)%Q
    /\ forall k wk, (k, wk) ∈ gen ->
         (travel_speed wj point <= travel_speed wk point)%Q.
Proof.
  induction gen as [|[k wk] gen IH]; intros i wi; simpl.
  - exists i, wi. split_and!; [done|by left|apply Qle_refl|].
    intros ? ? H. by apply elem_of_nil in H.
  - destruct (Qltb (travel_speed wk point) (travel_speed wi point)) eqn:Hlt.
    + destruct (IH k wk) as (j & wj & Heq & Hin & Hle & Hall).
      exists j, wj. split_and!; [done| | |].
      * right. destruct Hin as [->|Hin]; [left|by right].
      * apply Qltb_lt in Hlt. eapply Qle_trans; [exact Hle|].
        by apply Qlt_le_weak.
      * intros k' wk' [Heq'|Hin']%elem_of_cons; [|by apply (Hall k' wk')].
        by inversion Heq'; subst.
    + destruct (IH i wi) as (j & wj & Heq & Hin & Hle & Hall).
      exists j, wj. split_and!; [done| |done|].
      * destruct Hin as [->|Hin]; [by left|by right; right].
      * intros k' wk' [Heq'|Hin']%elem_of_cons; [|by apply (Hall k' wk')].
        inversion Heq'; subst. apply Qltb_ge in Hlt.
        eapply Qle_trans; [exact Hle|exact Hlt].
Qed.

(** With an idle worker around, the scan binds [worker] to an idle worker
    no idle worker beats, and [lowest_speed] to that worker's speed. *)
Lemma scan_spec (ws : list Worker) (point : Point) (k0 : nat) (w0 : Worker) :
  ws !! k0 = Some w0 -> busy w0 = false ->
  exists i w,
    scan ws point None = (Some i, Fin (travel_speed w point))
    /\ ws !! i = Some w /\ busy w = false
    /\ forall k wk, ws !! k = Some wk -> busy wk = false ->
         (travel_speed w point <= travel_speed wk point)%Q.
Proof.
  intros Hk0 Hb0. unfold scan.
  assert (Hin0 : (k0, w0) ∈ idle_workers ws) by by apply idle_workers_spec.
  pose proof (idle_workers_spec ws) as Hspec.
  destruct (idle_workers ws) as [|[i wi] gen]; [by apply elem_of_nil in Hin0|].
  destruct (scan_rest_spec point gen i wi) as (j & wj & Heq & Hin & Hle & Hall).
  rewrite Heq. exists j, wj.
  assert (Hj : (j, wj) ∈ (i, wi) :: gen).
  { destruct Hin as [->|Hin]; [left|by right]. }
  apply Hspec in Hj as [Hj Hbj]. split_and!; [done..|].
  intros k wk Hk Hbk.
  assert (Hink : (k, wk) ∈ (i, wi) :: gen) by by apply Hspec.
  apply elem_of_cons in Hink as [Heqk|Hink]; [|by apply (Hall k wk)].
  by inversion Heqk; subst.
Qed.

(** Without one, [worker] stays unbound. *)
Lemma scan_none (ws : list Worker) (point : Point) :
  (forall k wk, ws !! k = Some wk -> busy wk = true) ->
  idle_workers ws = [].
Proof.
  intros Hall. destruct (idle_workers ws) as [|[i w] gen] eqn:Heq; [done|].
  assert (Hin : (i, w) ∈ idle_workers ws) by (rewrite Heq; left).
  apply idle_workers_spec in Hin as [Hi Hb].
  apply Hall in Hi. congruence.
Qed.

(** C7. With the system running and at least one worker idle at the scan,
    [best_worker] returns an idle worker whose travel speed to the point no
    idle worker undercuts. Afterwards the [speed] of that worker reads that
    travel speed, its other attributes and all other workers are as they
    were, and one line has been logged, with the job's external id, the
    [time_diff] and the speed limit computed from the clock reading of the
    round, and that travel speed. The limit is logged without ever being
    tested: whatever the configured limit, the job, its staleness, the
    clock and the deadline, the same worker is returned. *)
Theorem best_worker_returns_fastest_idle
    (conf : Conf) (env : Env) (st : State) (point : Point) (job : Job)
    (updated : Z) (skip_time : Q) (k0 : nat) (w0 : Worker) :
  running st = true ->
  workers st !! k0 = Some w0 -> busy w0 = false ->
  exists i w st',
    best_worker conf env st point job updated skip_time
    = (st', BWReturn (Some i))
    /\ workers st !! i = Some w /\ busy w = false
    /\ (forall k wk, workers st !! k = Some wk -> busy wk = false ->
          (travel_speed w point <= travel_speed wk point)%Q)
    /\ workers st'
       = alter (set_speed (Fin (travel_speed w point))) i (workers st)
    /\ (exists w',
          workers st' !! i = Some w'
          /\ speed w' = Fin (travel_speed w point)
          /\ worker_no w' = worker_no w /\ busy w' = busy w
          /\ travel_speed w' = travel_speed w
          /\ scan_delayed w' = scan_delayed w)
    /\ (forall k, k <> i -> workers st' !! k = workers st !! k)
    /\ trace st'
       = trace st
         ++ [speed_log conf env job updated (Fin (travel_speed w point))]
    /\ (exists time_diff speed_limit,
          speed_limit_of conf (t_time (first_tick env)) updated
          = (time_diff, speed_limit)
          /\ trace st'
             = trace st
               ++ [LogSpeedLimit (external_id job) time_diff speed_limit
                     (Fin (travel_speed w point))])
    /\ (forall conf' env' job' updated' skip_time',
          (best_worker conf' env' st point job' updated' skip_time').2
          = BWReturn (Some i)).
Proof.
  intros Hrun Hk0 Hb0.
  destruct (scan_spec (workers st) point k0 w0 Hk0 Hb0)
    as (i & w & Hscan & Hi & Hb & Hmin).
  exists i, w. eexists. split.
  { by apply best_worker_picks. }
  split_and!; [done..| | |done| |].
  - exists (set_speed (Fin (travel_speed w point)) w). simpl.
    by rewrite list_lookup_alter_eq, Hi.
  - intros k Hk. simpl. by rewrite list_lookup_alter_ne.
  - exists (speed_limit_of conf (t_time (first_tick env)) updated).1,
      (speed_limit_of conf (t_time (first_tick env)) updated).2.
    split; [by destruct (speed_limit_of _ _ _)|].
    unfold speed_log. by destruct (speed_limit_of _ _ _).
  - intros conf' env' job' updated' skip_time'.
    by rewrite (best_worker_picks conf' env' st point job' updated'
                  skip_time' i _ Hrun Hscan).
Qed.

(** The two idle workers of the spec's example, at costs 5.0 and 2.0: the
    second one is returned. *)
Lemma best_worker_returns_fastest_idle_witness :
  exists i w st',
    best_worker sample_conf (sample_env (Returns PyNone) (Returns PyNone))
      (sample_state two_idle [] true) (1.35, 103.82)%Q
      (sample_gym 1 (Some 0) (Some 0)) 0 54.5
    = (st', BWReturn (Some i))
    /\ two_idle !! i = Some w /\ busy w = false
    /\ (forall k wk, two_idle !! k = Some wk -> busy wk = false ->
          (travel_speed w (1.35, 103.82)%Q
           <= travel_speed wk (1.35, 103.82)%Q)%Q)
    /\ workers st'
       = alter (set_speed (Fin (travel_speed w (1.35, 103.82)%Q))) i two_idle
    /\ (exists w',
          workers st' !! i = Some w'
          /\ speed w' = Fin (travel_speed w (1.35, 103.82)%Q)
          /\ worker_no w' = worker_no w /\ busy w' = busy w
          /\ travel_speed w' = travel_speed w
          /\ scan_delayed w' = scan_delayed w)
    /\ (forall k, k <> i -> workers st' !! k = two_idle !! k)
    /\ trace st'
       = [speed_log sample_conf (sample_env (Returns PyNone) (Returns PyNone))
            (sample_gym 1 (Some 0) (Some 0)) 0
            (Fin (travel_speed w (1.35, 103.82)%Q))]
    /\ (exists time_diff speed_limit,
          speed_limit_of sample_conf 1000.5 0 = (time_diff, speed_limit)
          /\ trace st'
             = [LogSpeedLimit "gym" time_diff speed_limit
                  (Fin (travel_speed w (1.35, 103.82)%Q))])
    /\ (forall conf' env' job' updated' skip_time',
          (best_worker conf' env' (sample_state two_idle [] true)
             (1.35, 103.82)%Q job' updated' skip_time').2
          = BWReturn (Some i)).
Proof.
  apply (best_worker_returns_fastest_idle sample_conf
           (sample_env (Returns PyNone) (Returns PyNone))
           (sample_state two_idle [] true) (1.35, 103.82)%Q
           (sample_gym 1 (Some 0) (Some 0)) 0 54.5 0%nat
           (sample_worker 0 false 5.0));
    reflexivity.
Defined.

(** ** [try_point], branch by branch *)

Ltac read_trace :=
  unfold visit_calls, put_calls, sleeps, releases; simpl;
  repeat (rewrite ?omap_app, ?length_app; simpl);
  rewrite ?app_nil_r, <- ?app_assoc, ?Nat.add_0_r; simpl.

Section Attempt.

Context (conf : Conf) (env : Env).

Lemma finish_final st job h pending :
  final (finish env st job h pending) = (cleanup (time_requeue env) job st).1.
Proof. unfold finish. by destruct (cleanup _ _ _). Qed.

Lemma finish_job st job h pending :
  job_after (finish env st job h pending) = job.
Proof. unfold finish. by destruct (cleanup _ _ _). Qed.

Lemma finish_how st job h pending :
  how (finish env st job h pending) = h.
Proof. unfold finish. by destruct (cleanup _ _ _). Qed.

Lemma finish_raised st job h pending :
  raised (finish env st job h pending)
  = match (cleanup (time_requeue env) job st).2 with
    | Some e => Some e
    | None => pending
    end.
Proof. unfold finish. by destruct (cleanup _ _ _). Qed.

Lemma try_body_stopped st job :
  running st = false -> try_body conf env st job = (st, job, BodyReturn).
Proof.
  intros Hrun. unfold try_body. by rewrite best_worker_stopped.
Qed.

Lemma try_body_unbound st job :
  running st = true ->
  idle_workers (workers st) = [] ->
  try_body conf env st job
  = (emit (speed_log conf env job (freshness job) Inf) st, job,
     BodyRaise UnboundLocalError).
Proof.
  intros Hrun Hidle. unfold try_body. by rewrite best_worker_unbound.
Qed.

Lemma try_body_picked st job i l :
  running st = true ->
  scan (workers st) (first_point env job) None = (Some i, l) ->
  try_body conf env st job
  = let '(st', job', r) :=
      visit_block env (engaged conf env st job i l) job i (first_point env job)
        (freshness job) in
    (with_workers (alter (set_busy false) i (workers st')) st', job', r).
Proof.
  intros Hrun Hscan. unfold try_body.
  rewrite (best_worker_picks conf env st _ job _ _ i l Hrun Hscan).
  simpl. rewrite list_lookup_alter_eq. by destruct (workers st !! i).
Qed.

(** The first round of [best_worker] always decides: it returns, or it
    raises on the unbound name. *)
Lemma scan_cases (ws : list Worker) (point : Point) :
  (idle_workers ws = [] /\ scan ws point None = (None, Inf))
  \/ exists i l, scan ws point None = (Some i, l).
Proof.
  unfold scan. destruct (idle_workers ws) as [|[i w] gen]; [by left|].
  right. destruct (scan_rest _ _ _ _) as [j l]. by exists j, l.
Qed.

(** What [visit_block] leaves alone, and that it always ends. *)
Lemma visit_block_frame st job i point upd :
  let '(st', job', r) := visit_block env st job i point upd in
  job_queue st' = job_queue st
  /\ coroutine_semaphore st' = coroutine_semaphore st
  /\ put_calls (trace st') = put_calls (trace st)
  /\ releases (trace st') = releases (trace st)
  /\ sleeps (trace st') = sleeps (trace st)
  /\ r <> BodyPending.
Proof.
  unfold visit_block.
  destruct (visit1 env) as [v1|e1]; [|by read_trace].
  destruct (py_eq_int v1 (-1)) eqn:E1.
  - destruct (visit2 env) as [v2|e2]; [|by read_trace].
    destruct (truthy v2), (py_eq_int v2 (-1)); by read_trace.
  - destruct (truthy v1); rewrite ?E1; by read_trace.
Qed.

Lemma try_body_frame st job :
  let '(st', job', r) := try_body conf env st job in
  job_queue st' = job_queue st
  /\ coroutine_semaphore st' = coroutine_semaphore st
  /\ put_calls (trace st') = put_calls (trace st)
  /\ releases (trace st') = releases (trace st)
  /\ sleeps (trace st') = sleeps (trace st)
  /\ r <> BodyPending.
Proof.
  destruct (running st) eqn:Hrun; [|by rewrite try_body_stopped].
  destruct (scan_cases (workers st) (first_point env job))
    as [[Hidle _]|(i & l & Hscan)].
  - rewrite try_body_unbound by done. unfold speed_log.
    destruct (speed_limit_of _ _ _). by read_trace.
  - rewrite (try_body_picked st job i l Hrun Hscan).
    pose proof (visit_block_frame (engaged conf env st job i l) job i
                  (first_point env job) (freshness job)) as H.
    destruct (visit_block _ _ _ _ _ _) as [[st' job'] r]. simpl.
    destruct H as (-> & -> & -> & -> & -> & ?).
    unfold engaged, speed_log. destruct (speed_limit_of _ _ _).
    by read_trace.
Qed.

End Attempt.

(** ** What one attempt does *)

Lemma siftup_loop_perm (fuel : nat) :
  forall heap startpos pos,
    (siftup_loop fuel heap startpos pos).1 ≡ₚ heap.
Proof.
  induction fuel as [|fuel IH]; intros heap startpos pos; simpl;
    [apply siftdown_loop_perm|].
  repeat case_match; simplify_eq; simpl; try done;
    try apply siftdown_loop_perm; rewrite IH; apply swap_perm.
Qed.

Lemma heappop_perm (heap heap' : list Entry) (item : Entry) :
  heappop heap = Some (heap', inl item) -> heap ≡ₚ item :: heap'.
Proof.
  unfold heappop. destruct (last heap) as [lastelt|] eqn:Hlast; [|done].
  apply last_Some in Hlast as [front ->]. rewrite removelast_last.
  destruct front as [|returnitem rest]; simpl.
  - intros [= <- <-]. done.
  - pose proof (siftup_loop_perm (length (lastelt :: rest)) (lastelt :: rest)
                  0 0) as Hperm.
    unfold siftup. simpl length in *.
    destruct (siftup_loop _ _ _ _) as [heap2 [e|]]; [done|].
    intros [= <- <-]. simpl in Hperm. rewrite Hperm.
    by rewrite <- Permutation_cons_append.
Qed.

Section AttemptClaims.

Context (conf : Conf) (env : Env).

(** What every attempt does at its end: the job is handed to [put_nowait]
    once, and nothing else of the queue changes. *)
Lemma try_point_requeue st job :
  let a := try_point conf env st job in
  how a <> Suspended
  /\ put_calls (trace (final a))
     = put_calls (trace st)
       ++ [(freshness (job_after a), time_requeue env, job_after a)]
  /\ job_queue (final a)
     ≡ₚ job_queue st
        ++ [(freshness (job_after a), time_requeue env, job_after a)].
Proof.
  unfold try_point.
  pose proof (try_body_frame conf env st job) as H.
  destruct (try_body conf env st job) as [[st' job'] r].
  destruct H as (Hq & _ & Hput & _ & _ & Hr).
  assert (Hfin : forall st'' h pending,
    job_queue st'' = job_queue st ->
    put_calls (trace st'') = put_calls (trace st) ->
    h <> Suspended ->
    let a := finish env st'' job' h pending in
    how a <> Suspended
    /\ put_calls (trace (final a))
       = put_calls (trace st)
         ++ [(freshness (job_after a), time_requeue env, job_after a)]
    /\ job_queue (final a)
       ≡ₚ job_queue st
          ++ [(freshness (job_after a), time_requeue env, job_after a)]).
  { intros st'' h pending Hq'' Hput'' Hh. cbv zeta.
    rewrite finish_how, finish_job, finish_final, cleanup_queue,
      cleanup_trace, Hq''. split_and!; [done| |apply heappush_perm].
    unfold put_calls in *. rewrite omap_app, Hput''. simpl.
    by destruct ((cleanup _ _ _).2). }
  destruct r as [| |e|]; [by apply Hfin..| |done].
  destruct (is_cancelled e); [by apply Hfin|].
  destruct (is_visit_error e); apply Hfin; simpl; try done;
    unfold put_calls in *; by rewrite omap_app, Hput, app_nil_r.
Qed.

End AttemptClaims.



(** C10. Called while [overseer.running] is false, [best_worker] returns
    [None] at once, for any point and any deadline, leaving the state (and
    its trace: no scan is logged, no sleep taken) as it was; [try_point]
    then ends as "no worker": no counter, no worker and no field of the job
    changes, and the job is put back by the cleanup. *)
Theorem stopped_system_requeues_untouched
    (conf : Conf) (env : Env) (st : State) (job : Job) :
  running st = false ->
  (forall point updated skip_time,
     best_worker conf env st point job updated skip_time
     = (st, BWReturn None))
  /\ let a := try_point conf env st job in
     let item := (freshness job, time_requeue env, job) in
     how a = NoWorker /\ job_after a = job
     /\ skipped (final a) = skipped st /\ visits (final a) = visits st
     /\ hash_burn (final a) = hash_burn st
     /\ workers (final a) = workers st
     /\ job_queue (final a) ≡ₚ job_queue st ++ [item]
     /\ trace (final a)
        = trace st ++ Put item :: match raised a with
                                  | None => [Released]
                                  | Some _ => []
                                  end.
Proof.
  intros Hrun. split.
  { intros. by apply best_worker_stopped. }
  cbv zeta. unfold try_point. rewrite try_body_stopped by done.
  rewrite finish_how, finish_job, finish_final, finish_raised.
  destruct (cleanup_frame (time_requeue env) job st)
    as (Hw & Hs & Hv & Hh & _).
  split_and!; try done.
  - rewrite cleanup_queue. apply heappush_perm.
  - rewrite cleanup_trace. by destruct ((cleanup _ _ _).2).
Qed.

Lemma stopped_system_requeues_untouched_witness :
  let conf := sample_conf in
  let env := sample_env (Returns (PyInt 1)) (Returns (PyInt 1)) in
  let st := sample_state two_idle [] false in
  let job := sample_gym 7 (Some 900) (Some 850) in
  (forall point updated skip_time,
     best_worker conf env st point job updated skip_time
     = (st, BWReturn None))
  /\ let a := try_point conf env st job in
     let item := (freshness job, time_requeue env, job) in
     how a = NoWorker /\ job_after a = job
     /\ skipped (final a) = skipped st /\ visits (final a) = visits st
     /\ hash_burn (final a) = hash_burn st
     /\ workers (final a) = workers st
     /\ job_queue (final a) ≡ₚ job_queue st ++ [item]
     /\ trace (final a)
        = trace st ++ Put item :: match raised a with
                                  | None => [Released]
                                  | Some _ => []
                                  end.
Proof.
  apply (stopped_system_requeues_untouched sample_conf
           (sample_env (Returns (PyInt 1)) (Returns (PyInt 1)))
           (sample_state two_idle [] false)
           (sample_gym 7 (Some 900) (Some 850))).
  reflexivity.
Defined.

(** C1, at a failing input. The system runs, its only worker is held by
    another attempt and the deadline (54.5 on the monotonic clock, read at
    50) has not passed. [best_worker] neither sleeps nor returns [None]: its
    test [if worker:] finds the name unbound and raises. [try_point] counts
    the job as skipped. *)
Theorem best_worker_without_idle_worker_raises :
  let env := sample_env (Returns (PyInt 1)) (Returns (PyInt 1)) in
  let st := sample_state [sample_worker 0 true 5.0] [] true in
  let job := sample_gym 7 (Some 900) (Some 850) in
  let a := try_point sample_conf env st job in
  Qltb (deadline sample_conf env) (t_mono (first_tick env)) = false
  /\ (best_worker sample_conf env st (first_point env job) job
        (freshness job) (deadline sample_conf env)).2
     = BWRaise UnboundLocalError
  /\ sleeps (trace (final a)) = []
  /\ how a = Failed UnboundLocalError
  /\ updated (job_after a) = updated job
  /\ skipped st = 0 /\ skipped (final a) = 1.
Proof. vm_compute. done. Qed.

(** The same for every state: with the system running and no worker idle,
    the first round of [best_worker] raises, and the attempt is counted as
    skipped without a sleep. *)
Lemma try_point_without_idle_worker
    (conf : Conf) (env : Env) (st : State) (job : Job) :
  running st = true ->
  (forall k wk, workers st !! k = Some wk -> busy wk = true) ->
  let a := try_point conf env st job in
  (forall point updated skip_time,
     (best_worker conf env st point job updated skip_time).2
     = BWRaise UnboundLocalError)
  /\ how a = Failed UnboundLocalError
  /\ skipped (final a) = skipped st + 1
  /\ sleeps (trace (final a)) = sleeps (trace st).
Proof.
  intros Hrun Hbusy. apply (scan_none _ (0, 0)%Q) in Hbusy. cbv zeta. split.
  { intros. by rewrite best_worker_unbound. }
  unfold try_point. rewrite try_body_unbound by done.
  cbn [is_cancelled is_visit_error].
  rewrite finish_how, finish_final, cleanup_skipped.
  split_and!; [done..|].
  rewrite cleanup_trace. unfold speed_log. destruct (speed_limit_of _ _ _).
  destruct ((cleanup _ _ _).2); by read_trace.
Qed.

(** C5. When the first visit returns [-1], [try_point] adds one to
    [hash_burn], jitters the point it has just visited by 0.00001 (the first
    jitter was 0.00003) and visits once more: the trace shows these two
    visits by the chosen worker and no third. When the second visit returns
    [-1] again, the attempt ends as [GymNotFoundError], is counted in
    [skipped], and leaves [visits] and the job as they were. *)
Theorem transient_block_retries_once
    (conf : Conf) (env : Env) (st : State) (job : Job)
    (k0 : nat) (w0 : Worker) (v1 : pyval) :
  running st = true ->
  workers st !! k0 = Some w0 -> busy w0 = false ->
  visit1 env = Returns v1 -> py_eq_int v1 (-1) = true ->
  let a := try_point conf env st job in
  let p1 := randomize_point env (lat job, lon job) 0.00003%Q in
  let p2 := randomize_point env p1 0.00001%Q in
  exists i,
    (best_worker conf env st p1 job (freshness job) (deadline conf env)).2
    = BWReturn (Some i)
    /\ hash_burn (final a) = hash_burn st + 1
    /\ visit_calls (trace (final a))
       = visit_calls (trace st) ++ [(i, p1); (i, p2)]
    /\ (forall v2,
          visit2 env = Returns v2 -> py_eq_int v2 (-1) = true ->
          how a = Skipped GymNotFoundError
          /\ skipped (final a) = skipped st + 1
          /\ visits (final a) = visits st
          /\ job_after a = job).
Proof.
  intros Hrun Hk0 Hb0 Hv1 E1. cbv zeta.
  destruct (scan_spec (workers st) (first_point env job) k0 w0 Hk0 Hb0)
    as (i & w & Hscan & _).
  exists i. split.
  { by rewrite (best_worker_picks conf env st _ job _ _ i _ Hrun Hscan). }
  unfold try_point. rewrite (try_body_picked conf env st job i _ Hrun Hscan).
  unfold visit_block. rewrite Hv1, E1.
  assert (Hpos : forall v2, py_eq_int v2 (-1) = true -> truthy v2 = true).
  { intros [| [] | n |]; simpl; try done. intros ->%Z.eqb_eq. done. }
  unfold engaged, speed_log. destruct (speed_limit_of _ _ _) as [td sl].
  destruct (visit2 env) as [v2|e2].
  - destruct (py_eq_int v2 (-1)) eqn:E2.
    + rewrite (Hpos v2 E2). cbn [is_cancelled is_visit_error].
      rewrite finish_how, finish_job, finish_final, cleanup_hash_burn,
        cleanup_skipped, cleanup_visits, cleanup_trace.
      split_and!; try done. destruct ((cleanup _ _ _).2); (read_trace; reflexivity).
    + destruct (truthy v2); cbn [is_cancelled is_visit_error];
        rewrite finish_final, cleanup_hash_burn, cleanup_trace;
        (split_and!; [done| |intros ? [= <-]; congruence]);
        destruct ((cleanup _ _ _).2); read_trace; reflexivity.
  - destruct (is_cancelled e2); [|destruct (is_visit_error e2)];
      rewrite finish_final, cleanup_hash_burn, cleanup_trace;
      (split_and!; [done| |done]);
      destruct ((cleanup _ _ _).2); read_trace; reflexivity.
Qed.

Lemma transient_block_retries_once_witness :
  let conf := sample_conf in
  let env := sample_env (Returns (PyInt (-1))) (Returns (PyInt (-1))) in
  let st := sample_state two_idle [] true in
  let job := sample_gym 7 (Some 900) (Some 850) in
  let a := try_point conf env st job in
  let p1 := randomize_point env (lat job, lon job) 0.00003%Q in
  let p2 := randomize_point env p1 0.00001%Q in
  exists i,
    (best_worker conf env st p1 job (freshness job) (deadline conf env)).2
    = BWReturn (Some i)
    /\ hash_burn (final a) = hash_burn st + 1
    /\ visit_calls (trace (final a))
       = visit_calls (trace st) ++ [(i, p1); (i, p2)]
    /\ (forall v2,
          visit2 env = Returns v2 -> py_eq_int v2 (-1) = true ->
          how a = Skipped GymNotFoundError
          /\ skipped (final a) = skipped st + 1
          /\ visits (final a) = visits st
          /\ job_after a = job).
Proof.
  apply (transient_block_retries_once sample_conf
           (sample_env (Returns (PyInt (-1))) (Returns (PyInt (-1))))
           (sample_state two_idle [] true)
           (sample_gym 7 (Some 900) (Some 850)) 0%nat
           (sample_worker 0 false 5.0) (PyInt (-1)));
    reflexivity.
Defined.

(** C6. When the visit that settles the attempt (the first one, or the
    retry after a first [-1]) returns a truthy value other than [-1],
    [try_point] reads [now = int(time())], sets the job's [updated] to
    [now], sets the chosen worker's [scan_delayed] to [now] minus the
    freshness read when the attempt began (the job's former [updated] when
    it had one), and adds one to [visits]; [skipped] is left alone. *)
Theorem successful_visit_updates
    (conf : Conf) (env : Env) (st : State) (job : Job)
    (k0 : nat) (w0 : Worker) (v : pyval) :
  running st = true ->
  workers st !! k0 = Some w0 -> busy w0 = false ->
  settled_visit env = Returns v ->
  truthy v = true -> py_eq_int v (-1) = false ->
  let a := try_point conf env st job in
  let now := py_int (time_done env) in
  exists i w,
    (best_worker conf env st (first_point env job) job (freshness job)
       (deadline conf env)).2 = BWReturn (Some i)
    /\ workers st !! i = Some w
    /\ how a = Visited
    /\ job_after a = set_updated now job
    /\ updated (job_after a) = Some now
    /\ scan_delayed <$> workers (final a) !! i = Some (now - freshness job)
    /\ (forall u, updated job = Some u ->
          scan_delayed <$> workers (final a) !! i = Some (now - u))
    /\ visits (final a) = visits st + 1
    /\ skipped (final a) = skipped st.
Proof.
  intros Hrun Hk0 Hb0 Hv Ht Hne. cbv zeta.
  destruct (scan_spec (workers st) (first_point env job) k0 w0 Hk0 Hb0)
    as (i & w & Hscan & Hi & _).
  exists i, w. split.
  { by rewrite (best_worker_picks conf env st _ job _ _ i _ Hrun Hscan). }
  split; [done|].
  assert (Hfresh : forall u, updated job = Some u -> freshness job = u).
  { intros u Hu. unfold freshness. by rewrite Hu. }
  unfold try_point. rewrite (try_body_picked conf env st job i _ Hrun Hscan).
  unfold visit_block, settled_visit in *.
  destruct (visit1 env) as [v1|e1]; [|done].
  destruct (py_eq_int v1 (-1)) eqn:E1.
  - rewrite Hv, Ht, Hne.
    rewrite finish_how, finish_job, finish_final, cleanup_workers,
      cleanup_visits, cleanup_skipped.
    simpl. rewrite !list_lookup_alter_eq, Hi. simpl.
    split_and!; try done. intros u Hu. by rewrite (Hfresh u Hu).
  - injection Hv as ->. rewrite Ht, Hne.
    rewrite finish_how, finish_job, finish_final, cleanup_workers,
      cleanup_visits, cleanup_skipped.
    simpl. rewrite !list_lookup_alter_eq, Hi. simpl.
    split_and!; try done. intros u Hu. by rewrite (Hfresh u Hu).
Qed.

Lemma successful_visit_updates_witness :
  let conf := sample_conf in
  let env := sample_env (Returns (PyInt (-1))) (Returns (PyInt 3)) in
  let st := sample_state two_idle [] true in
  let job := sample_gym 7 (Some 900) (Some 850) in
  let a := try_point conf env st job in
  let now := py_int (time_done env) in
  exists i w,
    (best_worker conf env st (first_point env job) job (freshness job)
       (deadline conf env)).2 = BWReturn (Some i)
    /\ workers st !! i = Some w
    /\ how a = Visited
    /\ job_after a = set_updated now job
    /\ updated (job_after a) = Some now
    /\ scan_delayed <$> workers (final a) !! i = Some (now - freshness job)
    /\ (forall u, updated job = Some u ->
          scan_delayed <$> workers (final a) !! i = Some (now - u))
    /\ visits (final a) = visits st + 1
    /\ skipped (final a) = skipped st.
Proof.
  apply (successful_visit_updates sample_conf
           (sample_env (Returns (PyInt (-1))) (Returns (PyInt 3)))
           (sample_state two_idle [] true)
           (sample_gym 7 (Some 900) (Some 850)) 0%nat
           (sample_worker 0 false 5.0) (PyInt 3));
    reflexivity.
Defined.

(** ** The heap behind the queue *)

Lemma job_eqb_refl (g : Job) : job_eqb g g = true.
Proof.
  unfold job_eqb.
  rewrite Z.eqb_refl, !String.eqb_refl, !Qeq_bool_refl. simpl.
  by destruct (last_modified g), (updated g); simpl; rewrite ?Z.eqb_refl.
Qed.

Lemma tuple_lt_key (a b : Entry) (r : bool) :
  tuple_lt a b = Some r -> r = key_lt a b.
Proof.
  destruct a as [[pa ta] ga], b as [[pb tb] gb]. unfold tuple_lt, key_lt.
  simpl. destruct (pa =? pb) eqn:Hp; simpl.
  - apply Z.eqb_eq in Hp as ->. rewrite Z.ltb_irrefl. simpl.
    destruct (Qeq_bool ta tb) eqn:Hq; simpl; [|congruence].
    destruct (job_eqb ga gb); [|done]. intros [= <-].
    symmetry. apply Qltb_ge. apply Qeq_bool_eq in Hq. rewrite Hq.
    apply Qle_refl.
  - intros [= <-]. by rewrite orb_false_r.
Qed.

Lemma key_lt_true (a b : Entry) :
  key_lt a b = true
  <-> a.1.1 < b.1.1 \/ (a.1.1 = b.1.1 /\ (a.1.2 < b.1.2)%Q).
Proof.
  unfold key_lt.
  rewrite orb_true_iff, andb_true_iff, Z.ltb_lt, Z.eqb_eq, Qltb_lt. done.
Qed.

Lemma key_lt_false (a b : Entry) :
  key_lt a b = false
  <-> b.1.1 < a.1.1 \/ (a.1.1 = b.1.1 /\ (b.1.2 <= a.1.2)%Q).
Proof.
  unfold key_lt.
  rewrite orb_false_iff, andb_false_iff, Z.ltb_ge, Z.eqb_neq, Qltb_ge.
  split.
  - intros [H1 [H2|H2]]; [lia|]. destruct (decide (a.1.1 = b.1.1)); [by right|lia].
  - intros [H|[H1 H2]]; [split; [lia|left; lia]|split; [lia|by right]].
Qed.

Lemma key_lt_irrefl (a : Entry) : key_lt a a = false.
Proof. apply key_lt_false. right. split; [done|apply Qle_refl]. Qed.

Lemma key_lt_asym (a b : Entry) : key_lt a b = true -> key_lt b a = false.
Proof.
  rewrite key_lt_true, key_lt_false. intros [H|[H1 H2]]; [by left|].
  right. split; [done|]. by apply Qlt_le_weak.
Qed.

(** "Not smaller" is transitive. *)
Lemma key_ge_trans (a b c : Entry) :
  key_lt a b = false -> key_lt b c = false -> key_lt a c = false.
Proof.
  rewrite !key_lt_false.
  intros [H1|[H1 H1']] [H2|[H2 H2']]; try (left; lia).
  right. split; [lia|]. by eapply Qle_trans.
Qed.

Lemma key_gt_ge_trans (a b c : Entry) :
  key_lt a b = false -> key_lt c b = true -> key_lt a c = false.
Proof.
  intros H1 H2. apply key_lt_asym in H2. by eapply key_ge_trans.
Qed.

Lemma swap_lookup (l : list Entry) (i j k : nat) (x y : Entry) :
  l !! i = Some x -> l !! j = Some y ->
  swap l i j !! k
  = if decide (k = i) then Some y
    else if decide (k = j) then Some x else l !! k.
Proof.
  intros Hi Hj. unfold swap. rewrite Hi, Hj.
  assert (i < length l)%nat by by eapply lookup_lt_Some.
  assert (j < length l)%nat by by eapply lookup_lt_Some.
  destruct (decide (k = i)) as [->|Hki].
  - by rewrite list_lookup_insert_eq by by rewrite length_insert.
  - rewrite list_lookup_insert_ne by done.
    destruct (decide (k = j)) as [->|Hkj].
    + by rewrite list_lookup_insert_eq.
    + by rewrite list_lookup_insert_ne.
Qed.

Lemma comparable_perm (l l' : list Entry) :
  l' ≡ₚ l -> comparable l -> comparable l'.
Proof.
  intros Hperm Hcmp a b Ha Hb. apply Hcmp; by rewrite <- Hperm.
Qed.

Lemma sift_inv_swap (l : list Entry) (pos : nat) (x p : Entry) :
  (0 < pos)%nat ->
  l !! pos = Some x -> l !! ((pos - 1) / 2)%nat = Some p ->
  key_lt x p = true ->
  sift_inv l pos ->
  sift_inv (swap l ((pos - 1) / 2) pos) ((pos - 1) / 2).
Proof.
  intros Hpos Hx Hp Hlt [Ha Hb].
  set (pp := ((pos - 1) / 2)%nat) in *.
  assert (pp < pos)%nat by (subst pp; lia).
  split.
  - intros i x' p' Hi Hne.
    rewrite !(swap_lookup l pp pos _ p x Hp Hx).
    repeat case_decide; try lia; intros Hx' Hp'; simplify_eq.
    + by apply key_lt_asym.
    + eapply key_gt_ge_trans; [|exact Hlt].
      apply (Ha i); [done..|congruence].
    + apply (Hb i); [done..|congruence].
    + by apply (Ha i).
  - intros c x' g Hpp Hc Hpar.
    rewrite !(swap_lookup l pp pos _ p x Hp Hx).
    repeat case_decide; try lia; intros Hx' Hg; simplify_eq.
    + apply (Ha ((pos - 1) / 2)%nat); [lia|lia|done|done].
    + apply (key_ge_trans _ p).
      * apply (Ha c); [done..|congruence].
      * apply (Ha ((pos - 1) / 2)%nat); [lia|lia|done|done].
Qed.

Lemma siftdown_loop_ordered (fuel : nat) :
  forall l pos,
    (pos <= fuel)%nat -> comparable l -> sift_inv l pos ->
    (siftdown_loop fuel l 0 pos).2 = None
    /\ heap_ordered (siftdown_loop fuel l 0 pos).1.
Proof.
  induction fuel as [|fuel IH]; intros l pos Hfuel Hcmp Hinv.
  { simpl. split; [done|]. destruct Hinv as [Ha _].
    intros i x p Hi. apply Ha; lia. }
  assert (Hrest : forall i y q, (0 < i)%nat -> i <> pos ->
            l !! i = Some y -> l !! ((i - 1) / 2)%nat = Some q ->
            key_lt y q = false) by apply Hinv.
  simpl. rewrite Nat.div2_div.
  destruct (0 <? pos)%nat eqn:Hpos.
  2:{ apply Nat.ltb_ge in Hpos. split; [done|].
      intros i x p Hi. apply Hrest; lia. }
  apply Nat.ltb_lt in Hpos.
  destruct (l !! pos) as [x|] eqn:Hx.
  2:{ split; [done|]. simpl. intros i y q Hi Hy Hq.
      destruct (decide (i = pos)) as [->|Hne]; [congruence|].
      by apply (Hrest i). }
  destruct (l !! ((pos - 1) / 2)%nat) as [p|] eqn:Hp.
  2:{ split; [done|]. simpl. intros i y q Hi Hy Hq.
      destruct (decide (i = pos)) as [->|Hne]; [congruence|].
      by apply (Hrest i). }
  destruct (tuple_lt x p) as [[]|] eqn:Hlt; simpl.
  - apply IH; [lia| |].
    + eapply comparable_perm; [apply swap_perm|done].
    + apply (sift_inv_swap l pos x p); try done.
      symmetry. by apply tuple_lt_key.
  - split; [done|]. simpl. intros i y q Hi Hy Hq.
    destruct (decide (i = pos)) as [->|Hne].
    + simplify_eq. symmetry. by apply tuple_lt_key.
    + by apply (Hrest i).
  - exfalso. assert (is_Some (tuple_lt x p)) as [? ?]; [|congruence].
    apply Hcmp; by eapply list_elem_of_lookup_2.
Qed.

(** In an ordered heap no item is smaller than the first one. *)
Lemma root_least (l : list Entry) (r : Entry) :
  heap_ordered l -> l !! 0%nat = Some r ->
  forall i x, l !! i = Some x -> key_lt x r = false.
Proof.
  intros Hord Hr i. induction i as [i IH] using lt_wf_ind. intros x Hx.
  destruct (decide (i = 0%nat)) as [->|Hi].
  { simplify_eq. apply key_lt_irrefl. }
  assert (Hlt : ((i - 1) / 2 < i)%nat) by lia.
  destruct (l !! ((i - 1) / 2)%nat) as [p|] eqn:Hp.
  - apply (key_ge_trans _ p); [|by apply (IH _ Hlt)].
    apply (Hord i); [lia|done..].
  - apply lookup_ge_None in Hp. apply lookup_lt_Some in Hx. lia.
Qed.

Lemma heappush_ordered (l : list Entry) (e : Entry) :
  heap_ordered l -> comparable (l ++ [e]) ->
  (heappush l e).2 = None /\ heap_ordered (heappush l e).1.
Proof.
  intros Hord Hcmp. apply siftdown_loop_ordered; [done..|]. split.
  - intros i x p Hi Hne Hx Hp.
    assert (i < length l)%nat.
    { apply lookup_lt_Some in Hx. rewrite length_app in Hx. simpl in Hx. lia. }
    rewrite lookup_app_l in Hx by done.
    rewrite lookup_app_l in Hp by lia. by apply (Hord i).
  - intros c x g _ Hc Hpar Hx _.
    apply lookup_lt_Some in Hx. rewrite length_app in Hx. simpl in Hx. lia.
Qed.

Lemma bubble_inv_swap (l : list Entry) (pos c : nat) (x y : Entry) :
  (0 < c)%nat -> ((c - 1) / 2)%nat = pos ->
  l !! pos = Some x -> l !! c = Some y ->
  (forall s z, (0 < s)%nat -> ((s - 1) / 2)%nat = pos -> s <> c ->
     l !! s = Some z -> key_lt z y = false) ->
  bubble_inv l pos ->
  bubble_inv (swap l c pos) c.
Proof.
  intros Hc Hpar Hx Hy Hsmall [Ha Hb].
  assert (pos < c)%nat by lia.
  split.
  - intros i x' p' Hi Hne Hpne.
    rewrite !(swap_lookup l c pos _ y x Hy Hx).
    repeat case_decide; try lia; intros Hx' Hp'; simplify_eq.
    + apply (Hb c); [lia|done|done|done|done].
    + by apply (Hsmall i).
    + by apply (Ha i).
  - intros d x' g _ Hd Hdpar.
    rewrite !(swap_lookup l c pos _ y x Hy Hx).
    repeat case_decide; try lia; intros Hx' Hg; simplify_eq.
    apply (Ha d); [done|lia|lia|done|done].
Qed.

Lemma bubble_inv_leaf (l : list Entry) (pos : nat) :
  (length l <= 2 * pos + 1)%nat -> bubble_inv l pos -> sift_inv l pos.
Proof.
  intros Hleaf [Ha Hb]. split; [|done].
  intros i x p Hi Hne Hx Hp. apply (Ha i); try done.
  apply lookup_lt_Some in Hx. lia.
Qed.

Lemma siftup_loop_ordered (fuel : nat) :
  forall l pos,
    (length l - pos <= fuel)%nat -> (pos < length l)%nat ->
    comparable l -> bubble_inv l pos ->
    (siftup_loop fuel l 0 pos).2 = None
    /\ heap_ordered (siftup_loop fuel l 0 pos).1.
Proof.
  induction fuel as [|fuel IH]; intros l pos Hfuel Hpos Hcmp Hinv; [lia|].
  simpl. rewrite Nat.div2_div.
  destruct (pos <? length l / 2)%nat eqn:Hlimit.
  2:{ apply Nat.ltb_ge in Hlimit. apply siftdown_loop_ordered; [done..|].
      apply bubble_inv_leaf; [lia|done]. }
  apply Nat.ltb_lt in Hlimit.
  destruct (lookup_lt_is_Some_2 l pos Hpos) as [x Hx].
  assert (Hc : (2 * pos + 1 < length l)%nat) by lia.
  destruct (lookup_lt_is_Some_2 l _ Hc) as [a Ha].
  assert (Hgo : forall c y,
    (c = 2 * pos + 1 \/ c = 2 * pos + 2)%nat -> l !! c = Some y ->
    (forall s z, (0 < s)%nat -> ((s - 1) / 2)%nat = pos -> s <> c ->
       l !! s = Some z -> key_lt z y = false) ->
    (siftup_loop fuel (swap l c pos) 0 c).2 = None
    /\ heap_ordered (siftup_loop fuel (swap l c pos) 0 c).1).
  { intros c y Hcc Hy Hsmall.
    assert (c < length l)%nat by by eapply lookup_lt_Some.
    assert (Hlen : length (swap l c pos) = length l)
      by by rewrite (swap_perm l c pos).
    apply IH; rewrite ?Hlen; [lia|lia| |].
    - eapply comparable_perm; [apply swap_perm|done].
    - apply (bubble_inv_swap l pos c x y); try done; lia. }
  replace (pos + (pos + 0) + 1)%nat with (2 * pos + 1)%nat by lia.
  destruct (2 * pos + 1 + 1 <? length l)%nat eqn:Hright.
  - apply Nat.ltb_lt in Hright.
    destruct (lookup_lt_is_Some_2 l _ Hright) as [b Hb].
    rewrite Ha, Hb.
    destruct (tuple_lt a b) as [[]|] eqn:Hlt.
    + apply (Hgo _ a); [lia|done|].
      intros s z Hs Hspar Hsne Hz.
      assert (s = 2 * pos + 1 + 1)%nat as -> by lia. simplify_eq.
      apply key_lt_asym. symmetry. by apply tuple_lt_key.
    + apply (Hgo _ b); [lia|done|].
      intros s z Hs Hspar Hsne Hz.
      assert (s = 2 * pos + 1)%nat as -> by lia. simplify_eq.
      symmetry. by apply tuple_lt_key.
    + exfalso. assert (is_Some (tuple_lt a b)) as [? ?]; [|congruence].
      apply Hcmp; by eapply list_elem_of_lookup_2.
  - apply Nat.ltb_ge in Hright.
    apply (Hgo _ a); [lia|done|].
    intros s z Hs Hspar Hsne Hz. apply lookup_lt_Some in Hz. lia.
Qed.

Lemma queue_ok_nil : queue_ok [].
Proof.
  split.
  - intros i x p _ Hx. by rewrite lookup_nil in Hx.
  - intros a b Ha. by apply elem_of_nil in Ha.
Qed.

Lemma put_nowait_ok (q : list Entry) (item : Entry) :
  queue_ok q -> comparable (q ++ [item]) ->
  (put_nowait q item).2 = None
  /\ queue_ok (put_nowait q item).1
  /\ (put_nowait q item).1 ≡ₚ q ++ [item].
Proof.
  intros [Hord _] Hcmp. unfold put_nowait.
  destruct (heappush_ordered q item Hord Hcmp) as [Hnone Hord'].
  split_and!; [done|split; [done|]|apply heappush_perm].
  eapply comparable_perm; [apply heappush_perm|done].
Qed.

Lemma get_ok (q : list Entry) :
  queue_ok q -> q <> [] ->
  exists r q',
    get q = Some (q', inl r)
    /\ q !! 0%nat = Some r
    /\ queue_ok q'
    /\ q ≡ₚ r :: q'
    /\ forall x, x ∈ q -> key_lt x r = false.
Proof.
  intros [Hord Hcmp] Hne.
  assert (exists r, q !! 0%nat = Some r) as [r Hr].
  { destruct q; [done|]. by eexists. }
  assert (Hleast : forall x, x ∈ q -> key_lt x r = false).
  { intros x [i Hx]%list_elem_of_lookup_1. by apply (root_least q r Hord Hr i). }
  assert (Hpop : exists q', get q = Some (q', inl r) /\ heap_ordered q').
  { unfold get, heappop.
    destruct (last q) as [lastelt|] eqn:Hlast;
      [|by apply last_None in Hlast].
    apply last_Some in Hlast as [front ->]. rewrite removelast_last.
    destruct front as [|returnitem rest].
    - simpl in Hr. simplify_eq. exists []. split; [done|].
      intros i x p _ Hx. by rewrite lookup_nil in Hx.
    - simpl in Hr. simplify_eq. cbn [insert list_insert].
      destruct (siftup_loop_ordered (length (lastelt :: rest))
                  (lastelt :: rest) 0) as [Hnone Hord'].
      + lia.
      + simpl. lia.
      + intros a b Ha Hb. apply Hcmp.
        * apply elem_of_app.
          apply elem_of_cons in Ha as [->|Ha]; [right; left|left; by right].
        * apply elem_of_app.
          apply elem_of_cons in Hb as [->|Hb]; [right; left|left; by right].
      + split; [|intros; lia].
        intros i x p Hi Hi0 Hp0 Hx Hp.
        assert (i < length (r :: rest))%nat.
        { apply lookup_lt_Some in Hx. simpl in *. lia. }
        assert (((i - 1) / 2) < length (r :: rest))%nat by lia.
        apply (Hord i x p Hi).
        * rewrite lookup_app_l by done. destruct i; [lia|done].
        * rewrite lookup_app_l by done.
          destruct ((i - 1) / 2)%nat; [lia|done].
      + unfold siftup.
        destruct (siftup_loop _ _ _ _) as [heap2 [e|]]; [done|].
        by exists heap2. }
  destruct Hpop as (q' & Hget & Hord').
  pose proof (heappop_perm q q' r Hget) as Hperm.
  exists r, q'. split_and!; try done. split; [done|].
  intros a b Ha Hb. apply Hcmp; rewrite Hperm; by right.
Qed.

(** ** Dequeue order *)

Lemma clock_advances_head (jobs : list (Job * Q)) :
  forall gym now, clock_advances ((gym, now) :: jobs) = true ->
    forall k b, jobs !! k = Some b -> (now < b.2)%Q.
Proof.
  induction jobs as [|[gym' next] jobs IH]; intros gym now H k b Hk.
  { by rewrite lookup_nil in Hk. }
  cbn [clock_advances] in H. apply andb_true_iff in H as [Hlt Htail].
  apply Qltb_lt in Hlt. destruct k as [|k]; simpl in Hk.
  - by simplify_eq.
  - eapply Qlt_trans; [exact Hlt|]. by apply (IH gym' next Htail k).
Qed.

Lemma clock_advances_lt (jobs : list (Job * Q)) :
  clock_advances jobs = true ->
  forall i j a b, (i < j)%nat ->
    jobs !! i = Some a -> jobs !! j = Some b -> (a.2 < b.2)%Q.
Proof.
  induction jobs as [|[gym now] jobs IH]; intros H i j a b Hlt Hi Hj.
  { by rewrite lookup_nil in Hi. }
  destruct j as [|j]; [lia|]. simpl in Hj. destruct i as [|i]; simpl in Hi.
  - simplify_eq. by apply (clock_advances_head jobs gym now H j).
  - apply (IH) with (i := i) (j := j); [|lia|done..].
    cbn [clock_advances] in H. destruct jobs as [|[gym' next] jobs']; [done|].
    by apply andb_true_iff in H as [_ H].
Qed.

Lemma add_jobs_ok (jobs : list (Job * Q)) :
  forall st,
    queue_ok (job_queue st) ->
    comparable (job_queue st ++ (item_of <$> jobs)) ->
    (add_jobs jobs st).2 = None
    /\ queue_ok (job_queue (add_jobs jobs st).1)
    /\ job_queue (add_jobs jobs st).1 ≡ₚ job_queue st ++ (item_of <$> jobs).
Proof.
  induction jobs as [|[gym now] jobs IH]; intros st Hok Hcmp; simpl.
  { by rewrite app_nil_r. }
  assert (Hcmp1 : comparable (job_queue st ++ [item_of (gym, now)])).
  { intros a b Ha Hb. apply Hcmp.
    - apply elem_of_app in Ha as [Ha|Ha%list_elem_of_singleton];
        apply elem_of_app; [by left|right; subst; left].
    - apply elem_of_app in Hb as [Hb|Hb%list_elem_of_singleton];
        apply elem_of_app; [by left|right; subst; left]. }
  destruct (put_nowait_ok _ _ Hok Hcmp1) as (Hnone & Hok' & Hperm).
  pose proof (add_job_queue now gym st) as Hq.
  pose proof (add_job_raised now gym st) as Hr.
  unfold item_of in *. simpl in *.
  destruct (add_job now gym st) as [st' err]. simpl in *.
  rewrite Hnone in Hr. subst err. rewrite <- Hq in Hok', Hperm.
  destruct (IH st' Hok') as (Hnone' & Hok'' & Hperm').
  { eapply comparable_perm; [|exact Hcmp].
    rewrite Hperm, <- app_assoc. done. }
  split_and!; [done..|]. rewrite Hperm', Hperm, <- app_assoc. done.
Qed.

Lemma clock_advances_comparable (jobs : list (Job * Q)) :
  clock_advances jobs = true -> comparable (item_of <$> jobs).
Proof.
  intros Hclock a b [i Ha]%list_elem_of_lookup_1 [j Hb]%list_elem_of_lookup_1.
  pose proof (clock_advances_lt jobs Hclock) as Hlt_all.
  clear Hclock. rename Hlt_all into Hclock.
  rewrite list_lookup_fmap in Ha, Hb.
  destruct (jobs !! i) as [[ga ta]|] eqn:Hi; [|done].
  destruct (jobs !! j) as [[gb tb]|] eqn:Hj; [|done].
  simpl in *. simplify_eq. unfold item_of, tuple_lt. simpl.
  destruct (negb (freshness ga =? freshness gb)); [done|].
  destruct (Qeq_bool ta tb) eqn:Heq; [|done]. simpl.
  apply Qeq_bool_eq in Heq.
  destruct (Nat.lt_trichotomy i j) as [Hlt|[->|Hlt]].
  - pose proof (Hclock i j _ _ Hlt Hi Hj) as H. simpl in H.
    rewrite Heq in H. by apply Qlt_irrefl in H.
  - simplify_eq. by rewrite job_eqb_refl.
  - pose proof (Hclock j i _ _ Hlt Hj Hi) as H. simpl in H.
    rewrite Heq in H. by apply Qlt_irrefl in H.
Qed.

(** C2, as the code has it. The second component of a queue item is the
    wall-clock reading [time()] taken by [add_job], not a counter. After a
    run of [add_job] calls on an empty queue whose readings grow from each
    call to the next, no call has raised, and the [get] of the dispatch loop
    returns the item of the call [i] whose (freshness, reading) pair is the
    least: every other call [j] has a larger freshness, or the same
    freshness and a later reading, which then is a later call. *)
Theorem pop_follows_key_order (jobs : list (Job * Q)) (st : State) :
  job_queue st = [] -> jobs <> [] -> clock_advances jobs = true ->
  (add_jobs jobs st).2 = None
  /\ exists i gym now q',
       jobs !! i = Some (gym, now)
       /\ get (job_queue (add_jobs jobs st).1)
          = Some (q', inl (freshness gym, now, gym))
       /\ forall j gym' now',
            jobs !! j = Some (gym', now') -> j <> i ->
            freshness gym < freshness gym'
            \/ (freshness gym = freshness gym' /\ (now < now')%Q
                /\ (i < j)%nat).
Proof.
  intros Hq Hne Hclock.
  destruct (add_jobs_ok jobs st) as (Hnone & Hok & Hperm).
  { rewrite Hq. apply queue_ok_nil. }
  { rewrite Hq. by apply clock_advances_comparable. }
  pose proof (clock_advances_lt jobs Hclock) as Hlt_all.
  clear Hclock. rename Hlt_all into Hclock.
  split; [done|]. rewrite Hq in Hperm. simpl in Hperm.
  destruct (get_ok _ Hok) as (r & q' & Hget & Hr & _ & _ & Hleast).
  { intros Hnil. rewrite Hnil in Hperm. apply Permutation_nil_l in Hperm.
    by destruct jobs. }
  assert (Hin : r ∈ (item_of <$> jobs)).
  { rewrite <- Hperm. by eapply list_elem_of_lookup_2. }
  apply list_elem_of_lookup_1 in Hin as [i Hi].
  rewrite list_lookup_fmap in Hi.
  destruct (jobs !! i) as [[gym now]|] eqn:Hjob; [|done].
  simpl in Hi. injection Hi as <-.
  exists i, gym, now, q'. split_and!; [done..|].
  intros j gym' now' Hj Hji.
  assert (Hx : item_of (gym', now') ∈ job_queue (add_jobs jobs st).1).
  { rewrite Hperm. apply (list_elem_of_lookup_2 _ j).
    by rewrite list_lookup_fmap, Hj. }
  apply Hleast, key_lt_false in Hx. unfold item_of in Hx. simpl in Hx.
  destruct Hx as [Hx|[Hx Hx']]; [by left|]. right.
  destruct (Nat.lt_trichotomy i j) as [Hlt|[->|Hlt]]; [|done|].
  - split_and!; [done| |done]. apply (Hclock i j _ _ Hlt Hjob Hj).
  - pose proof (Hclock j i _ _ Hlt Hj Hjob) as H. simpl in H.
    exfalso. by apply (Qlt_not_le _ _ H).
Qed.

Lemma pop_follows_key_order_witness :
  let a := sample_gym 1 (Some 5) (Some 0) in
  let b := sample_gym 2 (Some 3) (Some 0) in
  let c := sample_gym 3 (Some 3) (Some 9) in
  let jobs := [(a, 1%Q); (b, 2%Q); (c, 3%Q)] in
  let st := sample_state two_idle [] true in
  (add_jobs jobs st).2 = None
  /\ exists i gym now q',
       jobs !! i = Some (gym, now)
       /\ get (job_queue (add_jobs jobs st).1)
          = Some (q', inl (freshness gym, now, gym))
       /\ forall j gym' now',
            jobs !! j = Some (gym', now') -> j <> i ->
            freshness gym < freshness gym'
            \/ (freshness gym = freshness gym' /\ (now < now')%Q
                /\ (i < j)%nat).
Proof.
  apply (pop_follows_key_order
           [(sample_gym 1 (Some 5) (Some 0), 1%Q);
            (sample_gym 2 (Some 3) (Some 0), 2%Q);
            (sample_gym 3 (Some 3) (Some 9), 3%Q)]
           (sample_state two_idle [] true));
    [reflexivity|discriminate|reflexivity].
Defined.

(** C2 as stated fails. Two gyms of equal freshness are enqueued, the
    clock having been set back between the two calls (readings 10, then 5):
    [get] returns the gym enqueued last. With the same reading 10 for both
    calls, the second [add_job] raises [TypeError]: the comparison falls
    through to the two dicts. *)
Lemma pop_order_follows_the_clock :
  let a := sample_gym 1 (Some 0) (Some 0) in
  let b := sample_gym 2 (Some 0) (Some 0) in
  let st := sample_state two_idle [] true in
  (add_jobs [(a, 10%Q); (b, 5%Q)] st).2 = None
  /\ get (job_queue (add_jobs [(a, 10%Q); (b, 5%Q)] st).1)
     = Some ([(0, 10%Q, a)], inl (0, 5%Q, b))
  /\ (add_jobs [(a, 10%Q); (b, 10%Q)] st).2 = Some TypeError.
Proof. vm_compute. done. Qed.

(** ** The key of a queued job *)

Lemma gym_of_fort_updated (fort : Fort) :
  updated (gym_of_fort fort)
  = Some (match sightings fort with
          | [] => 0
          | sighting :: _ => sighting_updated sighting
          end).
Proof. unfold gym_of_fort. by destruct (sightings fort). Qed.

Lemma preload_loop_keys (in_bounds : Point -> bool)
    (forts : list (Fort * Q)) :
  forall st,
    Forall keyed_by_updated (put_calls (trace st)) ->
    Forall keyed_by_updated
      (put_calls (trace (preload_loop in_bounds forts st).1)).
Proof.
  induction forts as [|[fort now] forts IH]; intros st Hst; [done|].
  simpl. destruct (negb _); [by apply IH|].
  pose proof (add_job_trace now (gym_of_fort fort) st) as Htr.
  assert (Hnew : Forall keyed_by_updated
            (put_calls (trace (add_job now (gym_of_fort fort) st).1))).
  { rewrite Htr. unfold put_calls in *. rewrite omap_app.
    apply Forall_app. split; [done|]. simpl. constructor; [|done].
    unfold keyed_by_updated, freshness. simpl.
    by rewrite gym_of_fort_updated. }
  destruct (add_job now (gym_of_fort fort) st) as [st' [e|]]; [done|].
  by apply IH.
Qed.

(** C3, as the code has it. The key of a queued job is the value under
    the dict's key ['updated'] whenever the dict has that key, whatever the
    value, 0 included; ['last_modified'] is used only for a dict without
    ['updated'], and 0 for one with neither. [preload] gives every gym both
    keys, so every job it enqueues is keyed by its [updated] value. *)
Theorem add_job_key (now : Q) (gym : Job) (st : State) :
  let key := match updated gym with
             | Some u => u
             | None => match last_modified gym with
                       | Some m => m
                       | None => 0
                       end
             end in
  put_calls (trace (add_job now gym st).1)
  = put_calls (trace st) ++ [(key, now, gym)]
  /\ job_queue (add_job now gym st).1 ≡ₚ job_queue st ++ [(key, now, gym)]
  /\ forall in_bounds forts,
       put_calls (trace st) = [] ->
       Forall keyed_by_updated
         (put_calls (trace (preload in_bounds forts st))).
Proof.
  cbv zeta. split_and!.
  - rewrite add_job_trace. unfold put_calls. by rewrite omap_app.
  - rewrite add_job_queue. apply heappush_perm.
  - intros in_bounds forts Hnone. unfold preload.
    pose proof (preload_loop_keys in_bounds forts st) as H.
    rewrite Hnone in H. specialize (H (Forall_nil_2 _)).
    destruct (preload_loop in_bounds forts st) as [st' [e|]]; [|done].
    simpl in *. unfold put_calls in *. rewrite omap_app. simpl.
    by rewrite app_nil_r.
Qed.

(** C3 as stated fails. A gym dict with ['updated'] 0 and
    ['last_modified'] 5 is queued under 0, not under 5. *)
Lemma add_job_keys_zero_updated_by_zero :
  let gym := sample_gym 3 (Some 0) (Some 5) in
  updated gym = Some 0 /\ last_modified gym = Some 5
  /\ job_queue (add_job 10 gym (sample_state two_idle [] true)).1
     = [(0, 10%Q, gym)].
Proof. vm_compute. done. Qed.

(** ** The dispatch loop *)

Lemma siftdown_loop_raises (fuel : nat) :
  forall heap startpos pos e,
    (siftdown_loop fuel heap startpos pos).2 = Some e -> e = TypeError.
Proof.
  induction fuel as [|fuel IH]; intros heap startpos pos e; simpl; [done|].
  repeat case_match; simpl; try done; [apply IH|congruence].
Qed.

Lemma siftup_loop_raises (fuel : nat) :
  forall heap startpos pos e,
    (siftup_loop fuel heap startpos pos).2 = Some e -> e = TypeError.
Proof.
  induction fuel as [|fuel IH]; intros heap startpos pos e; simpl;
    [apply siftdown_loop_raises|].
  repeat case_match; simplify_eq; simpl; try done;
    try apply siftdown_loop_raises; try apply IH; congruence.
Qed.

Lemma get_raises (q q' : list Entry) (e : exn) :
  get q = Some (q', inr e) -> e = TypeError.
Proof.
  unfold get, heappop. destruct (last q); [|done].
  destruct (removelast q); [done|].
  pose proof (siftup_loop_raises (length (<[0%nat:=e0]> (e1 :: l)))
                (<[0%nat:=e0]> (e1 :: l)) 0 0) as H.
  unfold siftup. destruct (siftup_loop _ _ _ _) as [h [e'|]]; [|done].
  intros [= <- <-]. by apply H.
Qed.

(** The bounds on the loops of the model are never what ends them: any two
    bounds that are large enough give the same result. *)
Lemma siftdown_loop_fuel (fuel : nat) :
  forall fuel' heap startpos pos,
    (pos <= fuel)%nat -> (pos <= fuel')%nat ->
    siftdown_loop fuel heap startpos pos
    = siftdown_loop fuel' heap startpos pos.
Proof.
  induction fuel as [|fuel IH]; intros [|fuel'] heap startpos pos H H';
    simpl; try done.
  - by destruct (startpos <? pos)%nat eqn:Hlt; [apply Nat.ltb_lt in Hlt; lia|].
  - by destruct (startpos <? pos)%nat eqn:Hlt; [apply Nat.ltb_lt in Hlt; lia|].
  - rewrite Nat.div2_div.
    destruct (startpos <? pos)%nat eqn:Hlt; [|done].
    apply Nat.ltb_lt in Hlt.
    repeat case_match; try done. apply IH; lia.
Qed.

Lemma swap_length (heap : list Entry) (i j : nat) :
  length (swap heap i j) = length heap.
Proof. by rewrite swap_perm. Qed.

Lemma siftup_loop_fuel (fuel : nat) :
  forall fuel' heap startpos pos,
    (length heap - pos <= fuel)%nat -> (length heap - pos <= fuel')%nat ->
    siftup_loop fuel heap startpos pos
    = siftup_loop fuel' heap startpos pos.
Proof.
  induction fuel as [|fuel IH]; intros [|fuel'] heap startpos pos H H';
    simpl; try done; rewrite Nat.div2_div.
  - by destruct (pos <? length heap / 2)%nat eqn:Hlt;
      [apply Nat.ltb_lt in Hlt; lia|].
  - by destruct (pos <? length heap / 2)%nat eqn:Hlt;
      [apply Nat.ltb_lt in Hlt; lia|].
  - destruct (pos <? length heap / 2)%nat eqn:Hlt; [|done].
    apply Nat.ltb_lt in Hlt.
    repeat case_match; simplify_eq; try done;
      apply IH; rewrite swap_length; lia.
Qed.

(** A [get] that returns or raises has taken one item out. *)
Lemma get_length (q q' : list Entry) (r : Entry + exn) :
  get q = Some (q', r) -> length q = S (length q').
Proof.
  unfold get, heappop. destruct (last q) as [lastelt|] eqn:Hlast; [|done].
  apply last_Some in Hlast as [front ->]. rewrite removelast_last.
  rewrite length_app. simpl.
  destruct front as [|returnitem rest]; simpl.
  - intros [= <- <-]. done.
  - pose proof (siftup_loop_perm (length (lastelt :: rest)) (lastelt :: rest)
                  0 0) as Hperm.
    unfold siftup. simpl length in *.
    destruct (siftup_loop _ _ _ _) as [heap2 [e|]]; intros [= <- <-];
      simpl in Hperm; rewrite Hperm; simpl; lia.
Qed.

Lemma drain_fuel (cancelled_is_exception : bool) (fuel : nat) :
  forall fuel' st ts,
    (length (job_queue st) < fuel)%nat ->
    (length (job_queue st) < fuel')%nat ->
    drain cancelled_is_exception fuel st ts
    = drain cancelled_is_exception fuel' st ts.
Proof.
  induction fuel as [|fuel IH]; intros [|fuel'] st ts H H'; try lia.
  simpl.
  destruct (empty (job_queue st)); [done|].
  destruct (get (job_queue st)) as [[q [item|e]]|] eqn:Hget; [|done..].
  apply get_length in Hget.
  destruct (0 <? _); [|done]. apply IH; simpl; lia.
Qed.

Section LauncherFacts.

Context (conf : Conf) (cancelled_is_exception : bool).

Lemma body_raises_caught (e : exn) (st : State) :
  is_cancelled e = false ->
  body_raises cancelled_is_exception e st
  = (emit (Slept 1) (emit (LogLauncherError e) st), Sleeping).
Proof.
  intros He. unfold body_raises, caught_as_exception.
  by rewrite He.
Qed.

Lemma drain_rests (fuel : nat) :
  forall st ts, (drain cancelled_is_exception fuel st ts).1.2 <> Stopped.
Proof.
  induction fuel as [|fuel IH]; intros st ts; simpl; [done|].
  destruct (empty (job_queue st)); [done|].
  destruct (get (job_queue st)) as [[q [item|e]]|] eqn:Hget; [| |done].
  - destruct (0 <? _); [apply IH|done].
  - apply get_raises in Hget as ->. by rewrite body_raises_caught.
Qed.

Lemma step_finish_loop (k : nat) (env : Env) (sys : System) :
  loop (step conf cancelled_is_exception (Finish k env) sys) = loop sys.
Proof.
  unfold step. by destruct (tasks sys !! k).
Qed.

Lemma step_rests (inp : input) (sys : System) :
  loop sys <> Stopped -> cancels inp = false ->
  loop (step conf cancelled_is_exception inp sys) <> Stopped.
Proof.
  intros Hloop Hinp.
  destruct inp as [| |e|k env]; [| done | |by rewrite step_finish_loop];
    unfold step.
  - destruct (loop sys) as [job| |] eqn:Hl; [| |done].
    + destruct (0 <? _); [|by rewrite Hl].
      pose proof (drain_rests
        (S (length (job_queue (with_semaphore
           (coroutine_semaphore (shared sys) - 1) (shared sys)))))
        (with_semaphore (coroutine_semaphore (shared sys) - 1) (shared sys))
        (tasks sys ++ [job])) as H.
      unfold run_drain. by destruct (drain _ _ _ _) as [[? ?] ?].
    + pose proof (drain_rests (S (length (job_queue (shared sys))))
        (shared sys) (tasks sys)) as H.
      unfold run_drain. by destruct (drain _ _ _ _) as [[? ?] ?].
  - assert (He : is_cancelled e = false) by by destruct e.
    destruct (loop sys); [..|done]; by rewrite body_raises_caught.
Qed.

End LauncherFacts.

(** C9. The launcher leaves its loop on a cancellation only. Whatever else
    the event loop does (wake-ups, failures raised inside the loop body,
    attempts running to their end with any outcome), the launcher is not
    stopped afterwards. A failure [e] raised inside the loop body is logged
    and the launcher goes to its [sleep(1)], from which a wake-up starts the
    next round of the inner loop; so does a failing [get]. An attempt that
    ends, however it ends and whatever it raises, leaves the launcher where
    it was. *)
Theorem launcher_stops_only_when_cancelled
    (conf : Conf) (cancelled_is_exception : bool) :
  (forall inputs sys,
     loop sys <> Stopped ->
     forallb (fun inp => negb (cancels inp)) inputs = true ->
     loop (run conf cancelled_is_exception inputs sys) <> Stopped)
  /\ (forall e sys,
        is_cancelled e = false -> loop sys <> Stopped ->
        let sys' := step conf cancelled_is_exception (Fault e) sys in
        loop sys' = Sleeping
        /\ trace (shared sys')
           = trace (shared sys) ++ [LogLauncherError e; Slept 1]
        /\ tasks sys' = tasks sys
        /\ job_queue (shared sys') = job_queue (shared sys))
  /\ (forall st ts q e,
        empty (job_queue st) = false ->
        get (job_queue st) = Some (q, inr e) ->
        step conf cancelled_is_exception Wake
          {| shared := st; loop := Sleeping; tasks := ts |}
        = {| shared := emit (Slept 1)
                         (emit (LogLauncherError e) (with_job_queue q st));
             loop := Sleeping; tasks := ts |})
  /\ (forall st ts,
        step conf cancelled_is_exception Wake
          {| shared := st; loop := Sleeping; tasks := ts |}
        = let '(st', l, ts') := run_drain cancelled_is_exception st ts in
          {| shared := st'; loop := l; tasks := ts' |})
  /\ (forall k env sys,
        loop (step conf cancelled_is_exception (Finish k env) sys)
        = loop sys).
Proof.
  split_and!.
  - intros inputs. induction inputs as [|inp inputs IH]; intros sys Hloop Hok;
      [done|].
    simpl in Hok. apply andb_true_iff in Hok as [Hinp Hok].
    apply negb_true_iff in Hinp. simpl. apply IH; [|done].
    by apply step_rests.
  - intros e sys He Hloop. cbv zeta. unfold step.
    destruct (loop sys); [..|done]; rewrite body_raises_caught by done;
      simpl; by rewrite <- app_assoc.
  - intros st ts q e Hempty Hget. unfold step, run_drain. simpl.
    rewrite Hempty, Hget. apply get_raises in Hget as ->.
    by rewrite body_raises_caught.
  - done.
  - apply step_finish_loop.
Qed.

(** ** The concurrency limiter *)

Section Limiter.

Context (conf : Conf) (cancelled_is_exception : bool).

Lemma try_point_accounting (env : Env) (st : State) (job : Job) :
  let a := try_point conf env st job in
  how a <> Suspended
  /\ length (put_calls (trace (final a)))
     = S (length (put_calls (trace st)))
  /\ coroutine_semaphore (final a) - Z.of_nat (releases (trace (final a)))
     = coroutine_semaphore st - Z.of_nat (releases (trace st))
  /\ coroutine_semaphore st <= coroutine_semaphore (final a)
  /\ (releases (trace st) <= releases (trace (final a)))%nat
  /\ (releases (trace (final a)) <= S (releases (trace st)))%nat.
Proof.
  cbv zeta.
  destruct (try_point_requeue conf env st job) as (Hhow & Hput & _).
  split; [done|]. split; [rewrite Hput, length_app; simpl; lia|].
  clear Hhow Hput. unfold try_point.
  pose proof (try_body_frame conf env st job) as H.
  destruct (try_body conf env st job) as [[st' job'] r].
  destruct H as (_ & Hsem & _ & Hrel & _ & Hr).
  assert (Hfin : forall st'' h pending,
    coroutine_semaphore st'' = coroutine_semaphore st ->
    releases (trace st'') = releases (trace st) ->
    let a := finish env st'' job' h pending in
    coroutine_semaphore (final a) - Z.of_nat (releases (trace (final a)))
    = coroutine_semaphore st - Z.of_nat (releases (trace st))
    /\ coroutine_semaphore st <= coroutine_semaphore (final a)
    /\ (releases (trace st) <= releases (trace (final a)))%nat
    /\ (releases (trace (final a)) <= S (releases (trace st)))%nat).
  { intros st'' h pending Hs Hr''. cbv zeta.
    rewrite finish_final, cleanup_semaphore, cleanup_trace, Hs.
    unfold releases in *. rewrite omap_app, length_app, Hr''.
    destruct ((cleanup _ _ _).2); simpl; lia. }
  destruct r as [| |e|]; [by apply Hfin..| |done].
  destruct (is_cancelled e); [by apply Hfin|].
  destruct (is_visit_error e); apply Hfin; simpl; try done;
    unfold releases in *; rewrite omap_app, length_app, Hrel; simpl; lia.
Qed.

Lemma body_raises_accounting (e : exn) (st : State) :
  let st' := (body_raises cancelled_is_exception e st).1 in
  coroutine_semaphore st' = coroutine_semaphore st
  /\ put_calls (trace st') = put_calls (trace st)
  /\ releases (trace st') = releases (trace st).
Proof.
  unfold body_raises. destruct (caught_as_exception _ _); by read_trace.
Qed.

Lemma drain_accounting (fuel : nat) :
  forall st ts,
    let r := drain cancelled_is_exception fuel st ts in
    coroutine_semaphore r.1.1 + Z.of_nat (length r.2)
    = coroutine_semaphore st + Z.of_nat (length ts)
    /\ put_calls (trace r.1.1) = put_calls (trace st)
    /\ releases (trace r.1.1) = releases (trace st)
    /\ (0 <= coroutine_semaphore st -> 0 <= coroutine_semaphore r.1.1)
    /\ coroutine_semaphore r.1.1 <= coroutine_semaphore st.
Proof.
  induction fuel as [|fuel IH]; intros st ts; cbv zeta; simpl.
  { split_and!; try done; lia. }
  destruct (empty (job_queue st)); [split_and!; by read_trace|].
  destruct (get (job_queue st)) as [[q [item|e]]|];
    [| |simpl; split_and!; try done; lia].
  - destruct (0 <? coroutine_semaphore st) eqn:Hsem;
      [|simpl; split_and!; try done; lia].
    apply Z.ltb_lt in Hsem.
    destruct (IH (with_semaphore (coroutine_semaphore st - 1)
                    (with_job_queue q st)) (ts ++ [item.2]))
      as (H1 & H2 & H3 & H4 & H5).
    simpl in *. rewrite length_app in H1. simpl in H1.
    split_and!; try done; lia.
  - destruct (body_raises_accounting e (with_job_queue q st))
      as (H1 & H2 & H3).
    destruct (body_raises _ _ _) as [st' l]. simpl in *.
    split_and!; try done; lia.
Qed.

Lemma step_balance (inp : input) (sys : System) :
  let sys' := step conf cancelled_is_exception inp sys in
  balance sys' = balance sys
  /\ (0 <= coroutine_semaphore (shared sys) ->
      0 <= coroutine_semaphore (shared sys'))
  /\ (length (put_calls (trace (shared sys)))
      <= length (put_calls (trace (shared sys'))))%nat
  /\ Z.of_nat (releases (trace (shared sys')))
     - Z.of_nat (releases (trace (shared sys)))
     <= Z.of_nat (length (put_calls (trace (shared sys'))))
        - Z.of_nat (length (put_calls (trace (shared sys)))).
Proof.
  cbv zeta. unfold balance, step.
  destruct inp as [| |e|k env].
  - destruct (loop sys) as [job| |]; [| |simpl; split_and!; try done; lia].
    + destruct (0 <? coroutine_semaphore (shared sys)) eqn:Hsem;
        [|simpl; split_and!; try done; lia].
      apply Z.ltb_lt in Hsem.
      destruct (drain_accounting
        (S (length (job_queue (with_semaphore
           (coroutine_semaphore (shared sys) - 1) (shared sys)))))
        (with_semaphore (coroutine_semaphore (shared sys) - 1) (shared sys))
        (tasks sys ++ [job])) as (H1 & H2 & H3 & H4 & H5).
      unfold run_drain. destruct (drain _ _ _ _) as [[st' l] ts'].
      simpl in *. rewrite length_app in H1. simpl in H1.
      rewrite H2, H3. simpl; split_and!; try done; lia.
    + destruct (drain_accounting (S (length (job_queue (shared sys))))
        (shared sys) (tasks sys)) as (H1 & H2 & H3 & H4 & H5).
      unfold run_drain. destruct (drain _ _ _ _) as [[st' l] ts'].
      simpl in *. rewrite H2, H3. simpl; split_and!; try done; lia.
  - destruct (loop sys) as [job| |]; [|simpl; split_and!; try done; lia..].
    destruct (body_raises_accounting CancelledError (shared sys))
      as (H1 & H2 & H3).
    destruct (body_raises _ _ _) as [st' l]. simpl in *.
    rewrite H1, H2, H3. simpl; split_and!; try done; lia.
  - destruct (body_raises_accounting e (shared sys)) as (H1 & H2 & H3).
    destruct (loop sys) as [job| |]; [| |simpl; split_and!; try done; lia];
      destruct (body_raises _ _ _) as [st' l]; simpl in *;
      rewrite H1, H2, H3; simpl; split_and!; try done; lia.
  - destruct (tasks sys !! k) as [job|] eqn:Hk;
      [|destruct (loop sys); simpl; split_and!; try done; lia].
    destruct (try_point_accounting env (shared sys) job)
      as (Hhow & Hput & Hsem & Hle & Hr1 & Hr2).
    assert (Hlen : length (delete k (tasks sys)) = pred (length (tasks sys))).
    { rewrite length_delete; [lia|]. by eexists. }
    apply lookup_lt_Some in Hk.
    destruct (loop sys); simpl in *;
      destruct (how (try_point conf env (shared sys) job)); try done;
      rewrite Hlen, Hput; split_and!; lia.
Qed.

Lemma preload_loop_accounting (in_bounds : Point -> bool)
    (forts : list (Fort * Q)) :
  forall st,
    let st' := (preload_loop in_bounds forts st).1 in
    coroutine_semaphore st' = coroutine_semaphore st
    /\ releases (trace st') = releases (trace st).
Proof.
  induction forts as [|[fort now] forts IH]; intros st; [done|].
  cbv zeta. simpl. destruct (negb _); [apply IH|].
  pose proof (add_job_frame now (gym_of_fort fort) st) as Hf.
  pose proof (add_job_trace now (gym_of_fort fort) st) as Ht.
  destruct (add_job now (gym_of_fort fort) st) as [st' [e|]]; simpl in *;
    destruct Hf as (_ & _ & _ & _ & Hsem & _).
  - rewrite Hsem, Ht. by read_trace.
  - destruct (IH st') as [-> ->]. rewrite Hsem, Ht. by read_trace.
Qed.

Lemma init_workers_accounting (made : list (Worker + exn)) :
  forall st,
    coroutine_semaphore (init_workers made st) = coroutine_semaphore st
    /\ releases (trace (init_workers made st)) = releases (trace st).
Proof.
  induction made as [|[w|e] made IH]; intros st; simpl; [done|..].
  - by destruct (IH (with_workers (workers st ++ [w]) st)) as [-> ->].
  - destruct (IH (emit (LogException e) st)) as [-> ->]. by read_trace.
Qed.

Lemma launch_accounting (in_bounds : Point -> bool)
    (forts : list (Fort * Q)) (made : nat -> Worker + exn)
    (is_running : bool) :
  let sys0 := launch conf cancelled_is_exception in_bounds forts made
                is_running in
  coroutine_semaphore (shared sys0) + Z.of_nat (length (tasks sys0))
  = workers_needed conf
  /\ releases (trace (shared sys0)) = 0%nat
  /\ (0 <= workers_needed conf -> 0 <= coroutine_semaphore (shared sys0)).
Proof.
  cbv zeta. unfold launch.
  set (st1 := init_workers (map made (seq 0 (Z.to_nat (workers_needed conf))))
                (preload in_bounds forts (initial_state conf is_running))).
  assert (coroutine_semaphore st1 = workers_needed conf
          /\ releases (trace st1) = 0%nat) as [Hsem Hrel].
  { subst st1.
    destruct (init_workers_accounting
      (map made (seq 0 (Z.to_nat (workers_needed conf))))
      (preload in_bounds forts (initial_state conf is_running))) as [-> ->].
    unfold preload.
    destruct (preload_loop_accounting in_bounds forts
                (initial_state conf is_running)) as [H1 H2].
    destruct (preload_loop _ _ _) as [st' [e|]]; simpl in *;
      rewrite ?H1; split; try done.
    revert H2. by read_trace. }
  destruct (drain_accounting (S (length (job_queue st1))) st1 [])
    as (H1 & H2 & H3 & H4 & H5).
  unfold run_drain. destruct (drain _ _ _ _) as [[st' l] ts']. simpl in *.
  split_and!; [lia|congruence|lia].
Qed.

End Limiter.

(** X4. The limiter's books. Along every run that starts with [launch], the
    limiter stays between zero and the worker count, and the worker count
    is made up of the free units, the pending attempts, and the attempts
    whose requeue was not followed by a release. *)
Theorem limiter_accounting
    (conf : Conf) (cancelled_is_exception : bool)
    (in_bounds : Point -> bool) (forts : list (Fort * Q))
    (made : nat -> Worker + exn) (is_running : bool)
    (inputs : list input) :
  0 <= workers_needed conf ->
  let sys0 := launch conf cancelled_is_exception in_bounds forts made
                is_running in
  let sys := run conf cancelled_is_exception inputs sys0 in
  coroutine_semaphore (shared sys0) + Z.of_nat (length (tasks sys0))
  = workers_needed conf
  /\ 0 <= coroutine_semaphore (shared sys) <= workers_needed conf
  /\ 0 <= unreleased (shared sys0) (shared sys)
  /\ coroutine_semaphore (shared sys) + Z.of_nat (length (tasks sys))
     + unreleased (shared sys0) (shared sys)
     = workers_needed conf.
Proof.
  intros Hw. cbv zeta.
  destruct (launch_accounting conf cancelled_is_exception in_bounds forts
              made is_running) as (Hsum & Hrel & Hpos).
  specialize (Hpos Hw).
  set (sys0 := launch conf cancelled_is_exception in_bounds forts made
                 is_running) in *.
  split; [done|].
  assert (Hinv : forall inputs sys,
    balance sys
    = workers_needed conf
      + Z.of_nat (length (put_calls (trace (shared sys0)))) ->
    0 <= coroutine_semaphore (shared sys) ->
    0 <= unreleased (shared sys0) (shared sys) ->
    let sys' := run conf cancelled_is_exception inputs sys in
    balance sys'
    = workers_needed conf
      + Z.of_nat (length (put_calls (trace (shared sys0))))
    /\ 0 <= coroutine_semaphore (shared sys')
    /\ 0 <= unreleased (shared sys0) (shared sys')).
  { clear. intros inputs.
    induction inputs as [|inp inputs IH]; intros sys Hb Hs Hu; [done|].
    simpl. destruct (step_balance conf cancelled_is_exception inp sys)
      as (Hb' & Hs' & Hp' & Hr').
    apply IH; [by rewrite Hb'|by apply Hs'|].
    unfold unreleased in *. lia. }
  destruct (Hinv inputs sys0) as (Hb & Hs & Hu).
  { unfold balance. rewrite Hrel. lia. }
  { done. }
  { unfold unreleased. rewrite Hrel. lia. }
  unfold balance, unreleased in *. split_and!; lia.
Qed.

Lemma limiter_accounting_witness :
  let sys0 := sample_launch in
  let sys := run sample_conf false
               [Finish 0 (sample_env (Returns (PyInt 1)) (Returns PyNone));
                Wake] sys0 in
  coroutine_semaphore (shared sys0) + Z.of_nat (length (tasks sys0))
  = workers_needed sample_conf
  /\ 0 <= coroutine_semaphore (shared sys) <= workers_needed sample_conf
  /\ 0 <= unreleased (shared sys0) (shared sys)
  /\ coroutine_semaphore (shared sys) + Z.of_nat (length (tasks sys))
     + unreleased (shared sys0) (shared sys)
     = workers_needed sample_conf.
Proof.
  apply (limiter_accounting sample_conf false (fun _ => true)
           [(sample_fort 1, 1%Q); (sample_fort 2, 2%Q)]
           (fun x => inl (sample_worker x false
                           (if (x =? 0)%nat then 5.0 else 2.0)))
           true
           [Finish 0 (sample_env (Returns (PyInt 1)) (Returns PyNone));
            Wake]).
  vm_compute. discriminate.
Defined.

(** C8, at a failing input. Two gyms, two workers, a limiter of two units.
    The launcher takes both units and starts both attempts. Both visits
    succeed within the same second, and the two cleanups read the same
    clock value: the second [add_job] raises [TypeError], and the [release]
    after it is not reached. No attempt is pending any more, and the limiter
    stands at one unit instead of two. *)
Theorem limiter_loses_a_unit_on_equal_readings :
  let env := sample_env (Returns (PyInt 1)) (Returns PyNone) in
  let sys0 := sample_launch in
  let sys := run sample_conf false [Finish 0 env; Finish 0 env] sys0 in
  workers_needed sample_conf = 2
  /\ coroutine_semaphore (shared sys0) = 0
  /\ length (tasks sys0) = 2%nat
  /\ tasks sys = []
  /\ length (put_calls (trace (shared sys)))
     = (length (put_calls (trace (shared sys0))) + 2)%nat
  /\ releases (trace (shared sys)) = 1%nat
  /\ coroutine_semaphore (shared sys) = 1.
Proof. vm_compute. done. Qed.

(** ** Further facts *)

(** X1. [best_worker] decides in its first round. It never sleeps, and it
    returns [None] exactly when the system is not running: the deadline
    test and the [sleep] after it are never reached. *)
Theorem best_worker_decides_at_once
    (conf : Conf) (env : Env) (st : State) (point : Point) (job : Job)
    (updated : Z) (skip_time : Q) :
  let r := best_worker conf env st point job updated skip_time in
  r.2 <> BWPending
  /\ sleeps (trace r.1) = sleeps (trace st)
  /\ (r.2 = BWReturn None <-> running st = false).
Proof.
  cbv zeta. destruct (running st) eqn:Hrun.
  - destruct (scan_cases (workers st) point) as [[Hidle _]|(i & l & Hscan)].
    + rewrite best_worker_unbound by done. unfold speed_log.
      destruct (speed_limit_of _ _ _). simpl. split_and!; [done|by read_trace|].
      split; done.
    + rewrite (best_worker_picks conf env st point job updated skip_time i l
                 Hrun Hscan).
      unfold speed_log. destruct (speed_limit_of _ _ _). simpl.
      split_and!; [done|by read_trace|]. split; done.
  - rewrite best_worker_stopped by done. simpl. split_and!; done.
Qed.

(** X2. With the system running and every worker busy, [best_worker]
    raises [UnboundLocalError] whatever the point and the deadline, and
    [try_point] ends the attempt as an unexpected failure: one more in
    [skipped], no sleep. *)
Theorem no_idle_worker_is_an_unexpected_failure
    (conf : Conf) (env : Env) (st : State) (job : Job) :
  running st = true ->
  (forall k wk, workers st !! k = Some wk -> busy wk = true) ->
  let a := try_point conf env st job in
  (forall point updated skip_time,
     (best_worker conf env st point job updated skip_time).2
     = BWRaise UnboundLocalError)
  /\ how a = Failed UnboundLocalError
  /\ skipped (final a) = skipped st + 1
  /\ sleeps (trace (final a)) = sleeps (trace st).
Proof. apply try_point_without_idle_worker. Qed.

Lemma no_idle_worker_is_an_unexpected_failure_witness :
  let env := sample_env (Returns (PyInt 1)) (Returns (PyInt 1)) in
  let st := sample_state all_busy [] true in
  let job := sample_gym 7 (Some 900) (Some 850) in
  let a := try_point sample_conf env st job in
  (forall point updated skip_time,
     (best_worker sample_conf env st point job updated skip_time).2
     = BWRaise UnboundLocalError)
  /\ how a = Failed UnboundLocalError
  /\ skipped (final a) = skipped st + 1
  /\ sleeps (trace (final a)) = sleeps (trace st).
Proof.
  apply (no_idle_worker_is_an_unexpected_failure sample_conf
           (sample_env (Returns (PyInt 1)) (Returns (PyInt 1)))
           (sample_state all_busy [] true)
           (sample_gym 7 (Some 900) (Some 850))).
  - reflexivity.
  - intros [|[|k]] wk Hk; simpl in Hk; [by injection Hk as <-..|].
    by rewrite lookup_nil in Hk.
Defined.

(** X3. A queue in working order stays so. Putting an item that can be
    compared with those present raises nothing and keeps the order; a [get]
    on a non-empty queue returns an item that no item present precedes by
    (freshness, reading), and leaves the others in order. *)
Theorem queue_stays_ordered (q : list Entry) :
  queue_ok q ->
  (forall item,
     comparable (q ++ [item]) ->
     (put_nowait q item).2 = None
     /\ queue_ok (put_nowait q item).1
     /\ (put_nowait q item).1 ≡ₚ q ++ [item])
  /\ (q <> [] ->
      exists r q',
        get q = Some (q', inl r)
        /\ queue_ok q'
        /\ q ≡ₚ r :: q'
        /\ forall x, x ∈ q -> key_lt x r = false).
Proof.
  intros Hok. split.
  - intros item Hcmp. by apply put_nowait_ok.
  - intros Hne. destruct (get_ok q Hok Hne) as (r & q' & H1 & _ & H2 & H3 & H4).
    by exists r, q'.
Qed.

Ltac one_of_the_list H :=
  repeat (apply elem_of_cons in H as [->|H]);
  try (by apply elem_of_nil in H).

(** A queue of three jobs, two of them equally fresh, and a fourth job that
    climbs to the front when it is put. *)
Lemma queue_stays_ordered_witness :
  let e1 := (0, 10%Q, sample_gym 1 (Some 0) (Some 0)) in
  let e2 := (0, 11%Q, sample_gym 2 (Some 0) (Some 0)) in
  let e3 := (3, 12%Q, sample_gym 3 (Some 3) (Some 0)) in
  let item := (0, 9%Q, sample_gym 4 (Some 0) (Some 0)) in
  let q := [e1; e2; e3] in
  queue_ok q
  /\ comparable (q ++ [item])
  /\ ((put_nowait q item).2 = None
      /\ queue_ok (put_nowait q item).1
      /\ (put_nowait q item).1 ≡ₚ q ++ [item])
  /\ put_nowait q item = ([item; e1; e3; e2], None)
  /\ (exists r q',
        get q = Some (q', inl r)
        /\ queue_ok q'
        /\ q ≡ₚ r :: q'
        /\ forall x, x ∈ q -> key_lt x r = false)
  /\ get q = Some ([e2; e3], inl e1).
Proof.
  intros e1 e2 e3 item q.
  assert (Hok : queue_ok q).
  { split.
    - intros [|[|[|i]]] x p Hi Hx Hp; try lia; simpl in Hx, Hp;
        try (by simplify_eq).
    - intros a b Ha Hb.
      one_of_the_list Ha; one_of_the_list Hb; by eexists. }
  assert (Hcmp : comparable (q ++ [item])).
  { intros a b Ha Hb. simpl in Ha, Hb.
    one_of_the_list Ha; one_of_the_list Hb; by eexists. }
  destruct (queue_stays_ordered q Hok) as [Hput Hget].
  split_and!; [exact Hok|exact Hcmp|by apply Hput..|reflexivity| |reflexivity].
  by apply Hget.
Defined.

(** X5. The loops of the model run to their own end. [siftdown], [siftup]
    and the inner loop of [launch] are given a number of rounds; with any
    larger number each of them gives the same result, so none of them is
    ever cut short: the sift loops end at the root, at a leaf or at a
    comparison, the inner loop of [launch] at the empty queue, at a failure
    or in [acquire()]. *)
Theorem loops_run_to_their_end (cancelled_is_exception : bool) :
  (forall fuel heap startpos pos,
     (pos <= fuel)%nat ->
     siftdown_loop fuel heap startpos pos = siftdown heap startpos pos)
  /\ (forall fuel heap pos,
        (length heap <= fuel)%nat ->
        siftup_loop fuel heap pos pos = siftup heap pos)
  /\ (forall fuel st ts,
        (length (job_queue st) < fuel)%nat ->
        drain cancelled_is_exception fuel st ts
        = run_drain cancelled_is_exception st ts).
Proof.
  split_and!.
  - intros fuel heap startpos pos H. by apply siftdown_loop_fuel.
  - intros fuel heap pos H. apply siftup_loop_fuel; lia.
  - intros fuel st ts H. apply drain_fuel; [done|lia].
Qed.

(** * The rest of the class and of its behaviour *)

Local Transparent fl.

(** ** Rounding to a double *)

Lemma pow2_pos (k : Z) : (0 < pow2 k)%Q.
Proof. by apply Qpower_0_lt. Qed.

Lemma pow2_add (a b : Z) : (pow2 (a + b) == pow2 a * pow2 b)%Q.
Proof. by apply Qpower_plus. Qed.




Lemma pow2_div (a : Q) (s t : Z) :
  (a / pow2 s == a / pow2 (s + t) * pow2 t)%Q.
Proof.
  rewrite pow2_add. pose proof (pow2_pos s). pose proof (pow2_pos t).
  field. split; lra.
Qed.

























Opaque fl.

(** ** [int()] and the speed limit *)








(** The arithmetic of the model is that of Python's floats: [0.1] is the
    double next to a tenth; [19.5 * (1.0 + 1000 / 300)] is the double above
    84.5; [ceil(0.1 * 10 * 1)] is 1 and [ceil(0.07 * 10 * 10)] is 8; [int(1000.5 - 2**63)] is
    [-9223372036854774784]. *)
Lemma float_arithmetic_examples :
  fl 0.1 = (3602879701896397 # 36028797018963968)%Q
  /\ (speed_limit_of
        {| SEARCH_SLEEP := 2.5; SPEED_LIMIT := 19.5;
           RAIDER_PERCENT_OF_WORKERS := 0.5; GRID := (2, 2) |}
        2000.25 1000).2
     = (5946158883012609 # 70368744177664)%Q
  /\ workers_needed
       {| SEARCH_SLEEP := 2.5; SPEED_LIMIT := 19.5;
          RAIDER_PERCENT_OF_WORKERS := 0.1; GRID := (10, 1) |} = 1
  /\ workers_needed
       {| SEARCH_SLEEP := 2.5; SPEED_LIMIT := 19.5;
          RAIDER_PERCENT_OF_WORKERS := 0.07; GRID := (10, 10) |} = 8
  /\ (speed_limit_of sample_conf 1000.5 (2 ^ 63)).1 = -9223372036854774784.
Proof. vm_compute. done. Qed.

(** ** Ties in [best_worker] *)

(** The generator yields the idle workers in the order of [workers]. *)
Lemma idle_workers_order (ws : list Worker) :
  forall pre j wj post,
    idle_workers ws = pre ++ (j, wj) :: post ->
    (forall k wk, (k, wk) ∈ pre -> (k < j)%nat)
    /\ (forall k wk, (k, wk) ∈ post -> (j < k)%nat).
Proof.
  unfold idle_workers.
  assert (H : forall (ws : list Worker) n pre j wj post,
    filter (fun iw : nat * Worker => busy iw.2 = false)
      (imap (fun i w => ((n + i)%nat, w)) ws) = pre ++ (j, wj) :: post ->
    (n <= j)%nat
    /\ (forall k wk, (k, wk) ∈ pre -> (n <= k < j)%nat)
    /\ (forall k wk, (k, wk) ∈ post -> (j < k)%nat)).
  { clear. induction ws as [|w ws IH]; intros n pre j wj post Heq.
    { by destruct pre. }
    simpl in Heq.
    rewrite (imap_ext _ (fun i w => ((S n + i)%nat, w))) in Heq
      by (intros; simpl; f_equal; lia).
    rewrite filter_cons in Heq. simpl in Heq.
    destruct (decide (busy w = false)) as [Hb|Hb].
    - destruct pre as [|[k0 w0] pre]; simpl in Heq.
      + injection Heq as <- <- Hpost. split; [lia|]. split.
        { intros ? ? Hin. by apply elem_of_nil in Hin. }
        intros k wk Hin.
        destruct post as [|[k1 w1] post]; [by apply elem_of_nil in Hin|].
        apply elem_of_cons in Hin as [Hin|Hin].
        * injection Hin as -> ->.
          destruct (IH (S n) [] k1 w1 post Hpost) as (? & _). lia.
        * destruct (IH (S n) [] k1 w1 post Hpost) as (? & _ & Hp).
          specialize (Hp k wk Hin). lia.
      + injection Heq as <- <- Hrest.
        destruct (IH (S n) pre j wj post Hrest) as (Hj & Hpre & Hpost).
        split; [lia|]. split; [|done].
        intros k wk [Hin|Hin]%elem_of_cons.
        * injection Hin as -> ->. lia.
        * specialize (Hpre k wk Hin). lia.
    - destruct (IH (S n) pre j wj post Heq) as (Hj & Hpre & Hpost).
      split; [lia|]. split; [|done].
      intros k wk Hin. specialize (Hpre k wk Hin). lia. }
  intros pre j wj post Heq.
  destruct (H ws 0%nat pre j wj post) as (_ & Hpre & Hpost).
  { rewrite <- Heq. f_equal. }
  split; [|done]. intros k wk Hin. specialize (Hpre k wk Hin). lia.
Qed.

(** The [for w in gen] loop keeps the worker it has unless a later one is
    strictly faster. *)
Lemma scan_rest_first (point : Point) (gen : list (nat * Worker)) :
  forall i wi, exists j wj,
    scan_rest gen point i (Fin (travel_speed wi point))
    = (j, Fin (travel_speed wj point))
    /\ (((j, wj) = (i, wi)
         /\ forall k wk, (k, wk) ∈ gen ->
              (travel_speed wi point <= travel_speed wk point)%Q)
        \/ exists pre post,
             gen = pre ++ (j, wj) :: post
             /\ (travel_speed wj point < travel_speed wi point)%Q
             /\ (forall k wk, (k, wk) ∈ pre ->
                   (travel_speed wj point < travel_speed wk point)%Q)
             /\ (forall k wk, (k, wk) ∈ post ->
                   (travel_speed wj point <= travel_speed wk point)%Q)).
Proof.
  induction gen as [|[k wk] gen IH]; intros i wi; simpl.
  { exists i, wi. split; [done|]. left. split; [done|].
    intros ? ? H. by apply elem_of_nil in H. }
  destruct (Qltb (travel_speed wk point) (travel_speed wi point)) eqn:Hlt.
  - apply Qltb_lt in Hlt.
    destruct (IH k wk) as (j & wj & Heq & [[Hsame Hall]|Hlater]).
    + injection Hsame as -> ->. exists k, wk. split; [done|]. right.
      exists [], gen. split_and!; [done|done| |done].
      intros ? ? H. by apply elem_of_nil in H.
    + destruct Hlater as (pre & post & -> & Hj & Hpre & Hpost).
      exists j, wj. split; [done|]. right.
      exists ((k, wk) :: pre), post. split_and!; [done|lra| |done].
      intros k' wk' [H|H]%elem_of_cons; [|by apply (Hpre k' wk')].
      by injection H as -> ->.
  - apply Qltb_ge in Hlt.
    destruct (IH i wi) as (j & wj & Heq & [[Hsame Hall]|Hlater]).
    + injection Hsame as -> ->. exists i, wi. split; [done|]. left.
      split; [done|].
      intros k' wk' [H|H]%elem_of_cons; [|by apply (Hall k' wk')].
      by injection H as -> ->.
    + destruct Hlater as (pre & post & -> & Hj & Hpre & Hpost).
      exists j, wj. split; [done|]. right.
      exists ((k, wk) :: pre), post. split_and!; [done|done| |done].
      intros k' wk' [H|H]%elem_of_cons; [|by apply (Hpre k' wk')].
      injection H as -> ->. lra.
Qed.

(** X7. Ties go to the worker met first. The comparison [speed < lowest_speed]
    is strict, and the generator yields the idle workers in the order of
    [workers]: the worker returned is strictly faster than every idle
    worker before it in the list, so among idle workers of the same least
    speed the one with the least position is chosen. *)
Theorem best_worker_breaks_ties_by_position
    (conf : Conf) (env : Env) (st : State) (point : Point) (job : Job)
    (updated : Z) (skip_time : Q) (k0 : nat) (w0 : Worker) :
  running st = true ->
  workers st !! k0 = Some w0 -> busy w0 = false ->
  exists i w,
    (best_worker conf env st point job updated skip_time).2
    = BWReturn (Some i)
    /\ workers st !! i = Some w /\ busy w = false
    /\ forall k wk, workers st !! k = Some wk -> busy wk = false ->
         ((k < i)%nat -> (travel_speed w point < travel_speed wk point)%Q)
         /\ ((travel_speed wk point == travel_speed w point)%Q -> (i <= k)%nat).
Proof.
  intros Hrun Hk0 Hb0.
  assert (Hin0 : (k0, w0) ∈ idle_workers (workers st))
    by by apply idle_workers_spec.
  pose proof (idle_workers_spec (workers st)) as Hspec.
  pose proof (idle_workers_order (workers st)) as Hord.
  assert (Hscan : exists i w,
    scan (workers st) point None = (Some i, Fin (travel_speed w point))
    /\ (i, w) ∈ idle_workers (workers st)
    /\ forall k wk, (k, wk) ∈ idle_workers (workers st) -> (k < i)%nat ->
         (travel_speed w point < travel_speed wk point)%Q).
  { unfold scan.
    destruct (idle_workers (workers st)) as [|[i wi] gen];
      [by apply elem_of_nil in Hin0|].
    destruct (scan_rest_first point gen i wi)
      as (j & wj & -> & [[Hsame Hall]|Hlater]).
    - injection Hsame as -> ->. exists i, wi. split_and!; [done|left|].
      intros k wk [H|H]%elem_of_cons Hlt; [injection H as -> ->; lia|].
      destruct (Hord [] i wi gen eq_refl) as [_ Hpost].
      specialize (Hpost k wk H). lia.
    - destruct Hlater as (pre & post & -> & Hj & Hpre & Hpost).
      exists j, wj. split; [done|]. split.
      { right. apply elem_of_app. right. left. }
      intros k wk [H|H]%elem_of_cons Hlt; [by injection H as -> ->|].
      apply elem_of_app in H as [H|H]; [by apply (Hpre k wk)|].
      destruct (Hord ((i, wi) :: pre) j wj post eq_refl) as [_ Hafter].
      apply elem_of_cons in H as [H|H]; [injection H as -> ->; lia|].
      specialize (Hafter k wk H). lia. }
  destruct Hscan as (i & w & Hscan & Hin & Hfirst).
  apply Hspec in Hin as [Hi Hb]. exists i, w.
  rewrite (best_worker_picks conf env st point job updated skip_time i _
             Hrun Hscan).
  split_and!; [done..|].
  intros k wk Hk Hbk.
  assert (Hink : (k, wk) ∈ idle_workers (workers st)) by by apply Hspec.
  split; [by apply Hfirst|].
  intros Heq. destruct (decide (i <= k)%nat) as [|Hn]; [done|].
  assert (Hlt : (k < i)%nat) by lia.
  specialize (Hfirst k wk Hink Hlt). lra.
Qed.

Lemma best_worker_breaks_ties_by_position_witness :
  let st := sample_state three_idle [] true in
  let point := (1.35, 103.82)%Q in
  exists i w,
    (best_worker sample_conf (sample_env (Returns PyNone) (Returns PyNone))
       st point (sample_gym 1 (Some 0) (Some 0)) 0 54.5).2
    = BWReturn (Some i)
    /\ workers st !! i = Some w /\ busy w = false
    /\ forall k wk, workers st !! k = Some wk -> busy wk = false ->
         ((k < i)%nat -> (travel_speed w point < travel_speed wk point)%Q)
         /\ ((travel_speed wk point == travel_speed w point)%Q -> (i <= k)%nat).
Proof.
  apply (best_worker_breaks_ties_by_position sample_conf
           (sample_env (Returns PyNone) (Returns PyNone))
           (sample_state three_idle [] true) (1.35, 103.82)%Q
           (sample_gym 1 (Some 0) (Some 0)) 0 54.5 0%nat
           (sample_worker 0 false 5.0));
    reflexivity.
Defined.


(** ** One attempt, seen from outside *)

Lemma scan_idle (ws : list Worker) (point : Point) (i : nat) (l : xfloat) :
  scan ws point None = (Some i, l) ->
  exists w, ws !! i = Some w /\ busy w = false /\ l = Fin (travel_speed w point).
Proof.
  unfold scan. pose proof (idle_workers_spec ws) as Hspec.
  destruct (idle_workers ws) as [|[i0 w0] gen]; [done|].
  destruct (scan_rest_spec point gen i0 w0) as (j & wj & -> & Hin & _).
  intros [= <- <-]. exists wj.
  assert (Hj : (j, wj) ∈ (i0, w0) :: gen).
  { destruct Hin as [->|Hin]; [left|by right]. }
  apply Hspec in Hj as [Hj Hb]. done.
Qed.

Ltac read_events :=
  unfold visit_calls, put_calls, sleeps, releases, launcher_errors; simpl;
  repeat (rewrite ?omap_app, ?length_app; simpl);
  rewrite ?app_nil_r, <- ?app_assoc, ?Nat.add_0_r; simpl.

Section AttemptFacts.

Context (conf : Conf) (env : Env).

(** What [visit_block] does to the state, by the way it ends. *)
Lemma visit_block_cases st job i point upd :
  let '(st', job', r) := visit_block env st job i point upd in
  let retried := match visit1 env with
                 | Returns v => py_eq_int v (-1)
                 | Raises _ => false
                 end in
  gym_scans st' = gym_scans st /\ running st' = running st
  /\ skipped st' = skipped st
  /\ hash_burn st' = hash_burn st + (if retried then 1 else 0)
  /\ visit_calls (trace st')
     = visit_calls (trace st)
       ++ (i, point)
          :: (if retried then [(i, randomize_point env point 0.00001%Q)]
              else [])
  /\ launcher_errors (trace st') = launcher_errors (trace st)
  /\ match r with
     | BodyDone =>
       exists v, settled_visit env = Returns v /\ truthy v = true
         /\ py_eq_int v (-1) = false
         /\ job' = set_updated (py_int (time_done env)) job
         /\ visits st' = visits st + 1
         /\ workers st'
            = alter (set_scan_delayed (py_int (time_done env) - upd)) i
                (workers st)
     | BodyRaise e =>
       job' = job /\ visits st' = visits st /\ workers st' = workers st
       /\ match settled_visit env with
          | Returns v =>
            if py_eq_int v (-1) then e = GymNotFoundError
            else truthy v = false /\ e = NothingSeenAtGymSpotError
          | Raises e' => e = e'
          end
     | BodyReturn | BodyPending => False
     end.
Proof.
  unfold visit_block, settled_visit.
  assert (Hpos : forall v, py_eq_int v (-1) = true -> truthy v = true).
  { intros [| [] | n |]; simpl; try done. intros ->%Z.eqb_eq. done. }
  destruct (visit1 env) as [v1|e1];
    [|read_events; split_and!; try done; lia].
  destruct (py_eq_int v1 (-1)) eqn:E1.
  - destruct (visit2 env) as [v2|e2];
      [|read_events; split_and!; try done; lia].
    destruct (py_eq_int v2 (-1)) eqn:E2.
    + rewrite (Hpos v2 E2).
      read_events; rewrite ?E2; split_and!; try done; lia.
    + destruct (truthy v2) eqn:T2;
        read_events; rewrite ?E2; split_and!; try done; try lia.
      exists v2. split_and!; done.
  - destruct (truthy v1) eqn:T1; rewrite ?E1;
      read_events; rewrite ?E1; split_and!; try done; try lia.
    exists v1. split_and!; done.
Qed.

Lemma worker_after_visit (ws : list Worker) (i : nat) (w : Worker)
    (l : xfloat) :
  ws !! i = Some w -> busy w = false ->
  alter (set_busy false) i
    (alter (set_busy true) i (alter (set_speed l) i ws))
  = <[i := set_speed l w]> ws
  /\ forall d,
       alter (set_busy false) i
         (alter (set_scan_delayed d) i
            (alter (set_busy true) i (alter (set_speed l) i ws)))
       = <[i := set_scan_delayed d (set_speed l w)]> ws.
Proof.
  intros Hw Hb.
  assert (Hlt : (i < length ws)%nat) by by eapply lookup_lt_Some.
  split; [|intros d]; apply list_eq; intros k;
    (destruct (decide (k = i)) as [->|Hne];
     [rewrite !list_lookup_alter_eq, Hw, list_lookup_insert_eq by done;
      simpl; f_equal; destruct w; simpl in *; by subst
     |by rewrite !list_lookup_alter_ne, list_lookup_insert_ne by done]).
Qed.

(** Every attempt, in full: what it leaves alone, and what it does in each
    of the three situations it can start in. *)
Lemma try_point_cases st job :
  let a := try_point conf env st job in
  let p1 := first_point env job in
  let now := py_int (time_done env) in
  let retried := match visit1 env with
                 | Returns v => py_eq_int v (-1)
                 | Raises _ => false
                 end in
  gym_scans (final a) = gym_scans st /\ running (final a) = running st
  /\ launcher_errors (trace (final a)) = launcher_errors (trace st)
  /\ ((running st = false /\ how a = NoWorker /\ job_after a = job
       /\ workers (final a) = workers st /\ skipped (final a) = skipped st
       /\ visits (final a) = visits st /\ hash_burn (final a) = hash_burn st
       /\ visit_calls (trace (final a)) = visit_calls (trace st))
      \/ (running st = true /\ idle_workers (workers st) = []
          /\ how a = Failed UnboundLocalError /\ job_after a = job
          /\ workers (final a) = workers st
          /\ skipped (final a) = skipped st + 1
          /\ visits (final a) = visits st
          /\ hash_burn (final a) = hash_burn st
          /\ visit_calls (trace (final a)) = visit_calls (trace st))
      \/ (running st = true
          /\ exists i w,
               workers st !! i = Some w /\ busy w = false
               /\ scan (workers st) p1 None
                  = (Some i, Fin (travel_speed w p1))
               /\ hash_burn (final a)
                  = hash_burn st + (if retried then 1 else 0)
               /\ visit_calls (trace (final a))
                  = visit_calls (trace st)
                    ++ (i, p1)
                       :: (if retried
                           then [(i, randomize_point env p1 0.00001%Q)]
                           else [])
               /\ how a
                  = match settled_visit env with
                    | Returns v =>
                      if py_eq_int v (-1) then Skipped GymNotFoundError
                      else if truthy v then Visited
                           else Skipped NothingSeenAtGymSpotError
                    | Raises e =>
                      if is_cancelled e then Cancelled
                      else if is_visit_error e then Skipped e
                           else Failed e
                    end
               /\ match how a with
                  | Visited =>
                    job_after a = set_updated now job
                    /\ visits (final a) = visits st + 1
                    /\ skipped (final a) = skipped st
                    /\ workers (final a)
                       = <[i := set_scan_delayed (now - freshness job)
                                  (set_speed (Fin (travel_speed w p1)) w)]>
                           (workers st)
                  | h =>
                    job_after a = job
                    /\ visits (final a) = visits st
                    /\ skipped (final a)
                       = skipped st
                         + (match h with Cancelled => 0 | _ => 1 end)
                    /\ workers (final a)
                       = <[i := set_speed (Fin (travel_speed w p1)) w]>
                           (workers st)
                  end)).
Proof.
  cbv zeta. unfold try_point.
  destruct (running st) eqn:Hrun.
  2:{ rewrite try_body_stopped by done.
      rewrite finish_how, finish_job, finish_final.
      destruct (cleanup_frame (time_requeue env) job st)
        as (Hw & Hs & Hv & Hh & Hr).
      rewrite cleanup_trace. unfold cleanup, add_job.
      destruct (put_nowait _ _) as [q [e|]]; read_events;
        split_and!; try done; left; split_and!; try done. }
  destruct (scan_cases (workers st) (first_point env job))
    as [[Hidle _]|(i & l & Hscan)].
  { rewrite try_body_unbound by done. cbn [is_cancelled is_visit_error].
    rewrite finish_how, finish_job, finish_final.
    unfold speed_log. destruct (speed_limit_of _ _ _) as [td sl].
    rewrite cleanup_trace. unfold cleanup, add_job.
    destruct (put_nowait _ _) as [q [e|]]; read_events;
      (split_and!; try done; right; left; split_and!; try done). }
  rewrite (try_body_picked conf env st job i l Hrun Hscan).
  destruct (scan_idle _ _ _ _ Hscan) as (w & Hw & Hb & ->).
  pose proof (visit_block_cases
    (engaged conf env st job i (Fin (travel_speed w (first_point env job))))
    job i (first_point env job) (freshness job)) as H.
  destruct (visit_block _ _ _ _ _ _) as [[st' job'] r].
  cbv zeta in H. destruct H as (Hg & Hr & Hs & Hh & Hv & He & Hend).
  destruct (worker_after_visit (workers st) i w
              (Fin (travel_speed w (first_point env job))) Hw Hb)
    as [Hw1 Hw2].
  assert (Hbase : gym_scans st' = gym_scans st /\ running st' = running st
    /\ launcher_errors (trace st') = launcher_errors (trace st)
    /\ skipped st' = skipped st
    /\ hash_burn st' = hash_burn st
         + (if match visit1 env with
               | Returns v => py_eq_int v (-1)
               | Raises _ => false
               end then 1 else 0)
    /\ visit_calls (trace st')
       = visit_calls (trace st)
         ++ (i, first_point env job)
            :: (if match visit1 env with
                   | Returns v => py_eq_int v (-1)
                   | Raises _ => false
                   end
                then [(i, randomize_point env (first_point env job)
                            0.00001%Q)]
                else [])).
  { rewrite Hg, Hr, Hs, Hh, Hv, He. unfold engaged, speed_log.
    destruct (speed_limit_of _ _ _) as [td sl]. by read_events. }
  clear Hg Hr Hs Hh Hv He.
  destruct Hbase as (Hg & Hr & He & Hs & Hh & Hv).
  assert (Hfin : forall st'' h pending,
    gym_scans st'' = gym_scans st' -> running st'' = running st' ->
    launcher_errors (trace st'') = launcher_errors (trace st') ->
    hash_burn st'' = hash_burn st' ->
    visit_calls (trace st'') = visit_calls (trace st') ->
    let a := finish env st'' job' h pending in
    gym_scans (final a) = gym_scans st /\ running (final a) = running st
    /\ launcher_errors (trace (final a)) = launcher_errors (trace st)
    /\ hash_burn (final a) = hash_burn st
         + (if match visit1 env with
               | Returns v => py_eq_int v (-1)
               | Raises _ => false
               end then 1 else 0)
    /\ visit_calls (trace (final a))
       = visit_calls (trace st)
         ++ (i, first_point env job)
            :: (if match visit1 env with
                   | Returns v => py_eq_int v (-1)
                   | Raises _ => false
                   end
                then [(i, randomize_point env (first_point env job)
                            0.00001%Q)]
                else [])
    /\ how a = h /\ job_after a = job'
    /\ workers (final a) = workers st'' /\ skipped (final a) = skipped st''
    /\ visits (final a) = visits st'').
  { intros st'' h pending Hg'' Hr'' He'' Hh'' Hv''. cbv zeta.
    rewrite finish_how, finish_job, finish_final, cleanup_workers,
      cleanup_skipped, cleanup_visits, cleanup_hash_burn.
    rewrite <- Hg, <- Hr, <- He, <- Hh, <- Hv, <- Hg'', <- Hr'', <- He'',
      <- Hh'', <- Hv''.
    rewrite cleanup_trace. unfold cleanup, add_job.
    destruct (put_nowait _ _) as [q [e|]]; read_events; split_and!; done. }
  destruct r as [| |e|]; [done| | |done].
  - destruct Hend as (v & Hsv & Ht & Hne & -> & Hvis & Hwk).
    destruct (Hfin (with_workers (alter (set_busy false) i (workers st')) st')
                Visited None)
      as (F1 & F2 & F3 & F4 & F5 & F6 & F7 & F8 & F9 & F10); try done.
    split_and!; try congruence. right. right. split; [done|]. exists i, w.
    rewrite F6, Hsv, Hne, Ht.
    split_and!; try done; rewrite ?F8, ?F9, ?F10; simpl;
      rewrite ?Hwk, ?Hvis; unfold engaged; simpl; rewrite ?Hw2; done.
  - destruct Hend as (-> & Hvis & Hwk & Hsv).
    assert (Hhow : (if is_cancelled e then Cancelled
                    else if is_visit_error e then Skipped e else Failed e)
      = match settled_visit env with
        | Returns v =>
          if py_eq_int v (-1) then Skipped GymNotFoundError
          else if truthy v then Visited
               else Skipped NothingSeenAtGymSpotError
        | Raises e =>
          if is_cancelled e then Cancelled
          else if is_visit_error e then Skipped e else Failed e
        end).
    { destruct (settled_visit env) as [v|e']; [|by subst].
      destruct (py_eq_int v (-1)); [by subst|].
      destruct Hsv as [-> ->]. done. }
    rewrite <- Hhow. clear Hhow Hsv.
    assert (Hwf : alter (set_busy false) i (workers st')
                  = <[i := set_speed (Fin (travel_speed w (first_point env job))) w]>
                      (workers st)).
    { rewrite Hwk. unfold engaged. simpl. apply Hw1. }
    destruct (is_cancelled e) eqn:Hc.
    + destruct (Hfin (with_workers (alter (set_busy false) i (workers st')) st')
                  Cancelled (Some CancelledError))
        as (F1 & F2 & F3 & F4 & F5 & F6 & F7 & F8 & F9 & F10); try done.
      split_and!; try congruence. right. right. split; [done|]. exists i, w.
      rewrite F6.
      split_and!; try done; rewrite ?F8, ?F9, ?F10; simpl; rewrite ?Hwf;
        try done; lia.
    + destruct (is_visit_error e) eqn:Hve.
      * destruct (Hfin
          (emit (LogGymVisitError e)
             (with_skipped
                (skipped (with_workers (alter (set_busy false) i (workers st'))
                            st') + 1)
                (with_workers (alter (set_busy false) i (workers st')) st')))
          (Skipped e) None)
          as (F1 & F2 & F3 & F4 & F5 & F6 & F7 & F8 & F9 & F10);
          try done; try by read_events.
        split_and!; try congruence. right. right. split; [done|]. exists i, w.
        rewrite F6.
        split_and!; try done; rewrite ?F8, ?F9, ?F10; simpl; rewrite ?Hwf;
          try done; lia.
      * destruct (Hfin
          (emit (LogException e)
             (with_skipped
                (skipped (with_workers (alter (set_busy false) i (workers st'))
                            st') + 1)
                (with_workers (alter (set_busy false) i (workers st')) st')))
          (Failed e) None)
          as (F1 & F2 & F3 & F4 & F5 & F6 & F7 & F8 & F9 & F10);
          try done; try by read_events.
        split_and!; try congruence. right. right. split; [done|]. exists i, w.
        rewrite F6.
        split_and!; try done; rewrite ?F8, ?F9, ?F10; simpl; rewrite ?Hwf;
          try done; lia.
Qed.

End AttemptFacts.


(** X8. An attempt is counted once. Whatever the answers of the outside world,
    an attempt that reaches a verdict adds one to [visits] or one to
    [skipped], never to both; one that finds the system stopped or is
    cancelled adds to neither. [hash_burn] grows by one exactly when a
    second visit is made, [gym_scans] and the run flag are never written,
    and the job is changed by a successful visit only. *)
Theorem attempt_is_counted_once
    (conf : Conf) (env : Env) (st : State) (job : Job) :
  let a := try_point conf env st job in
  gym_scans (final a) = gym_scans st
  /\ running (final a) = running st
  /\ visits (final a)
     = visits st + (match how a with Visited => 1 | _ => 0 end)
  /\ skipped (final a)
     = skipped st + (match how a with Skipped _ | Failed _ => 1 | _ => 0 end)
  /\ hash_burn st <= hash_burn (final a) <= hash_burn st + 1
  /\ (length (visit_calls (trace (final a)))
      <= length (visit_calls (trace st)) + 2)%nat
  /\ (hash_burn (final a) = hash_burn st + 1
      <-> length (visit_calls (trace (final a)))
          = (length (visit_calls (trace st)) + 2)%nat)
  /\ (how a <> Visited -> job_after a = job)
  /\ how a <> Suspended.
Proof.
  cbv zeta.
  destruct (try_point_cases conf env st job) as (Hg & Hr & _ & Hcases).
  cbv zeta in Hcases. split; [done|]. split; [done|].
  destruct Hcases as [Hc|[Hc|[_ (i & w & _ & _ & _ & Hh & Hv & Hhow & Hend)]]].
  - destruct Hc as (_ & -> & Hj & _ & Hs & Hvi & Hh & Hv).
    rewrite Hs, Hvi, Hh, Hv. split_and!; try done; lia.
  - destruct Hc as (_ & _ & -> & Hj & _ & Hs & Hvi & Hh & Hv).
    rewrite Hs, Hvi, Hh, Hv. split_and!; try done; lia.
  - rewrite Hh, Hv, length_app.
    assert (Hsusp : how (try_point conf env st job) <> Suspended
                    /\ how (try_point conf env st job) <> NoWorker).
    { rewrite Hhow. repeat case_match; done. }
    destruct Hsusp as [Hsusp Hnow].
    destruct (how (try_point conf env st job)) eqn:Hhw; try done;
      destruct Hend as (Hj & Hvi & Hs & _); rewrite Hvi, Hs;
      destruct (match visit1 env with
                | Returns v => py_eq_int v (-1)
                | Raises _ => false
                end); simpl; split_and!; try done; lia.
Qed.

(** X9. The verdict of an attempt is a function of the visit that settles it.
    With the system running and a worker idle, one or two visits are made,
    both by the worker chosen, the second at the point of the first moved
    by 0.00001; a result equal to [-1] ends as [GymNotFoundError], any other
    truthy result as a visit, a falsy one ([None], [False], [0], an empty
    container) as [NothingSeenAtGymSpotError]; an exception raised by the
    visit ends the attempt as cancelled, skipped or failed by its class. *)
Theorem verdict_follows_the_settled_visit
    (conf : Conf) (env : Env) (st : State) (job : Job)
    (k0 : nat) (w0 : Worker) :
  running st = true ->
  workers st !! k0 = Some w0 -> busy w0 = false ->
  let a := try_point conf env st job in
  let p1 := randomize_point env (lat job, lon job) 0.00003%Q in
  let retried := match visit1 env with
                 | Returns v => py_eq_int v (-1)
                 | Raises _ => false
                 end in
  how a = match settled_visit env with
          | Returns v =>
            if py_eq_int v (-1) then Skipped GymNotFoundError
            else if truthy v then Visited
                 else Skipped NothingSeenAtGymSpotError
          | Raises e =>
            if is_cancelled e then Cancelled
            else if is_visit_error e then Skipped e
                 else Failed e
          end
  /\ exists i w,
       workers st !! i = Some w /\ busy w = false
       /\ visit_calls (trace (final a))
          = visit_calls (trace st)
            ++ (i, p1)
               :: (if retried then [(i, randomize_point env p1 0.00001%Q)]
                   else []).
Proof.
  intros Hrun Hk0 Hb0. cbv zeta.
  destruct (try_point_cases conf env st job) as (_ & _ & _ & Hcases).
  cbv zeta in Hcases.
  destruct Hcases as [Hc|[Hc|[_ (i & w & Hw & Hb & _ & _ & Hv & Hhow & _)]]].
  - destruct Hc as (Hstop & _). congruence.
  - destruct Hc as (_ & Hidle & _).
    assert (Hin : (k0, w0) ∈ idle_workers (workers st))
      by by apply idle_workers_spec.
    rewrite Hidle in Hin. by apply elem_of_nil in Hin.
  - split; [done|]. by exists i, w.
Qed.

Lemma verdict_follows_the_settled_visit_witness :
  let env := sample_env (Returns (PyInt (-1))) (Returns (PyInt 0)) in
  let st := sample_state two_idle [] true in
  let job := sample_gym 7 (Some 900) (Some 850) in
  let a := try_point sample_conf env st job in
  let p1 := randomize_point env (lat job, lon job) 0.00003%Q in
  let retried := match visit1 env with
                 | Returns v => py_eq_int v (-1)
                 | Raises _ => false
                 end in
  how a = match settled_visit env with
          | Returns v =>
            if py_eq_int v (-1) then Skipped GymNotFoundError
            else if truthy v then Visited
                 else Skipped NothingSeenAtGymSpotError
          | Raises e =>
            if is_cancelled e then Cancelled
            else if is_visit_error e then Skipped e
                 else Failed e
          end
  /\ exists i w,
       workers st !! i = Some w /\ busy w = false
       /\ visit_calls (trace (final a))
          = visit_calls (trace st)
            ++ (i, p1)
               :: (if retried then [(i, randomize_point env p1 0.00001%Q)]
                   else []).
Proof.
  apply (verdict_follows_the_settled_visit sample_conf
           (sample_env (Returns (PyInt (-1))) (Returns (PyInt 0)))
           (sample_state two_idle [] true)
           (sample_gym 7 (Some 900) (Some 850)) 0%nat
           (sample_worker 0 false 5.0));
    reflexivity.
Defined.

(** X10. Of the worker list, the code of an attempt rewrites one entry at
    most, and the list keeps its length. All other entries are as they
    were. The worker chosen was idle; its number is as it was and its lock
    is given back however the visit ends; [scan_delayed] is written by a
    successful visit only; every visit of the attempt was made by it. What
    a visit does inside the worker is the code of [Worker.visit], which
    this file does not contain: the worker's position, and so its later
    travel speeds, are not covered. *)
Theorem attempt_changes_one_worker
    (conf : Conf) (env : Env) (st : State) (job : Job) :
  let a := try_point conf env st job in
  length (workers (final a)) = length (workers st)
  /\ exists i new,
       (forall k, k <> i -> workers (final a) !! k = workers st !! k)
       /\ (forall w, workers st !! i = Some w ->
             exists w',
               workers (final a) !! i = Some w'
               /\ worker_no w' = worker_no w /\ busy w' = busy w
               /\ (how a <> Visited -> scan_delayed w' = scan_delayed w))
       /\ visit_calls (trace (final a)) = visit_calls (trace st) ++ new
       /\ forall jp, jp ∈ new ->
            jp.1 = i
            /\ exists w, workers st !! i = Some w /\ busy w = false.
Proof.
  cbv zeta.
  destruct (try_point_cases conf env st job) as (_ & _ & _ & Hcases).
  cbv zeta in Hcases.
  assert (Hsame : workers (final (try_point conf env st job)) = workers st ->
    visit_calls (trace (final (try_point conf env st job)))
    = visit_calls (trace st) ->
    length (workers (final (try_point conf env st job)))
    = length (workers st)
    /\ exists i new,
         (forall k, k <> i ->
            workers (final (try_point conf env st job)) !! k
            = workers st !! k)
         /\ (forall w, workers st !! i = Some w ->
               exists w',
                 workers (final (try_point conf env st job)) !! i = Some w'
                 /\ worker_no w' = worker_no w /\ busy w' = busy w
                 /\ (how (try_point conf env st job) <> Visited ->
                     scan_delayed w' = scan_delayed w))
         /\ visit_calls (trace (final (try_point conf env st job)))
            = visit_calls (trace st) ++ new
         /\ forall jp, jp ∈ new ->
              jp.1 = i
              /\ exists w, workers st !! i = Some w /\ busy w = false).
  { intros -> ->. split; [done|]. exists 0%nat, [].
    split_and!; [done| |by rewrite app_nil_r|].
    - intros w Hw. by exists w.
    - intros jp Hin. by apply elem_of_nil in Hin. }
  destruct Hcases as [Hc|[Hc|[_ (i & w & Hw & Hb & _ & _ & Hv & _ & Hend)]]].
  - apply Hsame; apply Hc.
  - apply Hsame; apply Hc.
  - assert (Hlt : (i < length (workers st))%nat) by by eapply lookup_lt_Some.
    assert (Hwk : exists w',
      workers (final (try_point conf env st job)) = <[i := w']> (workers st)
      /\ worker_no w' = worker_no w /\ busy w' = busy w
      /\ (how (try_point conf env st job) <> Visited ->
          scan_delayed w' = scan_delayed w)).
    { destruct (how (try_point conf env st job));
        destruct Hend as (_ & _ & _ & ->); eexists;
        (split; [reflexivity|]); simpl; split_and!; done. }
    destruct Hwk as (w' & -> & Hno & Hbusy & Hsd).
    split; [by rewrite length_insert|]. eexists i, _.
    split_and!; [| |exact Hv|].
    + intros k Hk. by rewrite list_lookup_insert_ne.
    + intros w1 Hw1. exists w'. rewrite list_lookup_insert_eq by done.
      by simplify_eq.
    + intros jp Hin. split; [|by exists w].
      apply elem_of_cons in Hin as [->|Hin]; [done|].
      destruct (match visit1 env with
                | Returns v => py_eq_int v (-1)
                | Raises _ => false
                end); [|by apply elem_of_nil in Hin].
      by apply list_elem_of_singleton in Hin as ->.
Qed.


(** ** The jobs of the system *)

Lemma job_after_fixed (conf : Conf) (env : Env) (st : State) (job : Job) :
  fixed_fields (job_after (try_point conf env st job)) = fixed_fields job.
Proof.
  destruct (try_point_cases conf env st job) as (_ & _ & _ & Hcases).
  cbv zeta in Hcases.
  destruct Hcases as [Hc|[Hc|[_ (i & w & _ & _ & _ & _ & _ & _ & Hend)]]].
  - by destruct Hc as (_ & _ & -> & _).
  - by destruct Hc as (_ & _ & _ & -> & _).
  - destruct (how (try_point conf env st job));
      by destruct Hend as (-> & _).
Qed.

Section Jobs.

Context (conf : Conf) (cancelled_is_exception : bool).

(** The failures the launcher logs only add up; and a round of the inner
    loop that logs none has moved jobs from the queue to attempts, or to
    the launcher's hand, without losing or doubling any. *)
Lemma drain_jobs (fuel : nat) :
  forall st ts,
    let r := drain cancelled_is_exception fuel st ts in
    exists errs,
      launcher_errors (trace r.1.1) = launcher_errors (trace st) ++ errs
      /\ (errs = [] ->
          (snd <$> job_queue r.1.1) ++ r.2 ++ held r.1.2
          ≡ₚ (snd <$> job_queue st) ++ ts).
Proof.
  induction fuel as [|fuel IH]; intros st ts; cbv zeta; simpl.
  { exists []. by rewrite !app_nil_r. }
  destruct (empty (job_queue st)).
  { exists []. read_events. by rewrite ?app_nil_r. }
  destruct (get (job_queue st)) as [[q [item|e]]|] eqn:Hget.
  - apply heappop_perm in Hget.
    destruct (0 <? coroutine_semaphore st).
    + destruct (IH (with_semaphore (coroutine_semaphore st - 1)
                      (with_job_queue q st)) (ts ++ [item.2]))
        as (errs & Herr & Hjobs).
      exists errs. split; [done|]. intros Hnone.
      rewrite (Hjobs Hnone). simpl. rewrite Hget. simpl.
      rewrite app_assoc. symmetry. apply Permutation_cons_append.
    + exists []. simpl. rewrite Hget. simpl. split; [by rewrite app_nil_r|].
      intros _. rewrite app_assoc. symmetry. apply Permutation_cons_append.
  - apply get_raises in Hget as ->. rewrite body_raises_caught by done.
    exists [TypeError]. by read_events.
  - exists []. simpl. by rewrite !app_nil_r.
Qed.

Lemma step_jobs (inp : input) (sys : System) :
  let sys' := step conf cancelled_is_exception inp sys in
  exists errs,
    launcher_errors (trace (shared sys'))
    = launcher_errors (trace (shared sys)) ++ errs
    /\ (cancels inp = false -> errs = [] ->
        fixed_fields <$> jobs_of sys' ≡ₚ fixed_fields <$> jobs_of sys).
Proof.
  cbv zeta. unfold step, jobs_of.
  assert (Hsame : exists errs,
    launcher_errors (trace (shared sys))
    = launcher_errors (trace (shared sys)) ++ errs
    /\ (cancels inp = false -> errs = [] ->
        fixed_fields <$> (snd <$> job_queue (shared sys)) ++ tasks sys
                         ++ held (loop sys)
        ≡ₚ fixed_fields <$> (snd <$> job_queue (shared sys)) ++ tasks sys
                            ++ held (loop sys))).
  { exists []. by rewrite app_nil_r. }
  destruct inp as [| |e|k env].
  - destruct (loop sys) as [job| |] eqn:Hl; [| |(simpl; rewrite ?Hl; exact Hsame)].
    + destruct (0 <? coroutine_semaphore (shared sys)); [|(simpl; rewrite ?Hl; exact Hsame)].
      destruct (drain_jobs
        (S (length (job_queue (with_semaphore
           (coroutine_semaphore (shared sys) - 1) (shared sys)))))
        (with_semaphore (coroutine_semaphore (shared sys) - 1) (shared sys))
        (tasks sys ++ [job])) as (errs & Herr & Hjobs).
      unfold run_drain. destruct (drain _ _ _ _) as [[st' l] ts'].
      simpl in *. exists errs. split; [done|]. intros _ Hnone.
      by rewrite (Hjobs Hnone).
    + destruct (drain_jobs (S (length (job_queue (shared sys))))
                  (shared sys) (tasks sys)) as (errs & Herr & Hjobs).
      unfold run_drain. destruct (drain _ _ _ _) as [[st' l] ts'].
      simpl in *. exists errs. split; [done|]. intros _ Hnone.
      by rewrite (Hjobs Hnone), app_nil_r.
  - destruct (loop sys) as [job| |] eqn:Hl; [|exists []; by rewrite app_nil_r|(simpl; rewrite ?Hl; exact Hsame)].
    unfold body_raises. destruct (caught_as_exception _ _);
      [exists [CancelledError]|exists []]; by read_events.
  - destruct (loop sys) as [job| |] eqn:Hl; [| |(simpl; rewrite ?Hl; exact Hsame)];
      (destruct (is_cancelled e) eqn:He;
       [exists (if caught_as_exception cancelled_is_exception e
                then [e] else []);
        unfold body_raises; destruct (caught_as_exception _ _);
        read_events; (split; [done|]); by destruct e
       |rewrite body_raises_caught by done; exists [e]; by read_events]).
  - destruct (tasks sys !! k) as [job|] eqn:Hk;
      [|destruct (loop sys) eqn:Hl; simpl; rewrite ?Hl; exact Hsame].
    destruct (try_point_cases conf env (shared sys) job) as (_ & _ & He & _).
    destruct (try_point_requeue conf env (shared sys) job)
      as (Hhow & _ & Hq).
    pose proof (job_after_fixed conf env (shared sys) job) as Hfix.
    exists []. simpl. split; [by rewrite app_nil_r|]. intros _ _.
    assert (Hts : match how (try_point conf env (shared sys) job) with
                  | Suspended => tasks sys
                  | _ => delete k (tasks sys)
                  end = delete k (tasks sys))
      by by destruct (how _).
    rewrite Hts, Hq. rewrite (delete_Permutation (tasks sys) k job Hk) at 2.
    rewrite !fmap_app. simpl. rewrite Hfix.
    rewrite <- !app_assoc. apply Permutation_app_head. simpl.
    by rewrite <- !fmap_app.
Qed.

Lemma run_jobs (inputs : list input) :
  forall sys,
    let sys' := run conf cancelled_is_exception inputs sys in
    exists errs,
      launcher_errors (trace (shared sys'))
      = launcher_errors (trace (shared sys)) ++ errs
      /\ (forallb (fun inp => negb (cancels inp)) inputs = true ->
          errs = [] ->
          fixed_fields <$> jobs_of sys' ≡ₚ fixed_fields <$> jobs_of sys).
Proof.
  induction inputs as [|inp inputs IH]; intros sys; cbv zeta.
  { exists []. by rewrite app_nil_r. }
  simpl. destruct (step_jobs inp sys) as (e1 & He1 & Hj1).
  destruct (IH (step conf cancelled_is_exception inp sys))
    as (e2 & He2 & Hj2).
  exists (e1 ++ e2). split; [by rewrite He2, He1, app_assoc|].
  intros [Hinp Hrest]%andb_true_iff [-> ->]%app_eq_nil.
  apply negb_true_iff in Hinp.
  by rewrite (Hj2 Hrest eq_refl), (Hj1 Hinp eq_refl).
Qed.

End Jobs.

(** X11. No job is lost or doubled while the launcher logs nothing. Along a run
    without cancellation in which the launcher logs no failure, the gyms
    queued, under attempt or in the launcher's hand stay the same gyms,
    each as often as before; only their ['updated'] changes. *)
Theorem jobs_are_neither_lost_nor_doubled
    (conf : Conf) (cancelled_is_exception : bool)
    (inputs : list input) (sys : System) :
  forallb (fun inp => negb (cancels inp)) inputs = true ->
  let sys' := run conf cancelled_is_exception inputs sys in
  launcher_errors (trace (shared sys')) = launcher_errors (trace (shared sys)) ->
  fixed_fields <$> jobs_of sys' ≡ₚ fixed_fields <$> jobs_of sys.
Proof.
  intros Hinp. cbv zeta. intros Herr.
  destruct (run_jobs conf cancelled_is_exception inputs sys)
    as (errs & He & Hj).
  apply Hj; [done|]. rewrite He in Herr.
  rewrite <- (app_nil_r (launcher_errors (trace (shared sys)))) in Herr at 2.
  by apply app_inv_head in Herr.
Qed.

Lemma jobs_are_neither_lost_nor_doubled_witness :
  let inputs := [Finish 0 (sample_env_at 1000 (Returns (PyInt 1)));
                 Finish 0 (sample_env_at 1001 (Raises (OtherException "timeout")));
                 Wake] in
  let sys' := run sample_conf false inputs sample_launch in
  fixed_fields <$> jobs_of sys' ≡ₚ fixed_fields <$> jobs_of sample_launch.
Proof.
  apply (jobs_are_neither_lost_nor_doubled sample_conf false
           [Finish 0 (sample_env_at 1000 (Returns (PyInt 1)));
            Finish 0 (sample_env_at 1001 (Raises (OtherException "timeout")));
            Wake]
           sample_launch);
    reflexivity.
Defined.


(** ** Where a job is lost *)

(** A [get] that raises has dropped the item at the head of the queue. *)
Lemma get_raises_drops (q q' : list Entry) (e : exn) :
  get q = Some (q', inr e) ->
  exists item, q !! 0%nat = Some item /\ q ≡ₚ item :: q'.
Proof.
  unfold get, heappop. destruct (last q) as [lastelt|] eqn:Hlast; [|done].
  apply last_Some in Hlast as [front ->]. rewrite removelast_last.
  destruct front as [|returnitem rest]; [done|]. cbn [insert list_insert].
  pose proof (siftup_loop_perm (length (lastelt :: rest)) (lastelt :: rest)
                0 0) as Hperm.
  unfold siftup.
  destruct (siftup_loop _ _ _ _) as [heap2 [e'|]]; [|done].
  intros [= <- <-]. exists returnitem. split; [done|].
  simpl in Hperm. rewrite Hperm. simpl.
  by rewrite <- Permutation_cons_append.
Qed.

(** X12. The launcher loses the job it has popped when the code after the [get]
    fails. A failure or a cancellation that reaches it in [acquire()] is
    logged by the inner [except Exception] where that clause catches it,
    and ends the launcher where it does not; either way the job in its hand
    is in no queue and no attempt afterwards. A [get] that raises (it can
    only raise the [TypeError] of a comparison) has already taken the head
    of the queue, the stalest job, out; that job is gone as well. Such a
    [get] is met on a queue that three [add_job] calls have built without
    any of them raising. *)
Theorem launcher_failure_drops_a_job
    (conf : Conf) (cancelled_is_exception : bool) :
  (forall sys job e,
     loop sys = Acquiring job ->
     let sys' := step conf cancelled_is_exception (Fault e) sys in
     loop sys' = (if caught_as_exception cancelled_is_exception e
                  then Sleeping else Stopped)
     /\ jobs_of sys = jobs_of sys' ++ [job])
  /\ (forall sys job,
        loop sys = Acquiring job ->
        let sys' := step conf cancelled_is_exception Cancel sys in
        loop sys' = (if cancelled_is_exception then Sleeping else Stopped)
        /\ jobs_of sys = jobs_of sys' ++ [job])
  /\ (forall st ts q e,
        get (job_queue st) = Some (q, inr e) ->
        let sys := {| shared := st; loop := Sleeping; tasks := ts |} in
        let sys' := step conf cancelled_is_exception Wake sys in
        e = TypeError
        /\ loop sys' = Sleeping /\ tasks sys' = ts
        /\ exists item,
             job_queue st !! 0%nat = Some item
             /\ jobs_of sys ≡ₚ item.2 :: jobs_of sys')
  /\ (let a := sample_gym 1 (Some 0) (Some 0) in
      let b := sample_gym 2 (Some 0) (Some 0) in
      let c := sample_gym 3 (Some 0) (Some 0) in
      let r := add_jobs [(a, 1%Q); (b, 2%Q); (c, 2%Q)]
                 (sample_state two_idle [] true) in
      r.2 = None
      /\ get (job_queue r.1)
         = Some ([(0, 2%Q, b); (0, 2%Q, c)], inr TypeError)).
Proof.
  split_and!.
  - intros sys job e Hl. cbv zeta. unfold step, jobs_of. rewrite Hl.
    unfold body_raises. destruct (caught_as_exception _ _); simpl;
      by rewrite ?app_nil_r, <- ?app_assoc.
  - intros sys job Hl. cbv zeta. unfold step, jobs_of. rewrite Hl.
    unfold body_raises, caught_as_exception. simpl.
    destruct cancelled_is_exception; simpl; by rewrite ?app_nil_r, <- ?app_assoc.
  - intros st ts q e Hget. cbv zeta.
    destruct (get_raises_drops _ _ _ Hget) as (item & Hhead & Hperm).
    pose proof (get_raises _ _ _ Hget) as ->.
    assert (Hne : empty (job_queue st) = false).
    { unfold empty, qsize. by destruct (job_queue st). }
    unfold step, run_drain. simpl. rewrite Hne, Hget.
    rewrite (body_raises_caught cancelled_is_exception) by done.
    split_and!; try done. exists item. split; [done|].
    unfold jobs_of. simpl. by rewrite Hperm.
  - vm_compute. done.
Qed.


(** ** [preload] *)

Lemma preload_loop_add_jobs (in_bounds : Point -> bool)
    (forts : list (Fort * Q)) :
  forall st,
    preload_loop in_bounds forts st
    = add_jobs (in_bounds_gyms in_bounds forts) st.
Proof.
  unfold in_bounds_gyms.
  induction forts as [|[fort now] forts IH]; intros st; [done|].
  cbn [preload_loop]. rewrite filter_cons.
  destruct (decide _) as [Hin|Hin]; simpl in Hin.
  - rewrite Hin. simpl.
    destruct (add_job now (gym_of_fort fort) st) as [st' [e|]]; [done|].
    apply IH.
  - apply not_true_is_false in Hin. rewrite Hin. apply IH.
Qed.

Lemma in_bounds_gyms_in_bounds (in_bounds : Point -> bool)
    (forts : list (Fort * Q)) (gym : Job) (now : Q) :
  (gym, now) ∈ in_bounds_gyms in_bounds forts ->
  in_bounds (lat gym, lon gym) = true
  /\ exists fort, (fort, now) ∈ forts /\ gym = gym_of_fort fort.
Proof.
  unfold in_bounds_gyms. intros ([fort now'] & Heq & Hin)%list_elem_of_fmap.
  apply list_elem_of_filter in Hin as [Hb Hin]. simpl in *.
  injection Heq as -> ->. split; [|by exists fort].
  unfold gym_of_fort. by destruct (sightings fort).
Qed.

(** A run of [add_job] calls stops at the first call that raises: the
    queue has received the items of the calls up to and including that
    one, and the calls after it are not made. *)
Lemma add_jobs_prefix (jobs : list (Job * Q)) :
  forall st,
    exists n,
      (n <= length jobs)%nat
      /\ put_calls (trace (add_jobs jobs st).1)
         = put_calls (trace st) ++ (item_of <$> take n jobs)
      /\ job_queue (add_jobs jobs st).1
         ≡ₚ job_queue st ++ (item_of <$> take n jobs)
      /\ match (add_jobs jobs st).2 with
         | None => n = length jobs
         | Some e => e = TypeError /\ (0 < n)%nat
         end
      /\ add_jobs jobs st = add_jobs (take n jobs) st
      /\ (forall e, (add_jobs jobs st).2 = Some e ->
          exists m gym now,
            n = S m
            /\ (add_jobs (take m jobs) st).2 = None
            /\ jobs !! m = Some (gym, now)
            /\ (add_job now gym (add_jobs (take m jobs) st).1).2
               = Some TypeError).
Proof.
  induction jobs as [|[gym now] jobs IH]; intros st.
  { exists 0%nat. simpl. rewrite !app_nil_r. split_and!; try done. }
  simpl.
  pose proof (add_job_trace now gym st) as Ht.
  pose proof (add_job_queue now gym st) as Hq.
  pose proof (add_job_raised now gym st) as Hr.
  destruct (add_job now gym st) as [st' [e|]] eqn:Hadd; simpl in *.
  - assert (He : e = TypeError).
    { symmetry in Hr. unfold put_nowait, heappush, siftdown in Hr.
      by apply siftdown_loop_raises in Hr. }
    exists 1%nat. simpl. rewrite Ht, Hq, Hadd. unfold put_calls.
    rewrite omap_app. simpl.
    split_and!; [lia|done|apply heappush_perm|done|lia|done|].
    intros e' _. exists 0%nat, gym, now. simpl. rewrite Hadd. simpl.
    by rewrite He.
  - destruct (IH st') as (n & Hn & Hput & Hperm & Hend & Hstop & Hlast).
    exists (S n). simpl. rewrite Hput, Hperm, Ht, Hq, Hadd. unfold put_calls.
    rewrite omap_app. simpl. rewrite <- !app_assoc. simpl.
    split_and!; [lia|done| | |done|].
    + rewrite heappush_perm. by rewrite <- app_assoc.
    + destruct ((add_jobs jobs st').2) as [e|]; [|lia].
      split; [apply Hend|lia].
    + intros e He. destruct (Hlast e He) as (m & g & t & -> & Hm & Hg & Hraise).
      exists (S m), g, t. simpl. rewrite Hadd. done.
Qed.

(** X13. [preload] loads a prefix. The [add_job] calls it makes are those
    for the first [n] forts within the bounds, in the order of the query,
    each once, and for no fort outside the bounds; the queue has received
    their items. If no call raises, [n] is the number of the forts within
    the bounds and nothing is logged. A call that raises is the [n]-th and
    raises a [TypeError], its item is in the queue all the same, the calls
    before it raised nothing, [preload] logs the error and takes it as the
    end of the loading: the forts after that one are not queued. *)
Theorem preload_loads_a_prefix
    (in_bounds : Point -> bool) (forts : list (Fort * Q)) (st : State) :
  let st' := preload in_bounds forts st in
  let gyms := in_bounds_gyms in_bounds forts in
  exists n,
    (n <= length gyms)%nat
    /\ put_calls (trace st') = put_calls (trace st) ++ (item_of <$> take n gyms)
    /\ job_queue st' ≡ₚ job_queue st ++ (item_of <$> take n gyms)
    /\ Forall (fun item : Entry => in_bounds (lat item.2, lon item.2) = true)
         (item_of <$> take n gyms)
    /\ preload_loop in_bounds forts st = add_jobs (take n gyms) st
    /\ match (preload_loop in_bounds forts st).2 with
       | None =>
         n = length gyms /\ st' = (preload_loop in_bounds forts st).1
       | Some e =>
         e = TypeError
         /\ trace st'
            = trace (preload_loop in_bounds forts st).1
              ++ [LogException TypeError]
         /\ exists m gym now,
              n = S m
              /\ (add_jobs (take m gyms) st).2 = None
              /\ gyms !! m = Some (gym, now)
              /\ (add_job now gym (add_jobs (take m gyms) st).1).2
                 = Some TypeError
       end.
Proof.
  cbv zeta. unfold preload. rewrite preload_loop_add_jobs.
  destruct (add_jobs_prefix (in_bounds_gyms in_bounds forts) st)
    as (n & Hn & Hput & Hperm & Hend & Hstop & Hlast).
  exists n.
  assert (Hin : Forall
    (fun item : Entry => in_bounds (lat item.2, lon item.2) = true)
    (item_of <$> take n (in_bounds_gyms in_bounds forts))).
  { apply Forall_forall. intros item ([gym now] & -> & Hg)%list_elem_of_fmap.
    apply elem_of_take in Hg as (k & Hk & _).
    apply list_elem_of_lookup_2 in Hk.
    by apply in_bounds_gyms_in_bounds in Hk as [Hk _]. }
  rewrite <- Hstop.
  destruct (add_jobs _ st) as [st' [e|]]; simpl in *.
  - destruct Hend as [-> Hpos]. split_and!; try done.
    + unfold put_calls in *. rewrite omap_app. simpl.
      by rewrite app_nil_r.
    + by apply (Hlast TypeError).
  - split_and!; done.
Qed.

(** Two forts whose [add_job] calls read the same clock: the second call
    raises, as the last one of the loading, with both items in the queue. *)
Lemma preload_error_at_the_last_fort :
  let forts := [(sample_fort 1, 1%Q); (sample_fort 2, 1%Q)] in
  let st := sample_state two_idle [] true in
  (preload_loop (fun _ => true) forts st).2 = Some TypeError
  /\ qsize (job_queue (preload (fun _ => true) forts st)) = 2%nat
  /\ length (in_bounds_gyms (fun _ => true) forts) = 2%nat.
Proof. vm_compute. done. Qed.



Lemma preload_all
    (in_bounds : Point -> bool) (forts : list (Fort * Q)) (st : State) :
  job_queue st = [] ->
  clock_advances (in_bounds_gyms in_bounds forts) = true ->
  let st' := preload in_bounds forts st in
  let gyms := in_bounds_gyms in_bounds forts in
  job_queue st' ≡ₚ item_of <$> gyms
  /\ qsize (job_queue st') = length gyms
  /\ queue_ok (job_queue st')
  /\ put_calls (trace st') = put_calls (trace st) ++ (item_of <$> gyms)
  /\ (preload_loop in_bounds forts st).2 = None
  /\ Forall keyed_by_updated (job_queue st').
Proof.
  intros Hq Hclock. cbv zeta. unfold preload.
  rewrite preload_loop_add_jobs.
  destruct (add_jobs_ok (in_bounds_gyms in_bounds forts) st)
    as (Hnone & Hok & Hperm).
  { rewrite Hq. apply queue_ok_nil. }
  { rewrite Hq. by apply clock_advances_comparable. }
  destruct (add_jobs_prefix (in_bounds_gyms in_bounds forts) st)
    as (n & Hn & Hput & _ & Hend & _).
  destruct (add_jobs _ st) as [st' [e|]]; simpl in *; [done|].
  subst n. rewrite firstn_all in Hput. rewrite Hq in Hperm. simpl in Hperm.
  split_and!; try done.
  - unfold qsize. by rewrite Hperm, length_fmap.
  - rewrite Hperm. apply Forall_forall.
    intros item ([gym now] & -> & Hg)%list_elem_of_fmap.
    apply in_bounds_gyms_in_bounds in Hg as (_ & fort & _ & ->).
    unfold keyed_by_updated, item_of, freshness. simpl.
    by rewrite gym_of_fort_updated.
Qed.

(** X14. With readings that grow from fort to fort, [preload] queues every fort
    within the bounds, raises and logs nothing, and leaves the queue in
    heap order, ready for the first [get]. *)
Theorem preload_queues_every_fort_in_bounds
    (in_bounds : Point -> bool) (forts : list (Fort * Q)) (st : State) :
  job_queue st = [] ->
  clock_advances (in_bounds_gyms in_bounds forts) = true ->
  let st' := preload in_bounds forts st in
  let gyms := in_bounds_gyms in_bounds forts in
  job_queue st' ≡ₚ item_of <$> gyms
  /\ qsize (job_queue st') = length gyms
  /\ queue_ok (job_queue st')
  /\ put_calls (trace st') = put_calls (trace st) ++ (item_of <$> gyms)
  /\ (preload_loop in_bounds forts st).2 = None
  /\ Forall keyed_by_updated (job_queue st').
Proof.
  apply preload_all.
Qed.

Lemma preload_queues_every_fort_in_bounds_witness :
  let in_bounds := fun p : Point => Qle_bool (fst p) 2 in
  let forts := [(sample_fort 1, 1%Q); (sample_fort 2, 2%Q)] in
  let st := sample_state two_idle [] true in
  let st' := preload in_bounds forts st in
  let gyms := in_bounds_gyms in_bounds forts in
  job_queue st' ≡ₚ item_of <$> gyms
  /\ qsize (job_queue st') = length gyms
  /\ queue_ok (job_queue st')
  /\ put_calls (trace st') = put_calls (trace st) ++ (item_of <$> gyms)
  /\ (preload_loop in_bounds forts st).2 = None
  /\ Forall keyed_by_updated (job_queue st').
Proof.
  apply (preload_queues_every_fort_in_bounds
           (fun p : Point => Qle_bool (fst p) 2)
           [(sample_fort 1, 1%Q); (sample_fort 2, 2%Q)]
           (sample_state two_idle [] true));
    reflexivity.
Defined.


(** ** One wake-up of the launcher *)

Section Wake.

Context (conf : Conf) (cancelled_is_exception : bool).

Lemma drain_pops (fuel : nat) :
  forall st ts,
    queue_ok (job_queue st) -> (length (job_queue st) < fuel)%nat ->
    let r := drain cancelled_is_exception fuel st ts in
    let units := Z.to_nat (coroutine_semaphore st) in
    let m := length (job_queue st) in
    exists popped : list Entry,
      job_queue st ≡ₚ popped ++ job_queue r.1.1
      /\ r.2 ++ held r.1.2 = ts ++ (snd <$> popped)
      /\ length r.2 = (length ts + m `min` units)%nat
      /\ coroutine_semaphore r.1.1
         = coroutine_semaphore st - Z.of_nat (m `min` units)
      /\ queue_ok (job_queue r.1.1)
      /\ (forall i j x y, (i < j)%nat ->
            popped !! i = Some x -> popped !! j = Some y ->
            key_lt y x = false)
      /\ (forall x y, x ∈ popped -> y ∈ job_queue r.1.1 ->
            key_lt y x = false)
      /\ if (m <=? units)%nat
         then r.1.2 = Sleeping /\ job_queue r.1.1 = []
              /\ trace r.1.1 = trace st ++ [Slept 1]
         else (exists job, r.1.2 = Acquiring job)
              /\ trace r.1.1 = trace st.
Proof.
  induction fuel as [|fuel IH]; intros st ts Hok Hfuel; [lia|].
  cbv zeta. simpl.
  destruct (job_queue st) as [|x0 q0] eqn:Hq.
  { simpl. exists []. simpl. rewrite Hq, app_nil_r.
    split_and!; try done; try lia.
    intros ? ? H. by apply elem_of_nil in H. }
  rewrite <- Hq in *.
  assert (Hne : job_queue st <> []) by by rewrite Hq.
  assert (Hempty : empty (job_queue st) = false) by by rewrite Hq.
  rewrite Hempty.
  destruct (get_ok _ Hok Hne) as (r0 & q1 & Hget & _ & Hok1 & Hperm & Hleast).
  rewrite Hget.
  assert (Hlen : length (job_queue st) = S (length q1)).
  { by rewrite Hperm. }
  destruct (0 <? coroutine_semaphore st) eqn:Hsem.
  - apply Z.ltb_lt in Hsem.
    destruct (IH (with_semaphore (coroutine_semaphore st - 1)
                    (with_job_queue q1 st)) (ts ++ [r0.2]))
      as (popped & Hp1 & Hp2 & Hp3 & Hp4 & Hp5 & Hp6 & Hp7 & Hp8);
      [done|simpl; lia|].
    simpl in Hp1, Hp2, Hp3, Hp4, Hp7, Hp8.
    assert (Hunits : Z.to_nat (coroutine_semaphore st)
                     = S (Z.to_nat (coroutine_semaphore st - 1))) by lia.
    exists (r0 :: popped). rewrite Hlen, Hunits. split_and!.
    + etrans; [exact Hperm|]. simpl. by apply Permutation_skip.
    + rewrite Hp2, <- app_assoc. done.
    + rewrite Hp3, length_app. simpl. lia.
    + rewrite Hp4. lia.
    + done.
    + intros [|i] [|j] x y Hij Hx Hy; try lia; simpl in Hx, Hy.
      * simplify_eq. apply Hleast. rewrite Hperm. right. rewrite Hp1.
        apply elem_of_app. left. by eapply list_elem_of_lookup_2.
      * apply (Hp6 i j); [lia|done..].
    + intros x y [->|Hx]%elem_of_cons Hy; [|by apply Hp7].
      apply Hleast. rewrite Hperm. right. rewrite Hp1.
      apply elem_of_app. by right.
    + simpl. done.
  - apply Z.ltb_ge in Hsem. simpl.
    assert (Hunits : Z.to_nat (coroutine_semaphore st) = 0%nat) by lia.
    exists [r0]. rewrite Hlen, Hunits. simpl. split_and!; try done.
    + lia.
    + intros [|i] [|j] x y Hij Hx Hy; try lia; simpl in Hx, Hy.
      * by rewrite lookup_nil in Hy.
      * by rewrite lookup_nil in Hx.
    + intros x y ->%list_elem_of_singleton Hy. apply Hleast.
      rewrite Hperm. by right.
    + by eexists.
Qed.

End Wake.

(** X15. One wake-up starts what the limiter allows, stalest first. With the
    queue in working order, a launcher woken from its [sleep(1)] takes jobs
    from the head of the queue and starts an attempt for each while it gets
    a unit of the limiter: as many attempts as there are jobs or units,
    whichever is less. With units enough it empties the queue and sleeps
    again; otherwise it waits in [acquire()] holding one job more. The jobs
    leave the queue in key order, none of them later in that order than a
    job left behind. *)
Theorem wake_starts_what_the_limiter_allows
    (conf : Conf) (cancelled_is_exception : bool)
    (st : State) (ts : list Job) :
  queue_ok (job_queue st) ->
  let sys' := step conf cancelled_is_exception Wake
                {| shared := st; loop := Sleeping; tasks := ts |} in
  let units := Z.to_nat (coroutine_semaphore st) in
  let m := qsize (job_queue st) in
  exists popped : list Entry,
    job_queue st ≡ₚ popped ++ job_queue (shared sys')
    /\ tasks sys' ++ held (loop sys') = ts ++ (snd <$> popped)
    /\ length (tasks sys') = (length ts + m `min` units)%nat
    /\ coroutine_semaphore (shared sys')
       = coroutine_semaphore st - Z.of_nat (m `min` units)
    /\ queue_ok (job_queue (shared sys'))
    /\ (forall i j x y, (i < j)%nat ->
          popped !! i = Some x -> popped !! j = Some y ->
          key_lt y x = false)
    /\ (forall x y, x ∈ popped -> y ∈ job_queue (shared sys') ->
          key_lt y x = false)
    /\ if (m <=? units)%nat
       then loop sys' = Sleeping /\ job_queue (shared sys') = []
            /\ trace (shared sys') = trace st ++ [Slept 1]
       else (exists job, loop sys' = Acquiring job)
            /\ trace (shared sys') = trace st.
Proof.
  intros Hok. cbv zeta. unfold step, run_drain, qsize.
  cbn [shared loop tasks].
  destruct (drain_pops cancelled_is_exception
              (S (length (job_queue st))) st ts Hok) as (popped & H);
    [lia|].
  cbv zeta in H. destruct (drain _ _ _ _) as [[st' l] ts']. simpl in *.
  by exists popped.
Qed.

Lemma wake_starts_what_the_limiter_allows_witness :
  let st := with_semaphore 1
              (sample_state two_idle
                 [(0, 10%Q, sample_gym 1 (Some 0) (Some 0));
                  (5, 11%Q, sample_gym 2 (Some 5) (Some 0))] true) in
  let sys' := step sample_conf false Wake
                {| shared := st; loop := Sleeping; tasks := [] |} in
  let units := Z.to_nat (coroutine_semaphore st) in
  let m := qsize (job_queue st) in
  exists popped : list Entry,
    job_queue st ≡ₚ popped ++ job_queue (shared sys')
    /\ tasks sys' ++ held (loop sys') = [] ++ (snd <$> popped)
    /\ length (tasks sys') = (length (@nil Job) + m `min` units)%nat
    /\ coroutine_semaphore (shared sys')
       = coroutine_semaphore st - Z.of_nat (m `min` units)
    /\ queue_ok (job_queue (shared sys'))
    /\ (forall i j x y, (i < j)%nat ->
          popped !! i = Some x -> popped !! j = Some y ->
          key_lt y x = false)
    /\ (forall x y, x ∈ popped -> y ∈ job_queue (shared sys') ->
          key_lt y x = false)
    /\ if (m <=? units)%nat
       then loop sys' = Sleeping /\ job_queue (shared sys') = []
            /\ trace (shared sys') = trace st ++ [Slept 1]
       else (exists job, loop sys' = Acquiring job)
            /\ trace (shared sys') = trace st.
Proof.
  apply (wake_starts_what_the_limiter_allows sample_conf false
           (with_semaphore 1
              (sample_state two_idle
                 [(0, 10%Q, sample_gym 1 (Some 0) (Some 0));
                  (5, 11%Q, sample_gym 2 (Some 5) (Some 0))] true)) []).
  split.
  - intros [|[|i]] x p Hi Hx Hp; [lia| |].
    + simpl in Hx, Hp. by simplify_eq.
    + simpl in Hx. by rewrite lookup_nil in Hx.
  - intros a b Ha Hb. simpl in Ha, Hb.
    apply elem_of_cons in Ha as [->|Ha], Hb as [->|Hb];
      try apply list_elem_of_singleton in Ha as ->;
      try apply list_elem_of_singleton in Hb as ->; by eexists.
Defined.


(** ** While the clock advances *)

Section Advancing.

Context (conf : Conf) (cancelled_is_exception : bool).

(** Every attempt ends in the [finally] block, run on a state whose queue
    and limiter are those the attempt started with. *)
Lemma try_point_final (env : Env) (st : State) (job : Job) :
  let a := try_point conf env st job in
  exists st'' pending,
    final a = (cleanup (time_requeue env) (job_after a) st'').1
    /\ raised a = match (cleanup (time_requeue env) (job_after a) st'').2 with
                  | Some e => Some e
                  | None => pending
                  end
    /\ (pending = None \/ (pending = Some CancelledError /\ how a = Cancelled))
    /\ job_queue st'' = job_queue st
    /\ coroutine_semaphore st'' = coroutine_semaphore st
    /\ releases (trace st'') = releases (trace st).
Proof.
  cbv zeta. unfold try_point.
  pose proof (try_body_frame conf env st job) as H.
  destruct (try_body conf env st job) as [[st' job'] r].
  destruct H as (Hq & Hsem & _ & Hrel & _ & Hr).
  assert (Hfin : forall st'' h pending,
    (pending = None \/ (pending = Some CancelledError /\ h = Cancelled)) ->
    job_queue st'' = job_queue st ->
    coroutine_semaphore st'' = coroutine_semaphore st ->
    releases (trace st'') = releases (trace st) ->
    let a := finish env st'' job' h pending in
    exists st3 pending3,
      final a = (cleanup (time_requeue env) (job_after a) st3).1
      /\ raised a
         = match (cleanup (time_requeue env) (job_after a) st3).2 with
           | Some e => Some e
           | None => pending3
           end
      /\ (pending3 = None
          \/ (pending3 = Some CancelledError /\ how a = Cancelled))
      /\ job_queue st3 = job_queue st
      /\ coroutine_semaphore st3 = coroutine_semaphore st
      /\ releases (trace st3) = releases (trace st)).
  { intros st'' h pending Hp H1 H2 H3. cbv zeta. exists st'', pending.
    by rewrite finish_final, finish_job, finish_raised, finish_how. }
  destruct r as [| |e|]; [apply Hfin; auto..| |done].
  destruct (is_cancelled e); [apply Hfin; auto|].
  destruct (is_visit_error e); apply Hfin; auto;
    unfold releases in *; simpl; rewrite omap_app, length_app, Hrel; simpl;
    lia.
Qed.

(** A requeue at a reading later than every reading in the queue goes
    through: nothing is raised, the queue stays in order, and the unit goes
    back to the limiter. *)
Lemma cleanup_new_reading (now : Q) (job : Job) (st : State) :
  queue_ok (job_queue st) ->
  forallb (fun item : Entry => Qltb item.1.2 now) (job_queue st) = true ->
  (cleanup now job st).2 = None
  /\ queue_ok (job_queue (cleanup now job st).1)
  /\ coroutine_semaphore (cleanup now job st).1 = coroutine_semaphore st + 1
  /\ releases (trace (cleanup now job st).1) = S (releases (trace st))
  /\ put_calls (trace (cleanup now job st).1)
     = put_calls (trace st) ++ [(freshness job, now, job)].
Proof.
  intros Hok Hnew.
  assert (Hlt : forall x, x ∈ job_queue st -> (x.1.2 < now)%Q).
  { intros x Hx. rewrite forallb_forall in Hnew. apply Qltb_lt.
    apply Hnew. by apply list_elem_of_In. }
  assert (Hcmp : comparable (job_queue st ++ [(freshness job, now, job)])).
  { destruct Hok as [_ Hcmp].
    assert (Hne : forall x, x ∈ job_queue st ->
              Qeq_bool x.1.2 now = false /\ Qeq_bool now x.1.2 = false).
    { intros x Hx. apply Hlt in Hx.
      split; apply not_true_is_false; intros Heq%Qeq_bool_eq; lra. }
    intros a b [Ha|Ha%list_elem_of_singleton]%elem_of_app
               [Hb|Hb%list_elem_of_singleton]%elem_of_app.
    - by apply Hcmp.
    - subst b. destruct a as [[pa ta] ga]. apply Hne in Ha as [Ha _].
      simpl in Ha. unfold tuple_lt. rewrite Ha. simpl.
      by destruct (negb _).
    - subst a. destruct b as [[pb tb] gb]. apply Hne in Hb as [_ Hb].
      simpl in Hb. unfold tuple_lt. rewrite Hb. simpl.
      by destruct (negb _).
    - subst a b. unfold tuple_lt.
      rewrite Z.eqb_refl, Qeq_bool_refl, job_eqb_refl. by eexists. }
  destruct (put_nowait_ok _ _ Hok Hcmp) as (Hnone & Hok' & _).
  pose proof (cleanup_queue now job st) as Hq.
  pose proof (cleanup_semaphore now job st) as Hs.
  pose proof (cleanup_trace now job st) as Ht.
  assert (Hr : (cleanup now job st).2 = None).
  { unfold cleanup. pose proof (add_job_raised now job st) as Hr.
    destruct (add_job now job st) as [st' [e|]]; simpl in *; congruence. }
  rewrite Hr in Hs, Ht. rewrite Hq, Hs, Ht.
  split_and!; try done; read_events; try done; lia.
Qed.

Lemma body_raises_queue (e : exn) (st : State) :
  job_queue (body_raises cancelled_is_exception e st).1 = job_queue st.
Proof. unfold body_raises. by destruct (caught_as_exception _ _). Qed.

(** What a step keeps while every requeue takes a new reading. *)
Lemma step_sound (inp : input) (sys : System) :
  queue_ok (job_queue (shared sys)) ->
  readings_are_new conf cancelled_is_exception [inp] sys = true ->
  let sys' := step conf cancelled_is_exception inp sys in
  queue_ok (job_queue (shared sys'))
  /\ Z.of_nat (length (put_calls (trace (shared sys'))))
     - Z.of_nat (releases (trace (shared sys')))
     = Z.of_nat (length (put_calls (trace (shared sys))))
       - Z.of_nat (releases (trace (shared sys)))
  /\ (match inp with Wake | Finish _ _ => true | _ => false end = true ->
      launcher_errors (trace (shared sys'))
      = launcher_errors (trace (shared sys))).
Proof.
  intros Hok Hnew. cbv zeta. unfold step.
  assert (Hdrain : forall st ts,
    queue_ok (job_queue st) ->
    let r := run_drain cancelled_is_exception st ts in
    queue_ok (job_queue r.1.1)
    /\ Z.of_nat (length (put_calls (trace r.1.1)))
       - Z.of_nat (releases (trace r.1.1))
       = Z.of_nat (length (put_calls (trace st)))
         - Z.of_nat (releases (trace st))
    /\ launcher_errors (trace r.1.1) = launcher_errors (trace st)).
  { intros st ts Hst. cbv zeta. unfold run_drain.
    destruct (drain_pops cancelled_is_exception (S (length (job_queue st)))
                st ts Hst) as (popped & _ & _ & _ & _ & Hq & _ & _ & Htr);
      [lia|].
    destruct (drain_accounting cancelled_is_exception
                (S (length (job_queue st))) st ts) as (_ & Hp & Hr & _).
    cbv zeta in Htr. rewrite Hp, Hr. split_and!; [done..|].
    destruct (_ <=? _)%nat; [destruct Htr as (_ & _ & ->)
                            |destruct Htr as (_ & ->)]; by read_events. }
  destruct inp as [| |e|k env].
  - destruct (loop sys) as [job| |]; [| |done].
    + destruct (0 <? coroutine_semaphore (shared sys)); [|done].
      destruct (Hdrain (with_semaphore (coroutine_semaphore (shared sys) - 1)
                          (shared sys)) (tasks sys ++ [job]) Hok)
        as (H1 & H2 & H3).
      destruct (run_drain _ _ _) as [[st' l] ts']. simpl in *. done.
    + destruct (Hdrain (shared sys) (tasks sys) Hok) as (H1 & H2 & H3).
      destruct (run_drain _ _ _) as [[st' l] ts']. simpl in *. done.
  - destruct (loop sys) as [job| |]; [|done..].
    pose proof (body_raises_queue CancelledError (shared sys)) as Hq.
    destruct (body_raises_accounting cancelled_is_exception CancelledError
                (shared sys)) as (_ & Hp & Hr).
    destruct (body_raises _ _ _) as [st' l]. simpl in *.
    rewrite Hq, Hp, Hr. done.
  - pose proof (body_raises_queue e (shared sys)) as Hq.
    destruct (body_raises_accounting cancelled_is_exception e (shared sys))
      as (_ & Hp & Hr).
    destruct (loop sys) as [job| |]; [| |done];
      destruct (body_raises _ _ _) as [st' l]; simpl in *;
      rewrite Hq, Hp, Hr; done.
  - simpl in Hnew. rewrite andb_true_r in Hnew.
    destruct (tasks sys !! k) as [job|] eqn:Hk;
      [|by destruct (loop sys)].
    destruct (try_point_final env (shared sys) job)
      as (st'' & pending & Hfinal & _ & _ & Hq & _ & Hrel).
    destruct (try_point_cases conf env (shared sys) job) as (_ & _ & He & _).
    destruct (try_point_accounting conf env (shared sys) job)
      as (_ & Hput & _).
    destruct (cleanup_new_reading (time_requeue env)
                (job_after (try_point conf env (shared sys) job)) st'')
      as (_ & Hok' & _ & Hrel' & _).
    { by rewrite Hq. }
    { unfold reading_is_new in Hnew. by rewrite Hq. }
    rewrite <- Hfinal in Hok', Hrel'.
    destruct (loop sys); simpl; rewrite Hput, Hrel', Hrel;
      split_and!; try done; lia.
Qed.

End Advancing.


Section AdvancingRuns.

Context (conf : Conf) (cancelled_is_exception : bool).

Lemma init_workers_frame (made : list (Worker + exn)) :
  forall st,
    job_queue (init_workers made st) = job_queue st
    /\ put_calls (trace (init_workers made st)) = put_calls (trace st)
    /\ launcher_errors (trace (init_workers made st))
       = launcher_errors (trace st)
    /\ visit_calls (trace (init_workers made st)) = visit_calls (trace st)
    /\ visits (init_workers made st) = visits st
    /\ skipped (init_workers made st) = skipped st
    /\ workers (init_workers made st)
       = workers st
         ++ omap (fun m : Worker + exn =>
                    match m with inl w => Some w | inr _ => None end) made.
Proof.
  induction made as [|[w|e] made IH]; intros st; simpl.
  - by rewrite app_nil_r.
  - destruct (IH (with_workers (workers st ++ [w]) st))
      as (-> & -> & -> & -> & -> & -> & ->).
    simpl. by rewrite <- app_assoc.
  - destruct (IH (emit (LogException e) st))
      as (-> & -> & -> & -> & -> & -> & ->).
    by read_events.
Qed.

Lemma add_jobs_frame (jobs : list (Job * Q)) :
  forall st,
    let st' := (add_jobs jobs st).1 in
    workers st' = workers st /\ visits st' = visits st
    /\ skipped st' = skipped st
    /\ coroutine_semaphore st' = coroutine_semaphore st
    /\ launcher_errors (trace st') = launcher_errors (trace st)
    /\ visit_calls (trace st') = visit_calls (trace st).
Proof.
  induction jobs as [|[gym now] jobs IH]; intros st; [done|].
  cbv zeta. simpl.
  pose proof (add_job_frame now gym st) as Hf.
  pose proof (add_job_trace now gym st) as Ht.
  destruct (add_job now gym st) as [st' [e|]]; simpl in *;
    destruct Hf as (Hw & Hs & Hv & _ & Hsem & _).
  - rewrite Hw, Hs, Hv, Hsem, Ht. by read_events.
  - destruct (IH st') as (-> & -> & -> & -> & -> & ->).
    rewrite Hw, Hs, Hv, Hsem, Ht. by read_events.
Qed.

Lemma preload_frame (in_bounds : Point -> bool) (forts : list (Fort * Q))
    (st : State) :
  let st' := preload in_bounds forts st in
  workers st' = workers st /\ visits st' = visits st
  /\ skipped st' = skipped st
  /\ coroutine_semaphore st' = coroutine_semaphore st
  /\ launcher_errors (trace st') = launcher_errors (trace st)
  /\ visit_calls (trace st') = visit_calls (trace st).
Proof.
  cbv zeta. unfold preload. rewrite preload_loop_add_jobs.
  pose proof (add_jobs_frame (in_bounds_gyms in_bounds forts) st) as H.
  cbv zeta in H.
  destruct (add_jobs _ st) as [st' [e|]]; simpl in *; [|done].
  unfold launcher_errors, visit_calls in *. rewrite !omap_app. simpl.
  rewrite !app_nil_r. done.
Qed.

(** [launch] with readings that grow from fort to fort: every fort within
    the bounds is queued, handed to an attempt or in the launcher's hand,
    and nothing has been logged by the launcher. *)
Lemma launch_sound (in_bounds : Point -> bool) (forts : list (Fort * Q))
    (made : nat -> Worker + exn) (is_running : bool) :
  clock_advances (in_bounds_gyms in_bounds forts) = true ->
  let sys0 := launch conf cancelled_is_exception in_bounds forts made
                is_running in
  queue_ok (job_queue (shared sys0))
  /\ launcher_errors (trace (shared sys0)) = []
  /\ jobs_of sys0 ≡ₚ (in_bounds_gyms in_bounds forts).*1
  /\ loop sys0 <> Stopped.
Proof.
  intros Hclock. cbv zeta. unfold launch.
  set (st0 := initial_state conf is_running).
  destruct (preload_all in_bounds forts st0 eq_refl Hclock)
    as (Hperm & _ & Hok & _).
  destruct (preload_frame in_bounds forts st0) as (_ & _ & _ & _ & Herr & _).
  set (st1 := preload in_bounds forts st0) in *.
  destruct (init_workers_frame
              (map made (seq 0 (Z.to_nat (workers_needed conf)))) st1)
    as (Hq & _ & Herr2 & _).
  set (st2 := init_workers _ st1) in *.
  rewrite <- Hq in Hok, Hperm. rewrite <- Herr2 in Herr.
  unfold run_drain.
  destruct (drain_pops cancelled_is_exception (S (length (job_queue st2)))
              st2 [] Hok) as (popped & _ & _ & _ & _ & Hok' & _ & _ & Htr);
    [lia|].
  destruct (drain_jobs cancelled_is_exception (S (length (job_queue st2)))
              st2 []) as (errs & Herrs & Hjobs).
  pose proof (drain_rests cancelled_is_exception (S (length (job_queue st2)))
                st2 []) as Hrest.
  cbv zeta in Htr, Herrs, Hjobs.
  destruct (drain _ _ _ _) as [[st' l] ts']. simpl in *.
  assert (Hsame : launcher_errors (trace st') = launcher_errors (trace st2)).
  { destruct (_ <=? _)%nat; [destruct Htr as (_ & _ & ->)
                            |destruct Htr as (_ & ->)]; by read_events. }
  assert (errs = []) as ->.
  { rewrite Hsame in Herrs.
    rewrite <- (app_nil_r (launcher_errors (trace st2))) in Herrs at 1.
    by apply app_inv_head in Herrs. }
  split_and!; [done|by rewrite Hsame, Herr|..|done].
  unfold jobs_of. simpl. rewrite (Hjobs eq_refl), app_nil_r, Hperm.
  rewrite <- list_fmap_compose.
  by rewrite (list_fmap_ext (snd ∘ item_of) fst (in_bounds_gyms in_bounds forts)).
Qed.

Lemma run_sound (inputs : list input) :
  forall sys,
    queue_ok (job_queue (shared sys)) ->
    readings_are_new conf cancelled_is_exception inputs sys = true ->
    let sys' := run conf cancelled_is_exception inputs sys in
    queue_ok (job_queue (shared sys'))
    /\ Z.of_nat (length (put_calls (trace (shared sys'))))
       - Z.of_nat (releases (trace (shared sys')))
       = Z.of_nat (length (put_calls (trace (shared sys))))
         - Z.of_nat (releases (trace (shared sys)))
    /\ (forallb (fun inp => match inp with
                            | Wake | Finish _ _ => true
                            | _ => false
                            end) inputs = true ->
        launcher_errors (trace (shared sys'))
        = launcher_errors (trace (shared sys))).
Proof.
  induction inputs as [|inp inputs IH]; intros sys Hok Hnew; [done|].
  cbn [readings_are_new] in Hnew. apply andb_true_iff in Hnew as [Hhead Hrest].
  destruct (step_sound conf cancelled_is_exception inp sys Hok)
    as (Hok1 & Hbal1 & Herr1).
  { cbn [readings_are_new]. by rewrite Hhead. }
  destruct (IH _ Hok1 Hrest) as (Hok2 & Hbal2 & Herr2).
  cbv zeta in *. simpl. split_and!; [done|lia|].
  intros [Hq Hqs]%andb_true_iff. by rewrite (Herr2 Hqs), (Herr1 Hq).
Qed.

Lemma run_rests (inputs : list input) :
  forall sys,
    loop sys <> Stopped ->
    forallb (fun inp => negb (cancels inp)) inputs = true ->
    loop (run conf cancelled_is_exception inputs sys) <> Stopped.
Proof.
  induction inputs as [|inp inputs IH]; intros sys Hloop Hnc; [done|].
  simpl in *. apply andb_true_iff in Hnc as [Hinp Hnc].
  apply negb_true_iff in Hinp. apply IH; [|done].
  by apply step_rests.
Qed.

End AdvancingRuns.

(** X16. The scheduler is sound while the clock advances. Let [preload] read a
    later clock value for every fort, and every attempt that ends read, in
    its cleanup, a value later than all those in the queue. Then along
    every run the queue stays in working order, every requeue is followed
    by its release, and the units of the limiter and the pending attempts
    add up to the worker count: with no attempt pending the limiter is back
    at its initial value. Under wake-ups and ending attempts alone the
    launcher logs no failure, does not stop, and the gyms of the system are
    exactly the forts within the bounds, each once. *)
Theorem scheduler_is_sound_while_the_clock_advances
    (conf : Conf) (cancelled_is_exception : bool)
    (in_bounds : Point -> bool) (forts : list (Fort * Q))
    (made : nat -> Worker + exn) (is_running : bool)
    (inputs : list input) :
  clock_advances (in_bounds_gyms in_bounds forts) = true ->
  let sys0 := launch conf cancelled_is_exception in_bounds forts made
                is_running in
  readings_are_new conf cancelled_is_exception inputs sys0 = true ->
  let sys := run conf cancelled_is_exception inputs sys0 in
  queue_ok (job_queue (shared sys))
  /\ unreleased (shared sys0) (shared sys) = 0
  /\ coroutine_semaphore (shared sys) + Z.of_nat (length (tasks sys))
     = workers_needed conf
  /\ (tasks sys = [] -> coroutine_semaphore (shared sys) = workers_needed conf)
  /\ (forallb (fun inp => match inp with
                          | Wake | Finish _ _ => true
                          | _ => false
                          end) inputs = true ->
      launcher_errors (trace (shared sys)) = []
      /\ loop sys <> Stopped
      /\ fixed_fields <$> jobs_of sys
         ≡ₚ fixed_fields <$> (in_bounds_gyms in_bounds forts).*1).
Proof.
  intros Hclock. cbv zeta. intros Hnew.
  destruct (launch_sound conf cancelled_is_exception in_bounds forts made
              is_running Hclock) as (Hok0 & Herr0 & Hjobs0 & Hloop0).
  destruct (launch_accounting conf cancelled_is_exception in_bounds forts
              made is_running) as (Hsum & Hrel & _).
  set (sys0 := launch conf cancelled_is_exception in_bounds forts made
                 is_running) in *.
  destruct (run_sound conf cancelled_is_exception inputs sys0 Hok0 Hnew)
    as (Hok & Hbal & Herr).
  assert (Hbalance : forall inputs sys,
    balance (run conf cancelled_is_exception inputs sys) = balance sys).
  { clear. intros inputs.
    induction inputs as [|inp inputs IH]; intros sys; [done|]. simpl.
    rewrite IH. apply step_balance. }
  specialize (Hbalance inputs sys0). unfold balance in Hbalance.
  set (sys := run conf cancelled_is_exception inputs sys0) in *.
  assert (Hun : unreleased (shared sys0) (shared sys) = 0).
  { unfold unreleased. lia. }
  assert (Hlim : coroutine_semaphore (shared sys)
                 + Z.of_nat (length (tasks sys)) = workers_needed conf).
  { unfold unreleased in Hun. lia. }
  split_and!; [done..| |].
  - intros Hts. rewrite Hts in Hlim. simpl in Hlim. lia.
  - intros Hquiet. specialize (Herr Hquiet).
    assert (Hnc : forallb (fun inp => negb (cancels inp)) inputs = true).
    { clear -Hquiet. induction inputs as [|[| |e|k env] inputs IH];
        simpl in *; try done; by apply IH. }
    split_and!.
    + by rewrite Herr.
    + by apply run_rests.
    + destruct (run_jobs conf cancelled_is_exception inputs sys0)
        as (errs & He & Hj). fold sys in He, Hj.
      rewrite Hj, Hjobs0; [done..|].
      rewrite Herr in He.
      rewrite <- (app_nil_r (launcher_errors (trace (shared sys0)))) in He
        at 1.
      by apply app_inv_head in He.
Qed.

Lemma scheduler_is_sound_while_the_clock_advances_witness :
  let inputs := [Finish 0 (sample_env_at 1000 (Returns (PyInt 1)));
                 Finish 0 (sample_env_at 1001 (Returns PyNone));
                 Wake] in
  let sys0 := sample_launch in
  let sys := run sample_conf false inputs sys0 in
  queue_ok (job_queue (shared sys))
  /\ unreleased (shared sys0) (shared sys) = 0
  /\ coroutine_semaphore (shared sys) + Z.of_nat (length (tasks sys))
     = workers_needed sample_conf
  /\ (tasks sys = [] ->
      coroutine_semaphore (shared sys) = workers_needed sample_conf)
  /\ (forallb (fun inp => match inp with
                          | Wake | Finish _ _ => true
                          | _ => false
                          end) inputs = true ->
      launcher_errors (trace (shared sys)) = []
      /\ loop sys <> Stopped
      /\ fixed_fields <$> jobs_of sys
         ≡ₚ fixed_fields
              <$> (in_bounds_gyms (fun _ => true)
                     [(sample_fort 1, 1%Q); (sample_fort 2, 2%Q)]).*1).
Proof.
  apply (scheduler_is_sound_while_the_clock_advances sample_conf false
           (fun _ => true) [(sample_fort 1, 1%Q); (sample_fort 2, 2%Q)]
           (fun x => inl (sample_worker x false
                           (if (x =? 0)%nat then 5.0 else 2.0)))
           true
           [Finish 0 (sample_env_at 1000 (Returns (PyInt 1)));
            Finish 0 (sample_env_at 1001 (Returns PyNone));
            Wake]);
    reflexivity.
Defined.


(** ** The worker pool and the limiter at their bounds *)

Section Pool.

Context (conf : Conf) (cancelled_is_exception : bool).

Lemma drain_frame (fuel : nat) :
  forall st ts,
    let r := drain cancelled_is_exception fuel st ts in
    workers r.1.1 = workers st /\ visits r.1.1 = visits st
    /\ skipped r.1.1 = skipped st
    /\ visit_calls (trace r.1.1) = visit_calls (trace st)
    /\ (coroutine_semaphore st <= 0 ->
        r.2 = ts /\ coroutine_semaphore r.1.1 = coroutine_semaphore st).
Proof.
  induction fuel as [|fuel IH]; intros st ts; cbv zeta; simpl; [done|].
  destruct (empty (job_queue st)); [by read_events|].
  destruct (get (job_queue st)) as [[q [item|e]]|]; [| |done].
  - destruct (0 <? coroutine_semaphore st) eqn:Hsem; [|done].
    apply Z.ltb_lt in Hsem.
    destruct (IH (with_semaphore (coroutine_semaphore st - 1)
                    (with_job_queue q st)) (ts ++ [item.2]))
      as (-> & -> & -> & -> & _).
    split_and!; try done; lia.
  - unfold body_raises. destruct (caught_as_exception _ _); by read_events.
Qed.

Lemma body_raises_frame (e : exn) (st : State) :
  let st' := (body_raises cancelled_is_exception e st).1 in
  workers st' = workers st /\ visits st' = visits st
  /\ skipped st' = skipped st
  /\ visit_calls (trace st') = visit_calls (trace st)
  /\ coroutine_semaphore st' = coroutine_semaphore st.
Proof.
  unfold body_raises. destruct (caught_as_exception _ _); by read_events.
Qed.

Lemma try_point_pool (env : Env) (st : State) (job : Job) :
  let a := try_point conf env st job in
  length (workers (final a)) = length (workers st)
  /\ (Forall (fun w => busy w = false) (workers st) ->
      Forall (fun w => busy w = false) (workers (final a))).
Proof.
  cbv zeta.
  destruct (try_point_cases conf env st job) as (_ & _ & _ & Hcases).
  cbv zeta in Hcases.
  destruct Hcases as [Hc|[Hc|[_ (i & w & Hw & Hb & _ & _ & _ & _ & Hend)]]].
  - by destruct Hc as (_ & _ & _ & -> & _).
  - by destruct Hc as (_ & _ & _ & _ & -> & _).
  - destruct (how (try_point conf env st job));
      destruct Hend as (_ & _ & _ & ->); rewrite length_insert;
      (split; [done|]); intros Hall; by apply Forall_insert.
Qed.

Lemma step_pool (inp : input) (sys : System) :
  let sys' := step conf cancelled_is_exception inp sys in
  length (workers (shared sys')) = length (workers (shared sys))
  /\ (Forall (fun w => busy w = false) (workers (shared sys)) ->
      Forall (fun w => busy w = false) (workers (shared sys'))).
Proof.
  cbv zeta. unfold step, run_drain.
  destruct inp as [| |e|k env].
  - destruct (loop sys) as [job| |]; [| |done].
    + destruct (0 <? coroutine_semaphore (shared sys)); [|done].
      destruct (drain_frame
        (S (length (job_queue (with_semaphore
           (coroutine_semaphore (shared sys) - 1) (shared sys)))))
        (with_semaphore (coroutine_semaphore (shared sys) - 1) (shared sys))
        (tasks sys ++ [job])) as (Hw & _).
      destruct (drain _ _ _ _) as [[st' l] ts']. simpl in *. by rewrite Hw.
    + destruct (drain_frame (S (length (job_queue (shared sys))))
                  (shared sys) (tasks sys)) as (Hw & _).
      destruct (drain _ _ _ _) as [[st' l] ts']. simpl in *. by rewrite Hw.
  - destruct (loop sys) as [job| |]; [|done..].
    destruct (body_raises_frame CancelledError (shared sys)) as (Hw & _).
    destruct (body_raises _ _ _) as [st' l]. simpl in *. by rewrite Hw.
  - destruct (body_raises_frame e (shared sys)) as (Hw & _).
    destruct (loop sys) as [job| |]; [| |done];
      destruct (body_raises _ _ _) as [st' l]; simpl in *; by rewrite Hw.
  - destruct (tasks sys !! k) as [job|]; [|by destruct (loop sys)].
    destruct (loop sys); apply try_point_pool.
Qed.

(** Without units and without pending attempts nothing ever starts. *)
Lemma step_no_units (inp : input) (sys : System) :
  coroutine_semaphore (shared sys) <= 0 -> tasks sys = [] ->
  let sys' := step conf cancelled_is_exception inp sys in
  coroutine_semaphore (shared sys') = coroutine_semaphore (shared sys)
  /\ tasks sys' = []
  /\ visit_calls (trace (shared sys')) = visit_calls (trace (shared sys))
  /\ visits (shared sys') = visits (shared sys)
  /\ skipped (shared sys') = skipped (shared sys).
Proof.
  intros Hsem Hts. cbv zeta. unfold step, run_drain.
  destruct inp as [| |e|k env].
  - destruct (loop sys) as [job| |]; [| |done].
    + destruct (0 <? coroutine_semaphore (shared sys)) eqn:H; [|done].
      apply Z.ltb_lt in H. lia.
    + destruct (drain_frame (S (length (job_queue (shared sys))))
                  (shared sys) (tasks sys)) as (_ & Hv & Hs & Hvc & Hno).
      destruct (Hno Hsem) as [Ht Hsem'].
      destruct (drain _ _ _ _) as [[st' l] ts']. simpl in *.
      split_and!; congruence.
  - destruct (loop sys) as [job| |]; [|done..].
    destruct (body_raises_frame CancelledError (shared sys))
      as (_ & Hv & Hs & Hvc & Hsem').
    destruct (body_raises _ _ _) as [st' l]. simpl in *. done.
  - destruct (body_raises_frame e (shared sys)) as (_ & Hv & Hs & Hvc & Hsem').
    destruct (loop sys) as [job| |]; [| |done];
      destruct (body_raises _ _ _) as [st' l]; simpl in *; done.
  - rewrite Hts, lookup_nil. by destruct (loop sys).
Qed.

End Pool.

Lemma omap_map {A B C : Type} (f : B -> option C) (g : A -> B)
    (l : list A) :
  omap f (map g l) = omap (fun x => f (g x)) l.
Proof.
  induction l as [|x l IH]; [done|]. cbn [map]. csimpl.
  destruct (f (g x)); by rewrite IH.
Qed.

(** What the constructor loop and the launcher's loop write to the log. *)
Lemma init_workers_trace (made : list (Worker + exn)) :
  forall st,
    trace (init_workers made st)
    = trace st
      ++ (LogException
            <$> omap (fun m : Worker + exn =>
                        match m with inl _ => None | inr e => Some e end)
                  made).
Proof.
  induction made as [|[w|e] made IH]; intros st; simpl.
  - by rewrite app_nil_r.
  - by rewrite IH.
  - rewrite IH. simpl. by rewrite <- app_assoc.
Qed.

Lemma drain_trace (cancelled_is_exception : bool) (fuel : nat) :
  forall st ts,
    exists tail,
      trace (drain cancelled_is_exception fuel st ts).1.1 = trace st ++ tail
      /\ logged_exceptions tail = [].
Proof.
  induction fuel as [|fuel IH]; intros st ts; simpl.
  { exists []. by rewrite app_nil_r. }
  destruct (empty (job_queue st)); [by exists [Slept 1]|].
  destruct (get (job_queue st)) as [[q [item|e]]|].
  - destruct (0 <? coroutine_semaphore st).
    + apply (IH (with_semaphore (coroutine_semaphore st - 1)
                   (with_job_queue q st)) (ts ++ [item.2])).
    + exists []. by rewrite app_nil_r.
  - unfold body_raises. destruct (caught_as_exception _ _); simpl.
    + exists [LogLauncherError e; Slept 1]. by rewrite <- app_assoc.
    + exists []. by rewrite app_nil_r.
  - exists []. by rewrite app_nil_r.
Qed.

Lemma calls_counted (made : nat -> Worker + exn) (n : nat) :
  (length (made_workers made n) + length (failed_calls made n) = n)%nat.
Proof.
  unfold made_workers, failed_calls. generalize 0%nat.
  induction n as [|n IH]; intros k; [done|].
  cbn [seq]. csimpl. specialize (IH (S k)).
  destruct (made k); simpl; lia.
Qed.

Lemma failed_calls_new_worker (built : nat -> Worker + exn) (n : nat) :
  failed_calls (new_worker built) n = failed_calls built n.
Proof.
  unfold failed_calls. generalize 0%nat.
  induction n as [|n IH]; intros k; [done|].
  cbn [seq]. csimpl. rewrite IH. unfold new_worker.
  by destruct (built k).
Qed.

(** X17. [launch] builds the worker pool once. It calls the constructor for the
    numbers below [workers_needed] in turn and keeps the workers of the
    calls that return, in that order, each with [scan_delayed] 0; a call
    that raises is logged and skipped, not repeated: after what [preload]
    logged, the log has the exceptions of the failed calls, those that
    [Worker.__init__] raised, in the order of the calls, and after them no
    further line of that kind, and every call has given a worker or a line.
    The pool therefore never exceeds the accounts
    [required_extra_accounts] asks for on its behalf. No later step of the
    launcher or of an attempt adds or removes a worker, or leaves the lock
    of one held. *)
Theorem launch_builds_the_worker_pool
    (conf : Conf) (cancelled_is_exception : bool)
    (in_bounds : Point -> bool) (forts : list (Fort * Q))
    (built : nat -> Worker + exn) (is_running : bool)
    (inputs : list input) :
  let n := Z.to_nat (workers_needed conf) in
  let sys0 := launch conf cancelled_is_exception in_bounds forts
                (new_worker built) is_running in
  let sys := run conf cancelled_is_exception inputs sys0 in
  workers (shared sys0) = made_workers (new_worker built) n
  /\ (length (workers (shared sys0)) <= n)%nat
  /\ ((forall x, (x < n)%nat -> exists w, built x = inl w) ->
      length (workers (shared sys0)) = n)
  /\ Forall (fun w => scan_delayed w = 0) (workers (shared sys0))
  /\ (exists tail,
        trace (shared sys0)
        = trace (preload in_bounds forts (initial_state conf is_running))
          ++ (LogException <$> failed_calls built n) ++ tail
        /\ logged_exceptions tail = [])
  /\ (length (workers (shared sys0)) + length (failed_calls built n) = n)%nat
  /\ (forall base,
        0 <= workers_needed conf ->
        base + Z.of_nat (length (workers (shared sys0)))
        <= required_extra_accounts conf base)
  /\ length (workers (shared sys)) = length (workers (shared sys0))
  /\ (Forall (fun w => busy w = false) (workers (shared sys0)) ->
      Forall (fun w => busy w = false) (workers (shared sys))).
Proof.
  cbv zeta.
  assert (Hpool : workers (shared (launch conf cancelled_is_exception
                    in_bounds forts (new_worker built) is_running))
                  = made_workers (new_worker built)
                      (Z.to_nat (workers_needed conf))).
  { unfold launch, run_drain.
    destruct (preload_frame in_bounds forts (initial_state conf is_running))
      as (Hw1 & _).
    destruct (init_workers_frame
      (map (new_worker built) (seq 0 (Z.to_nat (workers_needed conf))))
      (preload in_bounds forts (initial_state conf is_running)))
      as (_ & _ & _ & _ & _ & _ & Hw2).
    set (st2 := init_workers _ _) in *.
    destruct (drain_frame cancelled_is_exception (S (length (job_queue st2)))
                st2 []) as (Hw3 & _).
    destruct (drain _ _ _ _) as [[st' l] ts']. simpl in *.
    rewrite Hw3, Hw2, Hw1. simpl. unfold made_workers. apply omap_map. }
  assert (Hlen : forall n,
    (length (made_workers (new_worker built) n) <= n)%nat
    /\ ((forall x, (x < n)%nat -> exists w, built x = inl w) ->
        length (made_workers (new_worker built) n) = n)
    /\ Forall (fun w => scan_delayed w = 0)
         (made_workers (new_worker built) n)).
  { clear. unfold made_workers. intros n.
    set (f := fun x => match new_worker built x with
                       | inl w => Some w
                       | inr _ => None
                       end).
    assert (Hf : forall k,
      f k = match built k with
            | inl w => Some (set_scan_delayed 0 w)
            | inr _ => None
            end).
    { intros k. unfold f, new_worker. by destruct (built k). }
    assert (H : forall k,
      (length (omap f (seq k n)) <= n)%nat
      /\ ((forall x, (k <= x < k + n)%nat -> exists w, built x = inl w) ->
          length (omap f (seq k n)) = n)
      /\ Forall (fun w => scan_delayed w = 0) (omap f (seq k n))).
    { clearbody f. induction n as [|n IH]; intros k; [done|].
      cbn [seq]. csimpl. rewrite Hf.
      destruct (IH (S k)) as (H1 & H2 & H3).
      destruct (built k) as [w|e] eqn:Hk; simpl.
      - split_and!; [lia| |by constructor].
        intros Hall. f_equal. apply H2. intros x Hx. apply Hall. lia.
      - split_and!; [lia| |done].
        intros Hall. destruct (Hall k) as [w Hw]; [lia|congruence]. }
    destruct (H 0%nat) as (H1 & H2 & H3). split_and!; [done| |done].
    intros Hall. apply H2. intros x Hx. apply Hall. lia. }
  destruct (Hlen (Z.to_nat (workers_needed conf))) as (H1 & H2 & H3).
  rewrite Hpool. split_and!; try done.
  - rewrite <- failed_calls_new_worker. unfold launch, run_drain.
    pose proof (init_workers_trace
      (map (new_worker built) (seq 0 (Z.to_nat (workers_needed conf))))
      (preload in_bounds forts (initial_state conf is_running))) as Ht.
    set (st2 := init_workers _ _) in *.
    destruct (drain_trace cancelled_is_exception (S (length (job_queue st2)))
                st2 []) as (tail & Hd & Hnone).
    destruct (drain _ _ _ _) as [[st' l] ts']. cbn [shared fst snd] in *.
    exists tail. split; [|done].
    rewrite Hd, Ht, omap_map. by rewrite <- app_assoc.
  - rewrite <- failed_calls_new_worker. apply calls_counted.
  - intros base Hn. unfold required_extra_accounts. lia.
  - rewrite <- Hpool. generalize (launch conf cancelled_is_exception
      in_bounds forts (new_worker built) is_running). clear.
    induction inputs as [|inp inputs IH]; intros sys; [done|]. simpl.
    rewrite IH. apply step_pool.
  - rewrite <- Hpool. generalize (launch conf cancelled_is_exception
      in_bounds forts (new_worker built) is_running). clear.
    induction inputs as [|inp inputs IH]; intros sys Hidle; [done|]. simpl.
    apply IH. by apply step_pool.
Qed.

(** X18. A limiter without units starts nothing. With [workers_needed] at 0 (a
    zero share, or an empty grid) there is no worker and no unit: a job the
    launcher takes out of the queue stays in its hand, waiting for a unit
    that no attempt will ever give back. Along every run no attempt is
    started, no visit made and nothing counted. *)
Theorem nothing_starts_without_units
    (conf : Conf) (cancelled_is_exception : bool)
    (in_bounds : Point -> bool) (forts : list (Fort * Q))
    (made : nat -> Worker + exn) (is_running : bool)
    (inputs : list input) :
  workers_needed conf = 0 ->
  let sys0 := launch conf cancelled_is_exception in_bounds forts made
                is_running in
  let sys := run conf cancelled_is_exception inputs sys0 in
  workers (shared sys) = []
  /\ coroutine_semaphore (shared sys) = 0
  /\ tasks sys = []
  /\ visit_calls (trace (shared sys)) = []
  /\ visits (shared sys) = 0 /\ skipped (shared sys) = 0.
Proof.
  intros Hzero. cbv zeta.
  assert (H0 : let sys0 := launch conf cancelled_is_exception in_bounds forts
                             made is_running in
    length (workers (shared sys0)) = 0%nat
    /\ coroutine_semaphore (shared sys0) = 0
    /\ tasks sys0 = [] /\ visit_calls (trace (shared sys0)) = []
    /\ visits (shared sys0) = 0 /\ skipped (shared sys0) = 0).
  { cbv zeta. unfold launch. rewrite Hzero. simpl.
    destruct (preload_frame in_bounds forts (initial_state conf is_running))
      as (Hw & Hv & Hs & Hsem & _ & Hvc).
    set (st1 := preload in_bounds forts (initial_state conf is_running)) in *.
    simpl in Hw, Hv, Hs, Hsem, Hvc. rewrite Hzero in Hsem.
    unfold run_drain.
    destruct (drain_frame cancelled_is_exception (S (length (job_queue st1)))
                st1 []) as (Hw' & Hv' & Hs' & Hvc' & Hno).
    destruct Hno as [Hts Hsem']; [lia|].
    destruct (drain _ _ _ _) as [[st' l] ts']. simpl in *.
    rewrite Hw', Hw. split_and!; try done; congruence. }
  cbv zeta in H0. revert H0.
  generalize (launch conf cancelled_is_exception in_bounds forts made
                is_running).
  clear. induction inputs as [|inp inputs IH];
    intros sys (Hw & Hsem & Hts & Hvc & Hv & Hs).
  { simpl. split_and!; try done. by apply nil_length_inv. }
  simpl. apply IH.
  destruct (step_no_units conf cancelled_is_exception inp sys)
    as (H1 & H2 & H3 & H4 & H5); [lia|done|].
  destruct (step_pool conf cancelled_is_exception inp sys) as [H6 _].
  split_and!; congruence.
Qed.

Lemma nothing_starts_without_units_witness :
  let sys0 := launch no_raiders false (fun _ => true)
                [(sample_fort 1, 1%Q); (sample_fort 2, 2%Q)]
                (fun x => inl (sample_worker x false 5.0)) true in
  let sys := run no_raiders false
               [Wake; Finish 0 (sample_env_at 1000 (Returns (PyInt 1))); Wake]
               sys0 in
  workers (shared sys) = []
  /\ coroutine_semaphore (shared sys) = 0
  /\ tasks sys = []
  /\ visit_calls (trace (shared sys)) = []
  /\ visits (shared sys) = 0 /\ skipped (shared sys) = 0.
Proof.
  apply (nothing_starts_without_units no_raiders false (fun _ => true)
           [(sample_fort 1, 1%Q); (sample_fort 2, 2%Q)]
           (fun x => inl (sample_worker x false 5.0)) true
           [Wake; Finish 0 (sample_env_at 1000 (Returns (PyInt 1))); Wake]).
  reflexivity.
Defined.
